(** * Chess.UI: the drag-and-drop chessboard controller of [src/logic/ui.js]

    A shallow embedding of the controller and of the part of the page it
    manipulates.  The rule engine ([Chess.Position], [Chess.Move],
    [Chess.Bitboard]) and the constants of the [Chess] namespace live outside
    [ui.js]; they are the fields of the class [ChessEngine] below.  The page
    is a finite map from the [id] of every [td] of the board to that cell;
    jQuery selections become lookups, [alter]s and [fmap]s on that map. *)

From Stdlib Require Import Ascii String.
From stdpp Require Import base decidable option list strings pretty gmap fin_maps.

Local Open Scope string_scope.
Local Open Scope list_scope.
Local Open Scope nat_scope.

#[local] Set Warnings "-clear-no-such-hyp,-register-all".

(** ** Class attributes *)

Module Css.

(** jQuery splits a class argument on [\x20 \t \r \n \f]. *)
Definition isWhite (a : ascii) : bool :=
  match a with
  | " " | "009" | "010" | "012" | "013" => true
  | _ => false
  end%char.

Definition flush (cur : string) : list string :=
  match cur with
  | EmptyString => []
  | _ => [cur]
  end.

Fixpoint split (cur s : string) : list string :=
  match s with
  | EmptyString => flush cur
  | String a s' =>
      if isWhite a then flush cur ++ split EmptyString s'
      else split (cur +:+ String a EmptyString) s'
  end.

(** The class names a string argument stands for. *)
Definition classNames (s : string) : list string := split EmptyString s.

Definition addClass (s : string) (cs : gset string) : gset string :=
  cs ∪ list_to_set (classNames s).

Definition removeClass (s : string) (cs : gset string) : gset string :=
  cs ∖ list_to_set (classNames s).

(** [toggleClass(name, state)] with a boolean [state]. *)
Definition toggleClass (s : string) (state : bool) (cs : gset string) : gset string :=
  if state then addClass s cs else removeClass s cs.

Definition hasClass (c : string) (cs : gset string) : bool :=
  bool_decide (c ∈ cs).

End Css.

Import Css.

(** ** The page *)

(** A piece node: a [div] below a [td]. [div_hover] records that the
    [mouseenter]/[mouseleave] pair of [updateMoves] is bound to it,
    [div_draggable] that the jQuery UI draggable widget is attached (the
    element then carries [ui-draggable]). *)
Record Div := MkDiv {
  div_class : gset string;
  div_title : string;
  div_text : string;
  div_hover : bool;
  div_draggable : bool
}.

(** A square of the board: a [td]. [td_droppable] is [Some from] when the
    droppable widget is attached (the element then carries [ui-droppable]);
    [from] is the origin captured by the closure of its [drop] callback. *)
Record Td := MkTd {
  td_class : gset string;
  td_title : string;
  td_children : list Div;
  td_droppable : option nat
}.

Definition div_mapClass (f : gset string → gset string) (d : Div) : Div :=
  MkDiv (f (div_class d)) (div_title d) (div_text d) (div_hover d) (div_draggable d).

Definition td_mapClass (f : gset string → gset string) (t : Td) : Td :=
  MkTd (f (td_class t)) (td_title t) (td_children t) (td_droppable t).

Definition td_mapChildren (f : Div → Div) (t : Td) : Td :=
  MkTd (td_class t) (td_title t) (f <$> td_children t) (td_droppable t).

(** [td.add(td.children())] followed by a class operation. *)
Definition td_mapClassAll (f : gset string → gset string) (t : Td) : Td :=
  td_mapChildren (div_mapClass f) (td_mapClass f t).

(** The cells of [#chessboard table], by [id]. *)
Abbreviation Board := (gmap string Td).

Inductive PieceColor := WHITE | BLACK.

#[global] Instance PieceColor_eq_dec : EqDecision PieceColor.
Proof. solve_decision. Defined.

(** Modelled from the spec: [Chess.Position.Status] is declared outside
    [ui.js]; the controller tells apart normal, checkmate and every other
    (draw) classification. *)
Inductive Status := NORMAL | CHECKMATE | DRAW.

#[global] Instance Status_eq_dec : EqDecision Status.
Proof. solve_decision. Defined.

(** Modelled from the spec: [Chess.RANKS] and [Chess.FILES] are declared
    outside [ui.js]; the board is 8 by 8. *)
Definition RANKS : nat := 8.
Definition FILES : nat := 8.

(** Modelled from the spec: [Chess.LAST_RANK] is declared outside [ui.js];
    ranks run from 0 to 7. *)
Definition LAST_RANK : nat := 7.

(** The collaborators of the controller: everything [ui.js] reads from the
    [Chess] namespace. [makeMove] mutates the position in place; here it
    returns the mutated position. [newPosition] is [new Chess.Position]. *)
Class ChessEngine := {
  Position : Type;
  Move : Type;
  Bitboard : Type;
  Kind : Type;
  Kind_eq_dec :: EqDecision Kind;
  PAWN : nat;
  KING : nat;
  PIECE_NAMES : list string;
  POSITIONAL : Kind;
  DOUBLE_PAWN_PUSH : Kind;
  EN_PASSANT_CAPTURE : Kind;
  KING_CASTLE : Kind;
  QUEEN_CASTLE : Kind;
  getPieceCharacter : nat → PieceColor → string;
  isLight : nat → nat → bool;
  getIndex : nat → nat → nat;
  getAlgebraic : nat → nat → string;
  getAlgebraicFromIndex : nat → string;
  getIndexFromAlgebraic : string → nat;
  isSet : Bitboard → nat → bool;
  getFrom : Move → nat;
  getTo : Move → nat;
  getKind : Move → Kind;
  isCapture : Move → bool;
  isPromotion : Move → bool;
  isCastle : Move → bool;
  newPosition : Position;
  getColorBitboard : Position → PieceColor → Bitboard;
  getPieceBitboard : Position → nat → Bitboard;
  getTurnColor : Position → PieceColor;
  getLastMove : Position → option Move;
  getMoves : Position → list Move;
  getStatus : Position → Status;
  makeMove : Position → Move → Position
}.

(** ** The controller *)

Section Controller.
Context `{ChessEngine}.

(** What the controller invokes, in order: its own functions, the position's
    [makeMove] and the browser's [confirm] with the reply it got. *)
Inductive Call :=
| CallMakeMove (move : Move)
| CallUpdateChessPosition
| CallClearMoving
| CallClearDragging
| CallUpdatePieces
| CallUpdateMoves
| CallReset
| CallConfirm (message : string) (reply : bool).

(** The state of a [Chess.UI] object together with the page. [moves] and
    [dragging] are the variables of the latest [updateMoves] activation that
    its handlers close over: [updatePieces] discards every earlier piece node
    and [clearDragging] every earlier droppable, so no handler of an earlier
    activation survives a resynchronization. *)
Record UI := MkUI {
  chessPosition : Position;
  board : Board;
  moves : list Move;
  dragging : bool;
  dimHidden : bool;
  calls : list Call
}.

Definition withBoard (f : Board → Board) (ui : UI) : UI :=
  MkUI (chessPosition ui) (f (board ui)) (moves ui) (dragging ui) (dimHidden ui) (calls ui).

Definition withDragging (b : bool) (ui : UI) : UI :=
  MkUI (chessPosition ui) (board ui) (moves ui) b (dimHidden ui) (calls ui).

Definition withPosition (p : Position) (ui : UI) : UI :=
  MkUI p (board ui) (moves ui) (dragging ui) (dimHidden ui) (calls ui).

Definition record (c : Call) (ui : UI) : UI :=
  MkUI (chessPosition ui) (board ui) (moves ui) (dragging ui) (dimHidden ui) (calls ui ++ [c]).

(** [$("#" + Chess.getAlgebraicFromIndex(index))] *)
Definition squareId (index : nat) : string := getAlgebraicFromIndex index.

Definition MOVING_CLASSES : string :=
  "from to positional capture double-push en-passant promotion castle king-castle queen-castle".

(** [Chess.UI.clearMoving] *)
Definition clearMovingBoard (b : Board) : Board :=
  td_mapClassAll (removeClass MOVING_CLASSES) <$> b.

Definition clearMoving (ui : UI) : UI :=
  withBoard clearMovingBoard (record CallClearMoving ui).

Definition destroyDraggable (d : Div) : Div :=
  MkDiv (div_class d) (div_title d) (div_text d) (div_hover d) false.

Definition destroyDroppable (t : Td) : Td :=
  MkTd (td_class t) (td_title t) (td_children t) None.

(** [Chess.UI.clearDragging] *)
Definition clearDraggingBoard (b : Board) : Board :=
  (λ t, destroyDroppable (td_mapChildren destroyDraggable t)) <$> b.

Definition clearDragging (ui : UI) : UI :=
  withBoard clearDraggingBoard (record CallClearDragging ui).

(** [PIECE_NAMES[piece]], [undefined] outside the array. *)
Definition pieceName (piece : nat) : option string := PIECE_NAMES !! piece.

Definition jsString (o : option string) : string := default "undefined" o.

(** [addClass] ignores an argument that is not a string. *)
Definition addClassOpt (o : option string) (cs : gset string) : gset string :=
  from_option (λ s, addClass s cs) cs o.

Definition newline : string := String "010"%char EmptyString.

(** The piece types scanned by the inner loop: [PAWN], [PAWN + 1], ..., [KING]. *)
Definition pieceScan : list nat := seq PAWN (S KING - PAWN).

(** The four class operations applied to [div.add(td)]. *)
Definition pieceClasses (p : Position) (index piece : nat) (cs : gset string) : gset string :=
  let whites := getColorBitboard p WHITE in
  let blacks := getColorBitboard p BLACK in
  let isTurn :=
    if decide (getTurnColor p = WHITE) then isSet whites index else isSet blacks index in
  toggleClass "turn" isTurn
    (toggleClass "black" (isSet blacks index)
      (toggleClass "white" (isSet whites index)
        (addClassOpt (pieceName piece) cs))).

(** The [div] created for [piece] on the cell [td] of [index]. *)
Definition pieceDiv (p : Position) (index piece : nat) (td : Td) : Div :=
  let isWhite := isSet (getColorBitboard p WHITE) index in
  MkDiv (pieceClasses p index piece ∅)
    (td_title td +:+ newline +:+ "Piece: " +:+ jsString (pieceName piece)
       +:+ newline +:+ "Color: " +:+ (if isWhite then "white" else "black"))
    (getPieceCharacter piece (if isWhite then WHITE else BLACK))
    false false.

(** The body of the [if] of the inner loop, as the change it makes to [td]. *)
Definition renderPiece (p : Position) (index piece : nat) (td : Td) : Td :=
  MkTd (pieceClasses p index piece (td_class td)) (td_title td)
    (td_children td ++ [pieceDiv p index piece td]) (td_droppable td).

(** One turn of the outer loop: the first piece type whose bitboard has
    [index] set is rendered, then the scan [break]s. *)
Definition updateSquare (p : Position) (b : Board) (index : nat) : Board :=
  match List.find (λ piece, isSet (getPieceBitboard p piece) index) pieceScan with
  | Some piece => alter (renderPiece p index piece) (squareId index) b
  | None => b
  end.

Definition removePieces (t : Td) : Td :=
  MkTd (removeClass ("white black turn last-move " +:+ String.concat " " PIECE_NAMES) (td_class t))
    (td_title t) [] (td_droppable t).

Definition markLastMove (p : Position) (b : Board) : Board :=
  match getLastMove p with
  | Some lastMove =>
      alter (td_mapClass (addClass "last-move")) (squareId (getTo lastMove))
        (alter (td_mapClass (addClass "last-move")) (squareId (getFrom lastMove)) b)
  | None => b
  end.

Definition updatePiecesBoard (p : Position) (b : Board) : Board :=
  markLastMove p (foldl (updateSquare p) (removePieces <$> b) (seq 0 (RANKS * FILES))).

(** [Chess.UI.prototype.updatePieces] *)
Definition updatePieces (ui : UI) : UI :=
  withBoard (updatePiecesBoard (chessPosition ui)) (record CallUpdatePieces ui).

(** The global phase of [updateMoves]: the loop body of [moves.forEach]. *)
Definition markCanMove (b : Board) (move : Move) : Board :=
  alter (td_mapClassAll (addClass "can-move")) (squareId (getFrom move)) b.

(** [$(CHESSBOARD_PIECE + ".can-move").mouseenter(...).mouseleave(...)] *)
Definition bindHover (d : Div) : Div :=
  MkDiv (div_class d) (div_title d) (div_text d)
    (div_hover d || hasClass "can-move" (div_class d)) (div_draggable d).

Definition canMoveBoard (mvs : list Move) (b : Board) : Board :=
  foldl markCanMove (td_mapClassAll (removeClass "can-move") <$> b) mvs.

(** [Chess.UI.prototype.updateMoves]: the global phase and the binding of the
    hover handlers; the handlers themselves follow. *)
Definition updateMoves (ui : UI) : UI :=
  let mvs := getMoves (chessPosition ui) in
  MkUI (chessPosition ui)
    (td_mapChildren bindHover <$> canMoveBoard mvs (board ui))
    mvs false (dimHidden ui) (calls ui ++ [CallUpdateMoves]).

(** The class arguments of the nine [addClass] calls made for one move, in
    the order of the source. *)
Definition destinationClasses (move : Move) : list string :=
  [ "to";
    if decide (getKind move = POSITIONAL) then "positional" else "";
    if isCapture move then "capture" else "";
    if decide (getKind move = DOUBLE_PAWN_PUSH) then "double-push" else "";
    if decide (getKind move = EN_PASSANT_CAPTURE) then "en-passant" else "";
    if isPromotion move then "promotion" else "";
    if isCastle move then "castle" else "";
    if decide (getKind move = KING_CASTLE) then "king-castle" else "";
    if decide (getKind move = QUEEN_CASTLE) then "queen-castle" else "" ].

Definition addClasses (l : list string) (cs : gset string) : gset string :=
  foldl (λ acc c, addClass c acc) cs l.

(** The loop body of the [moves.forEach] of the hover handler. *)
Definition markDestination (from : nat) (b : Board) (move : Move) : Board :=
  if (getFrom move =? from)%nat
  then alter (td_mapClassAll (addClasses (destinationClasses move))) (squareId (getTo move)) b
  else b.

(** [td.add(div)] followed by a class operation, [div] being child [k]. *)
Definition td_mapClassChild (k : nat) (f : gset string → gset string) (t : Td) : Td :=
  MkTd (f (td_class t)) (td_title t) (alter (div_mapClass f) k (td_children t)) (td_droppable t).

Definition td_alterChild (k : nat) (f : Div → Div) (t : Td) : Td :=
  MkTd (td_class t) (td_title t) (alter f k (td_children t)) (td_droppable t).

(** [hasClass] on [td.add(div)]: some element of the selection has it. *)
Definition selectionHasClass (c : string) (k : nat) (t : Td) : bool :=
  hasClass c (td_class t)
  || from_option (λ d, hasClass c (div_class d)) false (td_children t !! k).

Definition makeDroppable (from : nat) (t : Td) : Td :=
  if hasClass "to" (td_class t)
  then MkTd (td_class t) (td_title t) (td_children t) (Some from)
  else t.

Definition makeDraggable (d : Div) : Div :=
  MkDiv (div_class d) (div_title d) (div_text d) (div_hover d) true.

(** The [mouseenter] handler, run on child [k] of the cell with id [sq]. *)
Definition mouseenterHandler (sq : string) (k : nat) (ui : UI) : UI :=
  if dragging ui then ui
  else
    let from := getIndexFromAlgebraic sq in
    let isFrom := existsb (λ move, (getFrom move =? from)%nat) (moves ui) in
    let ui1 := withBoard (alter (td_mapClassChild k (toggleClass "from" isFrom)) sq) ui in
    if from_option (selectionHasClass "from" k) false (board ui1 !! sq)
    then
      let ui2 := withBoard (λ b, foldl (markDestination from) b (moves ui)) ui1 in
      let ui3 := clearDragging ui2 in
      let ui4 := withBoard (fmap (makeDroppable from)) ui3 in
      withBoard (alter (td_alterChild k makeDraggable) sq) ui4
    else ui1.

(** The [mouseleave] handler. *)
Definition mouseleaveHandler (ui : UI) : UI :=
  if dragging ui then ui else clearMoving ui.

(** The [start] and [stop] callbacks of the draggable. *)
Definition dragStart (ui : UI) : UI := withDragging true ui.
Definition dragStop (ui : UI) : UI := withDragging false ui.

(** Where a call of the controller ends: it returns, or it is blocked in a
    [confirm] that the user has not answered yet. *)
Inductive Outcome :=
| Done (ui : UI)
| Confirming (message : string) (ui : UI).

Definition finalUI (o : Outcome) : UI :=
  match o with
  | Done ui => ui
  | Confirming _ ui => ui
  end.

Definition hideDim (ui : UI) : UI :=
  MkUI (chessPosition ui) (board ui) (moves ui) (dragging ui) true (calls ui).

(** The first six statements of [updateChessPosition]: the full
    resynchronization of the page with the position. *)
Definition resynchronize (ui : UI) : UI :=
  hideDim (updateMoves (updatePieces (clearDragging (clearMoving
    (record CallUpdateChessPosition ui))))).

Definition checkmateMessage (p : Position) : string :=
  let winner := if decide (getTurnColor p = WHITE) then "Black" else "White" in
  winner +:+ " wins. Checkmate! Do you want to restart the game?".

Definition drawMessage : string :=
  "The game is a draw. Do you want to restart the game?".

(** The assignment of [reset]. *)
Definition resetPosition (ui : UI) : UI :=
  withPosition newPosition (record CallReset ui).

(** [Chess.UI.prototype.updateChessPosition]. [replies] are the answers the
    user gives to the [confirm] dialogs, in order; each dialog consumes one,
    and an accepted restart is the call of [reset], which assigns a new
    position and calls [updateChessPosition] again. *)
Fixpoint updateChessPosition (replies : list bool) (ui : UI) : Outcome :=
  let ui1 := resynchronize ui in
  let status := getStatus (chessPosition ui1) in
  let ask message :=
    match replies with
    | [] => Confirming message ui1
    | reply :: rest =>
        let ui2 := record (CallConfirm message reply) ui1 in
        if reply then updateChessPosition rest (resetPosition ui2) else Done ui2
    end in
  if decide (status = CHECKMATE) then ask (checkmateMessage (chessPosition ui1))
  else if decide (status ≠ NORMAL) then ask drawMessage
  else Done ui1.

(** [Chess.UI.prototype.reset] *)
Definition reset (replies : list bool) (ui : UI) : Outcome :=
  updateChessPosition replies (resetPosition ui).

(** The filter of the [drop] callback. *)
Definition matching (from to : nat) (move : Move) : bool :=
  (getFrom move =? from)%nat && (getTo move =? to)%nat.

(** The [drop] callback bound with origin [from], run on the cell with id [sq]. *)
Definition dropHandler (replies : list bool) (from : nat) (sq : string) (ui : UI) : Outcome :=
  let to := getIndexFromAlgebraic sq in
  let makeMoves := List.filter (matching from to) (moves ui) in
  match makeMoves with
  | move :: _ =>
      updateChessPosition replies
        (withPosition (makeMove (chessPosition ui) move) (record (CallMakeMove move) ui))
  | [] => Done (clearDragging (clearMoving ui))
  end.

(** The [td] that [makeBoard] creates for a rank and a file. *)
Definition makeCell (rank file : nat) : Td :=
  let color := if isLight rank file then "light" else "dark" in
  MkTd (addClass color ∅)
    ("Algebraic: " +:+ getAlgebraic rank file
       +:+ newline +:+ "Rank: " +:+ pretty rank
       +:+ newline +:+ "File: " +:+ pretty file
       +:+ newline +:+ "Index: " +:+ pretty (getIndex rank file)
       +:+ newline +:+ "Color: " +:+ color)
    [] None.

Definition makeRow (b : Board) (row : nat) : Board :=
  let rank := LAST_RANK - row in
  foldl (λ acc file, <[getAlgebraic rank file := makeCell rank file]> acc) b (seq 0 FILES).

(** [Chess.UI.makeBoard]: the cells of the table it appends to [#chessboard]
    (the header cells carry no state and are left out). *)
Definition makeBoard : Board := foldl makeRow ∅ (seq 0 RANKS).

(** [new Chess.UI] on the page [b]. *)
Definition newUI (b : Board) : UI := MkUI newPosition b [] false false [].

(** [makeChessGame] *)
Definition makeChessGame (replies : list bool) : Outcome :=
  updateChessPosition replies (newUI makeBoard).

(** ** Events

    The browser runs a handler only where it is bound. *)

Definition mouseenter (sq : string) (k : nat) (ui : UI) : UI :=
  match board ui !! sq ≫= (λ t, td_children t !! k) with
  | Some d => if div_hover d then mouseenterHandler sq k ui else ui
  | None => ui
  end.

Definition mouseleave (sq : string) (k : nat) (ui : UI) : UI :=
  match board ui !! sq ≫= (λ t, td_children t !! k) with
  | Some d => if div_hover d then mouseleaveHandler ui else ui
  | None => ui
  end.

Definition dropEvent (replies : list bool) (sq : string) (ui : UI) : Outcome :=
  match board ui !! sq ≫= td_droppable with
  | Some from => dropHandler replies from sq ui
  | None => Done ui
  end.

(** A drag can only start on a piece node that carries the draggable. *)
Definition dragstart (sq : string) (k : nat) (ui : UI) : UI :=
  match board ui !! sq ≫= (λ t, td_children t !! k) with
  | Some d => if div_draggable d then dragStart ui else ui
  | None => ui
  end.

(** What the user can do to the page. A drop carries the replies the user
    gives to the confirmations it may lead to. *)
Inductive Event :=
| Mouseenter (sq : string) (k : nat)
| Mouseleave (sq : string) (k : nat)
| Dragstart (sq : string) (k : nat)
| Dragstop
| Dropped (sq : string) (replies : list bool).

Definition handle (e : Event) (ui : UI) : Outcome :=
  match e with
  | Mouseenter sq k => Done (mouseenter sq k ui)
  | Mouseleave sq k => Done (mouseleave sq k ui)
  | Dragstart sq k => Done (dragstart sq k ui)
  | Dragstop => Done (dragStop ui)
  | Dropped sq replies => dropEvent replies sq ui
  end.

(** The events of a list, one after the other; [None] if one of them ends
    in a confirmation that got no reply. *)
Fixpoint run (events : list Event) (ui : UI) : option UI :=
  match events with
  | [] => Some ui
  | e :: rest =>
      match handle e ui with
      | Done ui' => run rest ui'
      | Confirming _ _ => None
      end
  end.

(** The states in which the controller waits for the next event. *)
Inductive reachable : UI → Prop :=
| reachable_start replies ui :
    makeChessGame replies = Done ui → reachable ui
| reachable_step e ui ui' :
    reachable ui → handle e ui = Done ui' → reachable ui'.

End Controller.

(** ** Vocabulary of the properties *)

Section Vocabulary.
Context `{ChessEngine}.

(** The coordinate mapping of the engine: a cell id resolves back to the
    index it was made from. *)
Definition coordinatesAgree : Prop :=
  ∀ index, index < RANKS * FILES →
    getIndexFromAlgebraic (getAlgebraicFromIndex index) = index.

(** [makeBoard] has run: every index of the board has its cell. *)
Definition boardBuilt (b : Board) : Prop :=
  ∀ index, index < RANKS * FILES → is_Some (b !! squareId index).

(** [boardBuilt], as a check that runs through the indices. *)
Definition boardBuiltb (b : Board) : bool :=
  forallb (λ index, bool_decide (is_Some (b !! squareId index))) (seq 0 (RANKS * FILES)).

(** [piece] is the first type of the scan whose bitboard contains [index]. *)
Definition firstPieceAt (p : Position) (index piece : nat) : Prop :=
  PAWN ≤ piece ≤ KING ∧
  isSet (getPieceBitboard p piece) index = true ∧
  ∀ earlier, PAWN ≤ earlier < piece → isSet (getPieceBitboard p earlier) index = false.

(** No type of the scan has [index] in its bitboard. *)
Definition noPieceAt (p : Position) (index : nat) : Prop :=
  ∀ piece, PAWN ≤ piece ≤ KING → isSet (getPieceBitboard p piece) index = false.

(** What one turn of the outer loop does to the cell of [index]. *)
Definition squareStep (p : Position) (index : nat) (td : Td) : Td :=
  match List.find (λ piece, isSet (getPieceBitboard p piece) index) pieceScan with
  | Some piece => renderPiece p index piece td
  | None => td
  end.

(** A class name that stands for itself and is none of the three tags the
    colour and turn toggles manage. *)
Definition properName (name : string) : Prop :=
  classNames name = [name] ∧ name ∉ ["white"; "black"; "turn"].

Definition tagIf (state : bool) (c : string) : gset string :=
  if state then {[c]} else ∅.

(** The tags a piece node must carry: its type name, the colours whose
    occupancy set contains the square, and [turn] when the set of the side to
    move contains it. *)
Definition expectedTags (p : Position) (index : nat) (name : string) : gset string :=
  {[name]}
  ∪ tagIf (isSet (getColorBitboard p WHITE) index) "white"
  ∪ tagIf (isSet (getColorBitboard p BLACK) index) "black"
  ∪ tagIf (isSet (getColorBitboard p (getTurnColor p)) index) "turn".

(** The squares of the board that hold a piece node. *)
Definition holdsPiece (b : Board) (index : nat) : bool :=
  from_option (λ td, bool_decide (td_children td ≠ [])) false (b !! squareId index).

Definition pieceSquares (b : Board) : gset nat :=
  list_to_set (List.filter (holdsPiece b) (seq 0 (RANKS * FILES))).

(** An occupancy set, read through [isSet] on the indices of the board. *)
Definition occupancy (bitboard : Bitboard) : gset nat :=
  list_to_set (List.filter (isSet bitboard) (seq 0 (RANKS * FILES))).

Definition colourOccupancy (p : Position) : gset nat :=
  occupancy (getColorBitboard p WHITE) ∪ occupancy (getColorBitboard p BLACK).

Definition typeOccupancy (p : Position) : gset nat :=
  ⋃ ((λ piece, occupancy (getPieceBitboard p piece)) <$> pieceScan).

(** The cell of [index] carries the class [c]. *)
Definition cellTagged (c : string) (b : Board) (index : nat) : bool :=
  from_option (λ td, hasClass c (td_class td)) false (b !! squareId index).

Definition taggedSquares (c : string) (b : Board) : gset nat :=
  list_to_set (List.filter (cellTagged c b) (seq 0 (RANKS * FILES))).

(** The distinct origins of a list of moves. *)
Definition origins (mvs : list Move) : gset nat := list_to_set (getFrom <$> mvs).

(** Both highlighting loops have one shape: for every move that passes
    [guard], add the classes [tags move] to the cell [key move] and to its
    piece nodes. *)
Definition tagStep (key : Move → string) (tags : Move → list string)
    (guard : Move → bool) (b : Board) (move : Move) : Board :=
  if guard move
  then alter (td_mapClassAll (addClasses (tags move))) (key move) b
  else b.

(** The class arguments such a loop applies to the cell [s], in order. *)
Definition tagsFor (key : Move → string) (tags : Move → list string)
    (guard : Move → bool) (mvs : list Move) (s : string) : list string :=
  flat_map tags (List.filter (λ move, guard move && bool_decide (key move = s)) mvs).

(** The tags of a destination and the facet of a move each one stands for. *)
Definition destinationTags : list (string * (Move → bool)) :=
  [ ("to", λ _, true);
    ("positional", λ move, bool_decide (getKind move = POSITIONAL));
    ("capture", isCapture);
    ("double-push", λ move, bool_decide (getKind move = DOUBLE_PAWN_PUSH));
    ("en-passant", λ move, bool_decide (getKind move = EN_PASSANT_CAPTURE));
    ("promotion", isPromotion);
    ("castle", isCastle);
    ("king-castle", λ move, bool_decide (getKind move = KING_CASTLE));
    ("queen-castle", λ move, bool_decide (getKind move = QUEEN_CASTLE)) ].

(** From the cell [td] to the cell [td'], the class [c] was added to the
    cell and to each of its piece nodes exactly if [hit] holds; nothing else
    changed about [c], and the piece nodes are the same in number. *)
Definition addsTag (c : string) (hit : Prop) (td td' : Td) : Prop :=
  (c ∈ td_class td' ↔ c ∈ td_class td ∨ hit) ∧
  Forall2 (λ d d', c ∈ div_class d' ↔ c ∈ div_class d ∨ hit)
    (td_children td) (td_children td').

(** Some move of [mvs] goes from [from] to [to] and has the facet [applies]. *)
Definition facetMove (mvs : list Move) (from to : nat) (applies : Move → bool) : Prop :=
  ∃ move, move ∈ mvs ∧ getFrom move = from ∧ getTo move = to ∧ applies move = true.

(** The state handed to [updateChessPosition] by the [drop] callback. *)
Definition submitted (move : Move) (ui : UI) : UI :=
  withPosition (makeMove (chessPosition ui) move) (record (CallMakeMove move) ui).

(** The calls of one full resynchronization, in order. *)
Definition resyncCalls : list Call :=
  [CallUpdateChessPosition; CallClearMoving; CallClearDragging;
   CallUpdatePieces; CallUpdateMoves].

(** The moves submitted to the position's [makeMove], in order. *)
Definition makeMoveCalls (l : list Call) : list Move :=
  omap (λ c, match c with CallMakeMove move => Some move | _ => None end) l.

(** How many full resynchronizations a call sequence starts. *)
Definition resynchronizations (l : list Call) : nat :=
  length (List.filter (λ c, match c with CallUpdateChessPosition => true | _ => false end) l).

(** How many times [reset] ran. *)
Definition restarts (l : list Call) : nat :=
  length (List.filter (λ c, match c with CallReset => true | _ => false end) l).

(** The question a call is blocked in. *)
Definition confirmation (o : Outcome) : option string :=
  match o with
  | Done _ => None
  | Confirming message _ => Some message
  end.

(** The confirmation that ends a resynchronization, if any. *)
Definition prompt (p : Position) : option string :=
  if decide (getStatus p = CHECKMATE) then Some (checkmateMessage p)
  else if decide (getStatus p ≠ NORMAL) then Some drawMessage
  else None.

Definition colorName (color : PieceColor) : string :=
  match color with WHITE => "White" | BLACK => "Black" end.

Definition opponent (color : PieceColor) : PieceColor :=
  match color with WHITE => BLACK | BLACK => WHITE end.

(** [name] occurs in [message]. *)
Fixpoint mentions (name message : string) : bool :=
  String.prefix name message
  || match message with
     | EmptyString => false
     | String _ rest => mentions name rest
     end.

(** The handlers on the page belong to the current position, and the page
    has the cells [makeBoard] made. *)
Definition synchronized (ui : UI) : Prop :=
  moves ui = getMoves (chessPosition ui) ∧ dom (board ui) = dom makeBoard.

(** What the two [addClass("last-move")] calls may do to a cell: the piece
    nodes stay, and so does every class but [last-move]. *)
Definition keepsPieces (f : Td → Td) : Prop :=
  ∀ td, td_children (f td) = td_children td ∧
        ∀ c, c ≠ "last-move" → c ∈ td_class (f td) ↔ c ∈ td_class td.

End Vocabulary.

(** ** Vocabulary of the further properties *)

Section MoreVocabulary.
Context `{ChessEngine}.

(** The ranks and files [makeBoard] runs through, in its order: rank 7 down
    to rank 0, and file 0 up to file 7 within each rank. *)
Definition boardCoordinates : list (nat * nat) :=
  seq 0 RANKS ≫= λ row, (λ file, (LAST_RANK - row, file)) <$> seq 0 FILES.

(** The ids [makeBoard] gives to the cells, in that order. *)
Definition cellIds : list string :=
  (λ rf, getAlgebraic rf.1 rf.2) <$> boardCoordinates.

(** The engine names every index of the board with the id of some cell. *)
Definition idsCoverIndices : Prop :=
  Forall (λ index, squareId index ∈ cellIds) (seq 0 (RANKS * FILES)).

(** The argument of the [removeClass] of [updatePieces]. *)
Definition PIECE_CLASSES : string :=
  "white black turn last-move " +:+ String.concat " " PIECE_NAMES.

(** The position reports a last move that starts or ends on the cell [s]. *)
Definition lastMoveAt (p : Position) (s : string) : Prop :=
  ∃ lastMove, getLastMove p = Some lastMove ∧
    (squareId (getFrom lastMove) = s ∨ squareId (getTo lastMove) = s).

(** The cell [s] after the two loops of [updatePieces], before the last
    move is marked: emptied, and rendered if [s] is the cell of an index. *)
Definition loopCell (p : Position) (s : string) (td : Td) : Td :=
  match List.find (λ i, bool_decide (squareId i = s)) (seq 0 (RANKS * FILES)) with
  | Some index => squareStep p index (removePieces td)
  | None => removePieces td
  end.

(** A piece name that is an ordinary class name and not [last-move]. *)
Definition pieceClassName (name : string) : Prop :=
  properName name ∧ name ≠ "last-move".

(** Some piece type of the scan has [index] in its bitboard. *)
Definition occupied (p : Position) (index : nat) : bool :=
  existsb (λ piece, isSet (getPieceBitboard p piece) index) pieceScan.

(** What the hover handler makes of the cell [s], when no drag is under way
    and the cell it runs on exists: [mvs] are the captured moves, [sq] and
    [k] the hovered cell and node. *)
Definition hoverCell (mvs : list Move) (sq : string) (k : nat) (s : string) (td : Td) : Td :=
  let from := getIndexFromAlgebraic sq in
  let isFrom := existsb (λ move, (getFrom move =? from)%nat) mvs in
  let here (f : Td → Td) : Td → Td := if decide (sq = s) then f else id in
  let toggled := here (td_mapClassChild k (toggleClass "from" isFrom)) td in
  if isFrom
  then
    here (td_alterChild k makeDraggable)
      (makeDroppable from
        (destroyDroppable (td_mapChildren destroyDraggable
          (td_mapClassAll
            (addClasses
              (tagsFor (λ move, squareId (getTo move)) destinationClasses
                 (λ move, (getFrom move =? from)%nat) mvs s))
            toggled))))
  else toggled.

(** The events of the pointer moving over pieces. *)
Definition isHover (e : Event) : bool :=
  match e with
  | Mouseenter _ _ | Mouseleave _ _ => true
  | _ => false
  end.

(** The cell [s] is the origin of a legal move of [p]. *)
Definition originAt (p : Position) (s : string) : Prop :=
  ∃ move, move ∈ getMoves p ∧ squareId (getFrom move) = s.

(** A cell without drop binding whose piece nodes have neither hover
    handlers nor the draggable widget. *)
Definition unbound (td : Td) : Prop :=
  td_droppable td = None ∧
  Forall (λ d, div_hover d = false ∧ div_draggable d = false) (td_children td).

(** Neither the cell nor one of its piece nodes carries a class that
    [clearMoving] removes. *)
Definition movingFree (td : Td) : Prop :=
  (∀ c, c ∈ classNames MOVING_CLASSES → c ∉ td_class td) ∧
  Forall (λ d, ∀ c, c ∈ classNames MOVING_CLASSES → c ∉ div_class d) (td_children td).

(** No highlight of a hover is on the board. *)
Definition noMovingClass (b : Board) : Prop :=
  ∀ s td, b !! s = Some td → movingFree td.

(** A change of a class attribute that touches only the classes
    [clearMoving] removes. *)
Definition movingOnly (f : gset string → gset string) : Prop :=
  ∀ cs c, c ∉ classNames MOVING_CLASSES → c ∈ f cs ↔ c ∈ cs.

(** [d'] is [d] up to the classes [clearMoving] removes and the draggable
    widget; [td'] is [td] up to those classes, the widgets of its nodes and
    its own drop binding. *)
Definition softNode (d d' : Div) : Prop :=
  div_title d' = div_title d ∧ div_text d' = div_text d ∧ div_hover d' = div_hover d ∧
  ∀ c, c ∉ classNames MOVING_CLASSES → c ∈ div_class d' ↔ c ∈ div_class d.

Definition soft (td td' : Td) : Prop :=
  td_title td' = td_title td ∧
  (∀ c, c ∉ classNames MOVING_CLASSES → c ∈ td_class td' ↔ c ∈ td_class td) ∧
  Forall2 softNode (td_children td) (td_children td').

(** From [ui] to [ui'] the position and the captured moves are the same,
    and every cell differs only in hover highlight and widgets. *)
Definition gentle (ui ui' : UI) : Prop :=
  chessPosition ui' = chessPosition ui ∧ moves ui' = moves ui ∧
  ∀ s, option_Forall2 soft (board ui !! s) (board ui' !! s).

(** Every draggable piece node reacts to the pointer. *)
Definition draggableBound (b : Board) : Prop :=
  ∀ s td d, b !! s = Some td → d ∈ td_children td →
    div_draggable d = true → div_hover d = true.

(** What the user sees of a piece node and of a cell: classes, tooltip,
    text and whether the node reacts to the pointer. *)
Definition nodeLook (d : Div) : gset string * string * string * bool :=
  (div_class d, div_title d, div_text d, div_hover d).

Definition appearance (td : Td)
    : gset string * string * list (gset string * string * string * bool) :=
  (td_class td, td_title td, nodeLook <$> td_children td).

(** The page belongs to the current position: the handlers filter its legal
    moves, the squares with a piece node are those of its piece-type sets,
    and a cell is marked [can-move], and its piece nodes react to the
    pointer, exactly if a legal move starts there. *)
Definition pageCurrent (ui : UI) : Prop :=
  synchronized ui ∧
  pieceSquares (board ui) = typeOccupancy (chessPosition ui) ∧
  ∀ s td, board ui !! s = Some td →
    (hasClass "can-move" (td_class td) = true ↔ originAt (chessPosition ui) s) ∧
    ∀ d, d ∈ td_children td → div_hover d = true ↔ originAt (chessPosition ui) s.

End MoreVocabulary.

(** ** A scripted engine

    An engine whose positions are written out by hand, each with the
    positions its legal moves lead to. It instantiates [ChessEngine] with the
    usual coordinates (index = 8 * rank + file, a1 = 0) and is what the
    examples below run the controller on. *)

Module Scripted.

Record SMove := MkSMove {
  sm_from : nat;
  sm_to : nat;
  sm_kind : nat;
  sm_capture : bool;
  sm_promotion : bool;
  sm_castle : bool
}.

#[global] Instance SMove_eq_dec : EqDecision SMove.
Proof. solve_decision. Defined.

Inductive SPosition := MkSPosition {
  sp_whites : list nat;
  sp_blacks : list nat;
  sp_pieces : list (list nat);
  sp_turn : PieceColor;
  sp_last : option SMove;
  sp_status : Status;
  sp_next : list (SMove * SPosition)
}.

Definition fileChar (file : nat) : ascii := ascii_of_nat (97 + file).
Definition rankChar (rank : nat) : ascii := ascii_of_nat (49 + rank).

Definition algebraic (rank file : nat) : string :=
  String (fileChar file) (String (rankChar rank) EmptyString).

Definition indexOfAlgebraic (s : string) : nat :=
  match s with
  | String f (String r EmptyString) => 8 * (nat_of_ascii r - 49) + (nat_of_ascii f - 97)
  | _ => 0
  end.

Definition pieceCharacter (piece : nat) (color : PieceColor) : string :=
  match color with
  | WHITE => nth piece ["P"; "N"; "B"; "R"; "Q"; "K"] "?"
  | BLACK => nth piece ["p"; "n"; "b"; "r"; "q"; "k"] "?"
  end.

Definition play (p : SPosition) (move : SMove) : SPosition :=
  match List.find (λ entry, bool_decide (entry.1 = move)) (sp_next p) with
  | Some entry => entry.2
  | None => p
  end.

(** A position with every piece but pawns, the white king's knight and
    the black queen on its initial square. *)
Definition arrangement (whitePawns blackPawns : list nat) (whiteKnight blackQueen : nat)
    (turn : PieceColor) (last : option SMove) (status : Status)
    (next : list (SMove * SPosition)) : SPosition :=
  MkSPosition
    ([0; 1; 2; 3; 4; 5; whiteKnight; 7] ++ whitePawns)
    ([56; 57; 58; blackQueen; 60; 61; 62; 63] ++ blackPawns)
    [ whitePawns ++ blackPawns;
      [1; whiteKnight; 57; 62]; [2; 5; 58; 61]; [0; 7; 56; 63];
      [3; blackQueen]; [4; 60] ]
    turn last status next.

Definition pawnE3 : SMove := MkSMove 12 20 0 false false false.
Definition pawnE4 : SMove := MkSMove 12 28 1 false false false.
Definition knightF3 : SMove := MkSMove 6 21 0 false false false.
Definition pawnF3 : SMove := MkSMove 13 21 0 false false false.
Definition pawnE5 : SMove := MkSMove 52 36 1 false false false.
Definition pawnG4 : SMove := MkSMove 14 30 1 false false false.
Definition queenH4 : SMove := MkSMove 59 31 0 false false false.
Definition pawnA6 : SMove := MkSMove 48 40 0 false false false.

(** 1.f3 e5 2.g4 Qh4#: the position after the mate, White to move. *)
Definition mated : SPosition :=
  arrangement [8; 9; 10; 11; 12; 21; 30; 15] [48; 49; 50; 51; 36; 53; 54; 55] 6 31
    WHITE (Some queenH4) CHECKMATE [].

(** The position before the mate, Black to move: the queen may go to h4. *)
Definition beforeMate : SPosition :=
  arrangement [8; 9; 10; 11; 12; 21; 30; 15] [48; 49; 50; 51; 36; 53; 54; 55] 6 59
    BLACK (Some pawnG4) NORMAL
    [ (queenH4, mated);
      (pawnA6,
       arrangement [8; 9; 10; 11; 12; 21; 30; 15] [40; 49; 50; 51; 36; 53; 54; 55] 6 59
         WHITE (Some pawnA6) NORMAL []) ].

Definition afterE5 : SPosition :=
  arrangement [8; 9; 10; 11; 12; 21; 14; 15] [48; 49; 50; 51; 36; 53; 54; 55] 6 59
    WHITE (Some pawnE5) NORMAL [ (pawnG4, beforeMate) ].

Definition afterF3 : SPosition :=
  arrangement [8; 9; 10; 11; 12; 21; 14; 15] [48; 49; 50; 51; 52; 53; 54; 55] 6 59
    BLACK (Some pawnF3) NORMAL [ (pawnE5, afterE5) ].

(** The initial arrangement, White to move, with four of its moves; the
    line 1.f3 e5 2.g4 Qh4# is scripted to the end. *)
Definition start : SPosition :=
  arrangement [8; 9; 10; 11; 12; 13; 14; 15] [48; 49; 50; 51; 52; 53; 54; 55] 6 59
    WHITE None NORMAL
    [ (pawnE3,
       arrangement [8; 9; 10; 11; 20; 13; 14; 15] [48; 49; 50; 51; 52; 53; 54; 55] 6 59
         BLACK (Some pawnE3) NORMAL []);
      (pawnE4,
       arrangement [8; 9; 10; 11; 28; 13; 14; 15] [48; 49; 50; 51; 52; 53; 54; 55] 6 59
         BLACK (Some pawnE4) NORMAL []);
      (knightF3,
       arrangement [8; 9; 10; 11; 12; 13; 14; 15] [48; 49; 50; 51; 52; 53; 54; 55] 21 59
         BLACK (Some knightF3) NORMAL []);
      (pawnF3, afterF3) ].

Definition promoteCapture (kind : nat) : SMove := MkSMove 49 56 kind true true false.
Definition promotePush (kind : nat) : SMove := MkSMove 49 57 kind false true false.

Definition afterPromotion (move : SMove) (piece : nat) : SPosition :=
  MkSPosition
    [4; sm_to move] [60]
    [ []; if decide (piece = 1) then [sm_to move] else [];
      if decide (piece = 2) then [sm_to move] else [];
      if decide (piece = 3) then [sm_to move] else [];
      if decide (piece = 4) then [sm_to move] else []; [4; 60] ]
    BLACK (Some move) NORMAL [].

(** White king e1 and pawn b7, Black king e8 and rook a8, White to move:
    the pawn promotes on b8 or, capturing, on a8, to any of four pieces. *)
Definition promoting : SPosition :=
  MkSPosition
    [4; 49] [60; 56]
    [ [49]; []; []; [56]; []; [4; 60] ]
    WHITE None NORMAL
    [ (promoteCapture 15, afterPromotion (promoteCapture 15) 4);
      (promoteCapture 14, afterPromotion (promoteCapture 14) 3);
      (promoteCapture 13, afterPromotion (promoteCapture 13) 2);
      (promoteCapture 12, afterPromotion (promoteCapture 12) 1);
      (promotePush 11, afterPromotion (promotePush 11) 4);
      (promotePush 10, afterPromotion (promotePush 10) 3);
      (promotePush 9, afterPromotion (promotePush 9) 2);
      (promotePush 8, afterPromotion (promotePush 8) 1) ].

(** Occupancy sets that disagree: a2 is in the pawn and the knight sets but
    in no colour set, d1 is in the white set but in no piece-type set. *)
Definition inconsistent : SPosition :=
  MkSPosition
    [3] []
    [ [8]; [8]; []; []; []; [] ]
    WHITE None NORMAL [].

(** The two kings alone: a draw. *)
Definition drawn : SPosition :=
  MkSPosition
    [4] [60]
    [ []; []; []; []; []; [4; 60] ]
    WHITE None DRAW [].

Definition rookB8 : SMove := MkSMove 56 57 0 false false false.

(** White king e1, rook a8 and pawn b7, Black king h7, White to move: the
    pawn promotes on b8, and the rook may go to b8 as well. *)
Definition crowded : SPosition :=
  MkSPosition
    [4; 49; 56] [55]
    [ [49]; []; []; [56]; []; [4; 55] ]
    WHITE None NORMAL
    [ (promotePush 11,
       MkSPosition [4; 57; 56] [55] [ []; []; []; [56]; [57]; [4; 55] ]
         BLACK (Some (promotePush 11)) NORMAL []);
      (rookB8,
       MkSPosition [4; 49; 57] [55] [ [49]; []; []; [57]; []; [4; 55] ]
         BLACK (Some rookB8) NORMAL []) ].

#[global] Instance engine : ChessEngine := {|
  Position := SPosition;
  Move := SMove;
  Bitboard := list nat;
  Kind := nat;
  PAWN := 0;
  KING := 5;
  PIECE_NAMES := ["pawn"; "knight"; "bishop"; "rook"; "queen"; "king"];
  POSITIONAL := 0;
  DOUBLE_PAWN_PUSH := 1;
  EN_PASSANT_CAPTURE := 5;
  KING_CASTLE := 2;
  QUEEN_CASTLE := 3;
  getPieceCharacter := pieceCharacter;
  isLight := λ rank file, Nat.odd (rank + file);
  getIndex := λ rank file, 8 * rank + file;
  getAlgebraic := algebraic;
  getAlgebraicFromIndex := λ index, algebraic (index / 8) (index mod 8);
  getIndexFromAlgebraic := indexOfAlgebraic;
  isSet := λ bitboard index, bool_decide (index ∈ bitboard);
  getFrom := sm_from;
  getTo := sm_to;
  getKind := sm_kind;
  isCapture := sm_capture;
  isPromotion := sm_promotion;
  isCastle := sm_castle;
  newPosition := start;
  getColorBitboard := λ p color,
    match color with WHITE => sp_whites p | BLACK => sp_blacks p end;
  getPieceBitboard := λ p piece, nth piece (sp_pieces p) [];
  getTurnColor := sp_turn;
  getLastMove := sp_last;
  getMoves := λ p, (sp_next p).*1;
  getStatus := sp_status;
  makeMove := play
|}.

(** The page once [makeBoard] has run, holding position [p], not yet
    synchronized. *)
Definition holding (p : SPosition) : UI := MkUI p makeBoard [] false false [].

(** The same page, synchronized with [p]. *)
Definition showing (p : SPosition) : UI := resynchronize (holding p).

Definition cellAt (ui : UI) (sq : string) : Td :=
  default (MkTd ∅ "" [] None) (board ui !! sq).

Definition pieceAt (ui : UI) (sq : string) : Div :=
  default (MkDiv ∅ "" "" false false) (head (td_children (cellAt ui sq))).

Definition classesAt (ui : UI) (sq : string) : list string :=
  elements (td_class (cellAt ui sq)).

(** The page after [makeChessGame]. *)
Definition opened : UI := finalUI (makeChessGame []).

Definition after (events : list Event) : UI := default opened (run events opened).

(** 1.f3 e5 2.g4 played on the board, then the black queen hovered: h4 is
    droppable. *)
Definition foolsMate : list Event :=
  [ Mouseenter "f2" 0; Dropped "f3" [];
    Mouseenter "e7" 0; Dropped "e5" [];
    Mouseenter "g2" 0; Dropped "g4" [];
    Mouseenter "d8" 0 ].

Definition aboutToMate : UI := after foolsMate.

(** The pawn on b7 is hovered: a8 and b8 are droppable, four promotions
    lead to each. *)
Definition aboutToPromote : UI := mouseenter "b7" 0 (showing promoting).

(** The pawn on e2 is hovered and dragged, the drag ends without a drop,
    and the knight on g1 is hovered next: the stale [to] of e4 makes e4
    droppable for the knight, which has no move there. *)
Definition staleDrag : list Event :=
  [ Mouseenter "e2" 0; Dragstart "e2" 0; Dragstop; Mouseenter "g1" 0 ].

Definition staleTarget : UI := after staleDrag.


(** On the page synchronized with [crowded], the pawn on b7 is hovered and
    dragged, the pointer leaves it during the drag, and the drag ends
    without a drop: the highlight of the pawn's move is still on b8. *)
Definition cancelledDrag : UI :=
  default (showing crowded)
    (run [Mouseenter "b7" 0; Dragstart "b7" 0; Mouseleave "b7" 0; Dragstop]
       (showing crowded)).

End Scripted.

(** Closes a decidable closed goal by evaluation. *)
Ltac by_evaluation :=
  match goal with
  | |- ?P => apply (@bool_decide_unpack P _); vm_compute; exact I
  end.

(** Closes a goal from a hypothesis that a closed class list contains a
    class it does not contain. *)
Ltac impossible_class Hc :=
  exfalso; revert Hc;
  match goal with
  | |- ?P → False => change (¬ P); by_evaluation
  end.

(** ** Facts about class attributes *)

Section CssFacts.
Implicit Types (c s : string) (cs : gset string).

Lemma elem_of_addClass c s cs :
  c ∈ addClass s cs ↔ c ∈ cs ∨ c ∈ classNames s.
Proof. unfold addClass. set_solver. Qed.

Lemma elem_of_removeClass c s cs :
  c ∈ removeClass s cs ↔ c ∈ cs ∧ c ∉ classNames s.
Proof. unfold removeClass. set_solver. Qed.

Lemma elem_of_toggleClass c s state cs :
  c ∈ toggleClass s state cs ↔
  (c ∈ cs ∧ c ∉ classNames s) ∨ (state = true ∧ (c ∈ cs ∨ c ∈ classNames s)).
Proof.
  destruct state; simpl.
  - rewrite elem_of_addClass. destruct (decide (c ∈ classNames s)); naive_solver.
  - rewrite elem_of_removeClass. naive_solver.
Qed.

Lemma hasClass_true c cs : hasClass c cs = true ↔ c ∈ cs.
Proof. unfold hasClass. apply bool_decide_eq_true. Qed.

Lemma hasClass_false c cs : hasClass c cs = false ↔ c ∉ cs.
Proof. unfold hasClass. apply bool_decide_eq_false. Qed.

Lemma hasClass_toggle_same c state cs :
  classNames c = [c] → hasClass c (toggleClass c state cs) = state.
Proof.
  intros Hc. destruct state.
  - apply hasClass_true, elem_of_toggleClass. rewrite Hc. set_solver.
  - apply hasClass_false. rewrite elem_of_toggleClass, Hc. set_solver.
Qed.

Lemma hasClass_toggle_other c c' state cs :
  c ∉ classNames c' → hasClass c (toggleClass c' state cs) = hasClass c cs.
Proof.
  intros Hc. unfold hasClass. apply bool_decide_ext.
  rewrite elem_of_toggleClass. naive_solver.
Qed.

End CssFacts.

(** ** Synchronizing the pieces *)

Section PieceSync.
Context `{ChessEngine}.
Implicit Types (p : Position) (b : Board) (ui : UI) (td : Td) (d : Div).

Lemma squareId_inj i j :
  coordinatesAgree → i < RANKS * FILES → j < RANKS * FILES →
  squareId i = squareId j → i = j.
Proof.
  intros Hc Hi Hj Heq. unfold squareId in Heq.
  rewrite <- (Hc i Hi), <- (Hc j Hj). by rewrite Heq.
Qed.

Lemma elem_of_pieceScan piece : piece ∈ pieceScan ↔ PAWN ≤ piece ≤ KING.
Proof. unfold pieceScan. rewrite elem_of_seq. lia. Qed.

Lemma find_seq_first (f : nat → bool) start len piece :
  List.find f (seq start len) = Some piece ↔
  (start ≤ piece < start + len ∧ f piece = true ∧
   ∀ earlier, start ≤ earlier < piece → f earlier = false).
Proof.
  revert start. induction len as [|len IH]; intros start; simpl.
  - split; [done | lia].
  - destruct (f start) eqn:Hf.
    + split.
      * intros [= <-]. repeat split; [lia | lia | done | lia].
      * intros (Hr & Hp & Hfirst). f_equal.
        destruct (decide (start = piece)) as [|Hne]; [done |].
        rewrite Hfirst in Hf by lia. done.
    + rewrite IH. split.
      * intros (Hr & Hp & Hfirst). repeat split; [lia | lia | done |].
        intros e He. destruct (decide (e = start)) as [-> |]; [done |].
        apply Hfirst. lia.
      * intros (Hr & Hp & Hfirst).
        assert (start ≠ piece) by (intros ->; congruence).
        repeat split; [lia | lia | done |]. intros e He. apply Hfirst. lia.
Qed.

Lemma find_seq_none (f : nat → bool) start len :
  List.find f (seq start len) = None ↔
  ∀ x, start ≤ x < start + len → f x = false.
Proof.
  revert start. induction len as [|len IH]; intros start; simpl.
  - split; [lia | done].
  - destruct (f start) eqn:Hf.
    + split; [done |]. intros Hall. rewrite Hall in Hf by lia. done.
    + rewrite IH. split.
      * intros Hall x Hx. destruct (decide (x = start)) as [-> |]; [done |].
        apply Hall. lia.
      * intros Hall x Hx. apply Hall. lia.
Qed.

Lemma find_firstPieceAt p index piece :
  List.find (λ q, isSet (getPieceBitboard p q) index) pieceScan = Some piece ↔
  firstPieceAt p index piece.
Proof.
  unfold pieceScan, firstPieceAt. rewrite find_seq_first.
  split; intros (Hr & Hp & Hfirst); repeat split; try done; lia.
Qed.

Lemma find_noPieceAt p index :
  List.find (λ q, isSet (getPieceBitboard p q) index) pieceScan = None ↔
  noPieceAt p index.
Proof.
  unfold pieceScan, noPieceAt. rewrite find_seq_none.
  split; intros Hall x Hx; apply Hall; lia.
Qed.

Lemma updateSquare_alter p b index :
  updateSquare p b index = alter (squareStep p index) (squareId index) b.
Proof.
  unfold updateSquare, squareStep.
  destruct (List.find _ pieceScan); [done |].
  apply map_eq. intros s. rewrite lookup_alter. case_decide; [subst s|done].
  by destruct (b !! _).
Qed.

(** The outer loop touches the cell [s] at most once: at the index it is the
    cell of. *)
Lemma foldl_updateSquare_lookup p l b s :
  NoDup l →
  (∀ i j, i ∈ l → j ∈ l → squareId i = squareId j → i = j) →
  foldl (updateSquare p) b l !! s =
    match List.find (λ i, bool_decide (squareId i = s)) l with
    | Some i => squareStep p i <$> b !! s
    | None => b !! s
    end.
Proof.
  intros Hnd. revert b. induction Hnd as [|i l Hi Hnd IH]; intros b Hinj; simpl.
  - done.
  - rewrite IH by (intros ????; apply Hinj; set_solver).
    rewrite updateSquare_alter, lookup_alter.
    destruct (decide (squareId i = s)) as [Heq|Hne].
    + rewrite bool_decide_eq_true_2 by done.
      destruct (List.find _ l) as [j|] eqn:Hfind; [|by subst s].
      apply find_some in Hfind as [Hj Hsj%bool_decide_eq_true].
      apply list_elem_of_In in Hj.
      assert (i = j) by (apply Hinj; [set_solver | set_solver | congruence]).
      set_solver.
    + by rewrite bool_decide_eq_false_2 by done.
Qed.


Lemma find_squareId index :
  coordinatesAgree → index < RANKS * FILES →
  List.find (λ i, bool_decide (squareId i = squareId index)) (seq 0 (RANKS * FILES))
  = Some index.
Proof.
  intros Hc Hi. apply find_seq_first. repeat split; [lia | lia | |].
  - by apply bool_decide_eq_true_2.
  - intros e He. apply bool_decide_eq_false_2. intros Heq.
    apply squareId_inj in Heq; [lia | done | lia | done].
Qed.

Lemma keepsPieces_id : keepsPieces id.
Proof. by intros td. Qed.

Lemma keepsPieces_lastMove : keepsPieces (td_mapClass (addClass "last-move")).
Proof.
  intros td. split; [done |]. intros c Hc. simpl.
  rewrite elem_of_addClass. change (classNames "last-move") with ["last-move"].
  set_solver.
Qed.

Lemma keepsPieces_compose f g : keepsPieces f → keepsPieces g → keepsPieces (f ∘ g).
Proof.
  intros Hf Hg td. destruct (Hf (g td)) as [Hf1 Hf2], (Hg td) as [Hg1 Hg2].
  split; simpl; [congruence |]. intros c Hc. by rewrite Hf2, Hg2.
Qed.

Lemma markLastMove_lookup p b s :
  ∃ f, keepsPieces f ∧ markLastMove p b !! s = f <$> b !! s.
Proof.
  unfold markLastMove. destruct (getLastMove p) as [m|].
  - rewrite !lookup_alter.
    destruct (decide (squareId (getTo m) = s)) as [<- |Hto];
      destruct (decide (squareId (getFrom m) = _)) as [Hfrom|Hfrom].
    + exists (td_mapClass (addClass "last-move") ∘ td_mapClass (addClass "last-move")).
      split; [by apply keepsPieces_compose; apply keepsPieces_lastMove |].
      rewrite Hfrom. by destruct (b !! _).
    + exists (td_mapClass (addClass "last-move")). by split; [apply keepsPieces_lastMove |].
    + exists (td_mapClass (addClass "last-move")).
      split; [apply keepsPieces_lastMove | by rewrite Hfrom].
    + exists id. split; [apply keepsPieces_id | by destruct (b !! s)].
  - exists id. split; [apply keepsPieces_id | by destruct (b !! s)].
Qed.

Lemma updatePiecesBoard_lookup p b s :
  coordinatesAgree →
  ∃ f, keepsPieces f ∧
    updatePiecesBoard p b !! s =
      match List.find (λ i, bool_decide (squareId i = s)) (seq 0 (RANKS * FILES)) with
      | Some i => (λ td, f (squareStep p i (removePieces td))) <$> b !! s
      | None => (λ td, f (removePieces td)) <$> b !! s
      end.
Proof.
  intros Hc. unfold updatePiecesBoard.
  destruct (markLastMove_lookup p
    (foldl (updateSquare p) (removePieces <$> b) (seq 0 (RANKS * FILES))) s)
    as (f & Hf & ->).
  exists f. split; [done |].
  rewrite foldl_updateSquare_lookup.
  - rewrite lookup_fmap. destruct (List.find _ _); by destruct (b !! s).
  - apply NoDup_seq.
  - intros i j Hi%elem_of_seq Hj%elem_of_seq. apply squareId_inj; [done | lia | lia].
Qed.

Lemma squareStep_children p index td :
  td_children (squareStep p index (removePieces td)) =
    match List.find (λ piece, isSet (getPieceBitboard p piece) index) pieceScan with
    | Some piece => [pieceDiv p index piece td]
    | None => []
    end.
Proof. unfold squareStep. by destruct (List.find _ pieceScan). Qed.

(** The cell of [index] after [updatePieces]: one turn of the outer loop on
    the emptied cell, then possibly [last-move]. *)
Lemma updatePieces_cell ui index td :
  coordinatesAgree → index < RANKS * FILES →
  board ui !! squareId index = Some td →
  ∃ f, keepsPieces f ∧
    board (updatePieces ui) !! squareId index
    = Some (f (squareStep (chessPosition ui) index (removePieces td))).
Proof.
  intros Hc Hi Htd. simpl.
  destruct (updatePiecesBoard_lookup (chessPosition ui) (board ui) (squareId index) Hc)
    as (f & Hf & Hlook).
  rewrite find_squareId, Htd in Hlook by done. by exists f.
Qed.

Lemma updatePieces_children ui index td :
  coordinatesAgree → index < RANKS * FILES →
  board ui !! squareId index = Some td →
  ∃ td', board (updatePieces ui) !! squareId index = Some td' ∧
    td_children td' =
      match List.find (λ piece, isSet (getPieceBitboard (chessPosition ui) piece) index)
              pieceScan with
      | Some piece => [pieceDiv (chessPosition ui) index piece td]
      | None => []
      end.
Proof.
  intros Hc Hi Htd.
  destruct (updatePieces_cell ui index td Hc Hi Htd) as (f & Hf & Hlook).
  eexists. split; [exact Hlook |].
  destruct (Hf (squareStep (chessPosition ui) index (removePieces td))) as [-> _].
  apply squareStep_children.
Qed.

Lemma isTurn_eq p index :
  (if decide (getTurnColor p = WHITE)
   then isSet (getColorBitboard p WHITE) index
   else isSet (getColorBitboard p BLACK) index)
  = isSet (getColorBitboard p (getTurnColor p)) index.
Proof. by destruct (getTurnColor p). Qed.

Lemma pieceClasses_fresh p index piece name :
  pieceName piece = Some name → properName name →
  pieceClasses p index piece ∅ = expectedTags p index name.
Proof.
  intros Hname [Htok Hne]. unfold pieceClasses, expectedTags.
  rewrite isTurn_eq, Hname. simpl.
  apply set_eq. intros c.
  rewrite !elem_of_toggleClass, elem_of_addClass, Htok.
  change (classNames "turn") with ["turn"].
  change (classNames "black") with ["black"].
  change (classNames "white") with ["white"].
  unfold tagIf.
  destruct (isSet (getColorBitboard p WHITE) index),
           (isSet (getColorBitboard p BLACK) index),
           (isSet (getColorBitboard p (getTurnColor p)) index);
    set_solver.
Qed.

End PieceSync.

(** ** What [updatePieces] renders *)

Section PieceSyncTheorems.
Context `{ChessEngine}.
Implicit Types (p : Position) (b : Board) (ui : UI) (td : Td) (d : Div).

Lemma pieceClasses_white p index piece cs :
  hasClass "white" (pieceClasses p index piece cs)
  = isSet (getColorBitboard p WHITE) index.
Proof.
  unfold pieceClasses.
  rewrite (hasClass_toggle_other "white" "turn"), (hasClass_toggle_other "white" "black")
    by by_evaluation.
  by apply hasClass_toggle_same.
Qed.

Lemma pieceClasses_black p index piece cs :
  hasClass "black" (pieceClasses p index piece cs)
  = isSet (getColorBitboard p BLACK) index.
Proof.
  unfold pieceClasses.
  rewrite (hasClass_toggle_other "black" "turn") by by_evaluation.
  by apply hasClass_toggle_same.
Qed.

Lemma pieceClasses_turn p index piece cs :
  hasClass "turn" (pieceClasses p index piece cs)
  = isSet (getColorBitboard p (getTurnColor p)) index.
Proof.
  unfold pieceClasses. rewrite isTurn_eq. by apply hasClass_toggle_same.
Qed.

Lemma firstPieceAt_exists p index piece :
  PAWN ≤ piece ≤ KING → isSet (getPieceBitboard p piece) index = true →
  ∃ first, firstPieceAt p index first.
Proof.
  intros Hr Hset.
  destruct (List.find (λ q, isSet (getPieceBitboard p q) index) pieceScan)
    as [first|] eqn:Hfind.
  - exists first. by apply find_firstPieceAt.
  - apply find_noPieceAt in Hfind. rewrite (Hfind piece Hr) in Hset. done.
Qed.

(** C4: on every square index of the board, [updatePieces] scans the piece
    types from [PAWN] to [KING] and renders a single piece node for the first
    type whose occupancy set contains the index (none when no type does); the
    node is tagged with that type's name, with [white] and [black] according
    to the colour occupancy sets containing the index, and with [turn] exactly
    when the set of the side to move contains it. *)
Theorem updatePieces_renders_first_type ui index td :
  coordinatesAgree → index < RANKS * FILES →
  board ui !! squareId index = Some td →
  ∃ td', board (updatePieces ui) !! squareId index = Some td' ∧
    (noPieceAt (chessPosition ui) index → td_children td' = []) ∧
    (∀ piece, firstPieceAt (chessPosition ui) index piece →
       ∃ d, td_children td' = [d] ∧
         ∀ name, pieceName piece = Some name → properName name →
           div_class d = expectedTags (chessPosition ui) index name).
Proof.
  intros Hc Hi Htd.
  destruct (updatePieces_children ui index td Hc Hi Htd) as (td' & Hlook & Hch).
  exists td'. split; [done |]. split.
  - intros Hnone%find_noPieceAt. by rewrite Hch, Hnone.
  - intros piece Hfirst%find_firstPieceAt. rewrite Hch, Hfirst.
    eexists. split; [done |]. intros name Hname Hproper.
    by apply pieceClasses_fresh.
Qed.

(** C9: a square that is in some piece-type occupancy set but not in the
    white occupancy set gets a piece node with the black piece character; if
    it is in neither colour set, the node still shows the black character and
    carries neither the [white] nor the [black] class. *)
Theorem updatePieces_black_unless_white ui index td piece :
  coordinatesAgree → index < RANKS * FILES →
  board ui !! squareId index = Some td →
  PAWN ≤ piece ≤ KING →
  isSet (getPieceBitboard (chessPosition ui) piece) index = true →
  isSet (getColorBitboard (chessPosition ui) WHITE) index = false →
  ∃ td' d first,
    board (updatePieces ui) !! squareId index = Some td' ∧
    td_children td' = [d] ∧
    firstPieceAt (chessPosition ui) index first ∧
    div_text d = getPieceCharacter first BLACK ∧
    hasClass "white" (div_class d) = false ∧
    (isSet (getColorBitboard (chessPosition ui) BLACK) index = false →
       hasClass "black" (div_class d) = false).
Proof.
  intros Hc Hi Htd Hr Hset Hwhite.
  destruct (firstPieceAt_exists _ _ _ Hr Hset) as [first Hfirst].
  destruct (updatePieces_children ui index td Hc Hi Htd) as (td' & Hlook & Hch).
  apply find_firstPieceAt in Hfirst as Hfind. rewrite Hfind in Hch.
  exists td', (pieceDiv (chessPosition ui) index first td), first.
  do 3 (split; [done |]). split; [|split].
  - simpl. by rewrite Hwhite.
  - simpl. by rewrite pieceClasses_white.
  - intros Hblack. simpl. by rewrite pieceClasses_black.
Qed.

(** C10: whatever the occupancy sets say, also when several piece-type sets
    contain the same index, after [updatePieces] every cell of the board
    holds at most one piece node, and a node that is there is the one made
    for the first type of the scan whose set contains the index of the cell,
    tagged with the name of that type. *)
Theorem updatePieces_at_most_one_node ui s td' :
  coordinatesAgree →
  board (updatePieces ui) !! s = Some td' →
  length (td_children td') ≤ 1 ∧
  ∀ d, d ∈ td_children td' →
    ∃ index first td,
      index < RANKS * FILES ∧ s = squareId index ∧ board ui !! s = Some td ∧
      firstPieceAt (chessPosition ui) index first ∧
      d = pieceDiv (chessPosition ui) index first td ∧
      ∀ name, pieceName first = Some name → properName name →
        div_class d = expectedTags (chessPosition ui) index name.
Proof.
  intros Hc Hlook. simpl in Hlook.
  destruct (updatePiecesBoard_lookup (chessPosition ui) (board ui) s Hc)
    as (f & Hf & Heq).
  rewrite Heq in Hlook. clear Heq.
  destruct (List.find _ (seq 0 _)) as [index|] eqn:Hfind.
  - apply find_seq_first in Hfind as (Hr & Hs%bool_decide_eq_true & _).
    destruct (board ui !! s) as [td|] eqn:Htd; [|done].
    injection Hlook as <-.
    destruct (Hf (squareStep (chessPosition ui) index (removePieces td))) as [-> _].
    rewrite squareStep_children.
    destruct (List.find _ pieceScan) as [first|] eqn:Hfirst.
    + split; [simpl; lia |]. intros d ->%list_elem_of_singleton.
      exists index, first, td. apply find_firstPieceAt in Hfirst.
      split; [lia |]. do 4 (split; [done |]).
      intros name Hname Hproper. by apply pieceClasses_fresh.
    + split; [simpl; lia |]. by intros d ?%elem_of_nil.
  - destruct (board ui !! s) as [td|]; [|done]. injection Hlook as <-.
    destruct (Hf (removePieces td)) as [-> _]. simpl.
    split; [lia |]. by intros d ?%elem_of_nil.
Qed.


(** [boardBuilt] can be checked by running through the indices. *)
Lemma boardBuilt_checked b : boardBuiltb b = true → boardBuilt b.
Proof.
  unfold boardBuiltb. intros Hall index Hindex. rewrite forallb_forall in Hall.
  eapply bool_decide_eq_true, Hall, list_elem_of_In, elem_of_seq. lia.
Qed.

Lemma elem_of_occupancy (bitboard : Bitboard) index :
  index ∈ occupancy bitboard ↔ index < RANKS * FILES ∧ isSet bitboard index = true.
Proof.
  unfold occupancy. rewrite elem_of_list_to_set, list_elem_of_In, filter_In.
  rewrite <- list_elem_of_In, elem_of_seq. intuition lia.
Qed.

Lemma elem_of_pieceSquares b index :
  index ∈ pieceSquares b ↔ index < RANKS * FILES ∧ holdsPiece b index = true.
Proof.
  unfold pieceSquares. rewrite elem_of_list_to_set, list_elem_of_In, filter_In.
  rewrite <- list_elem_of_In, elem_of_seq. intuition lia.
Qed.

Lemma elem_of_typeOccupancy p index :
  index ∈ typeOccupancy p ↔
  index < RANKS * FILES ∧
  ∃ piece, PAWN ≤ piece ≤ KING ∧ isSet (getPieceBitboard p piece) index = true.
Proof.
  unfold typeOccupancy. rewrite elem_of_union_list. split.
  - intros (X & HX & Hin). apply list_elem_of_fmap in HX as (piece & -> & Hpiece).
    apply elem_of_occupancy in Hin as [Hi Hset]. apply elem_of_pieceScan in Hpiece.
    eauto.
  - intros (Hi & piece & Hpiece & Hset).
    exists (occupancy (getPieceBitboard p piece)). split.
    + apply list_elem_of_fmap. exists piece. by rewrite elem_of_pieceScan.
    + by apply elem_of_occupancy.
Qed.

(** The squares that hold a piece node after [updatePieces] are those of the
    piece-type occupancy sets. *)
Lemma updatePieces_pieceSquares ui :
  coordinatesAgree → boardBuilt (board ui) →
  pieceSquares (board (updatePieces ui)) = typeOccupancy (chessPosition ui).
Proof.
  intros Hc Hb. apply set_eq. intros index.
  rewrite elem_of_pieceSquares, elem_of_typeOccupancy.
  split; intros [Hi Hrest]; (split; [done |]).
  - destruct (Hb index Hi) as [td Htd].
    destruct (updatePieces_children ui index td Hc Hi Htd) as (td' & Hlook & Hch).
    unfold holdsPiece in Hrest. rewrite Hlook in Hrest. simpl in Hrest.
    apply bool_decide_eq_true in Hrest. rewrite Hch in Hrest.
    destruct (List.find _ pieceScan) as [piece|] eqn:Hfind; [|done].
    apply find_firstPieceAt in Hfind as (Hr & Hset & _). eauto.
  - destruct Hrest as (piece & Hr & Hset).
    destruct (firstPieceAt_exists _ _ _ Hr Hset) as [first Hfirst%find_firstPieceAt].
    destruct (Hb index Hi) as [td Htd].
    destruct (updatePieces_children ui index td Hc Hi Htd) as (td' & Hlook & Hch).
    unfold holdsPiece. rewrite Hlook. simpl. apply bool_decide_eq_true.
    by rewrite Hch, Hfirst.
Qed.

(** C3 (amended): for every position whose piece-type occupancy sets cover
    exactly the squares of the two colour occupancy sets, after
    [updatePieces] the squares holding a piece node are exactly the union of
    the two colour sets (in general: the union of the piece-type sets), no
    square holds more than one node, and every node carries [white],
    [black] and [turn] as the colour sets and the side to move say, and the
    name of the first piece type of the scan whose set contains its square. *)
Theorem updatePieces_piece_squares ui :
  coordinatesAgree → boardBuilt (board ui) →
  typeOccupancy (chessPosition ui) = colourOccupancy (chessPosition ui) →
  pieceSquares (board (updatePieces ui)) = typeOccupancy (chessPosition ui) ∧
  pieceSquares (board (updatePieces ui)) = colourOccupancy (chessPosition ui) ∧
  ∀ index td', index < RANKS * FILES →
    board (updatePieces ui) !! squareId index = Some td' →
    length (td_children td') ≤ 1 ∧
    ∀ d, d ∈ td_children td' →
      hasClass "white" (div_class d)
        = isSet (getColorBitboard (chessPosition ui) WHITE) index ∧
      hasClass "black" (div_class d)
        = isSet (getColorBitboard (chessPosition ui) BLACK) index ∧
      hasClass "turn" (div_class d)
        = isSet (getColorBitboard (chessPosition ui)
                   (getTurnColor (chessPosition ui))) index ∧
      ∃ first, firstPieceAt (chessPosition ui) index first ∧
        ∀ name, pieceName first = Some name → properName name →
          div_class d = expectedTags (chessPosition ui) index name.
Proof.
  intros Hc Hb Hsame.
  pose proof (updatePieces_pieceSquares ui Hc Hb) as Hsquares.
  split; [done |]. split; [congruence |].
  intros index td' Hi Hlook.
  destruct (Hb index Hi) as [td Htd].
  destruct (updatePieces_children ui index td Hc Hi Htd) as (td'' & Hlook' & Hch).
  assert (td'' = td') as -> by congruence.
  rewrite Hch. destruct (List.find _ pieceScan) as [first|] eqn:Hfind.
  - split; [simpl; lia |]. intros d ->%list_elem_of_singleton. simpl.
    rewrite pieceClasses_white, pieceClasses_black, pieceClasses_turn.
    do 3 (split; [done |]). exists first. split; [by apply find_firstPieceAt |].
    intros name Hname Hproper. by apply pieceClasses_fresh.
  - split; [simpl; lia |]. by intros d ?%elem_of_nil.
Qed.

End PieceSyncTheorems.

(** ** The piece theorems on the scripted engine *)

Module PieceExamples.
Import Scripted.

Lemma scripted_coordinates : @coordinatesAgree engine.
Proof.
  intros index Hindex. unfold RANKS, FILES in Hindex.
  do 64 (destruct index as [|index]; [reflexivity |]). lia.
Qed.

Lemma scripted_names piece :
  PAWN ≤ piece ≤ KING → ∃ name, pieceName piece = Some name ∧ properName name.
Proof.
  simpl. intros Hpiece.
  do 6 (destruct piece as [|piece];
        [eexists; split; [reflexivity |]; split; [reflexivity | by_evaluation] |]).
  lia.
Qed.

(** The initial arrangement: the cell e2 gets one node, a white pawn of the
    side to move. *)
Lemma updatePieces_renders_first_type_witness :
  ∃ td', board (updatePieces (showing start)) !! "e2" = Some td' ∧
    (noPieceAt start 12 → td_children td' = []) ∧
    (∀ piece, firstPieceAt start 12 piece →
       ∃ d, td_children td' = [d] ∧
         ∀ name, pieceName piece = Some name → properName name →
           div_class d = expectedTags start 12 name).
Proof.
  apply (updatePieces_renders_first_type (showing start) 12 (cellAt (showing start) "e2")).
  - exact scripted_coordinates.
  - vm_compute. lia.
  - reflexivity.
Defined.

(** The inconsistent position: a2 is a pawn square of no colour; its node
    shows the black pawn and is neither [white] nor [black]. *)
Lemma updatePieces_black_unless_white_witness :
  ∃ td' d first,
    board (updatePieces (showing inconsistent)) !! "a2" = Some td' ∧
    td_children td' = [d] ∧
    firstPieceAt inconsistent 8 first ∧
    div_text d = getPieceCharacter first BLACK ∧
    hasClass "white" (div_class d) = false ∧
    (isSet (getColorBitboard inconsistent BLACK) 8 = false →
       hasClass "black" (div_class d) = false).
Proof.
  apply (updatePieces_black_unless_white (showing inconsistent) 8
           (cellAt (showing inconsistent) "a2") 1).
  - exact scripted_coordinates.
  - vm_compute. lia.
  - reflexivity.
  - vm_compute. lia.
  - reflexivity.
  - reflexivity.
Defined.

(** The inconsistent position again: a2 is in the pawn and in the knight
    set, and its cell holds one node. *)
Lemma updatePieces_at_most_one_node_witness :
  length (td_children (cellAt (updatePieces (showing inconsistent)) "a2")) ≤ 1 ∧
  ∀ d, d ∈ td_children (cellAt (updatePieces (showing inconsistent)) "a2") →
    ∃ index first td,
      index < RANKS * FILES ∧ "a2" = squareId index ∧
      board (showing inconsistent) !! "a2" = Some td ∧
      firstPieceAt inconsistent index first ∧
      d = pieceDiv inconsistent index first td ∧
      ∀ name, pieceName first = Some name → properName name →
        div_class d = expectedTags inconsistent index name.
Proof.
  apply (updatePieces_at_most_one_node (showing inconsistent) "a2").
  - exact scripted_coordinates.
  - reflexivity.
Defined.


(** The initial arrangement: sixteen pieces of each colour, thirty-two nodes. *)
Lemma updatePieces_piece_squares_witness :
  pieceSquares (board (updatePieces (showing start))) = typeOccupancy start ∧
  pieceSquares (board (updatePieces (showing start))) = colourOccupancy start.
Proof.
  destruct (updatePieces_piece_squares (showing start)) as (Htypes & Hcolours & _).
  - exact scripted_coordinates.
  - apply boardBuilt_checked. reflexivity.
  - reflexivity.
  - split; [exact Htypes | exact Hcolours].
Defined.

(** C3 as stated fails on the inconsistent position: the pawn square a2 of
    no colour holds a node, the white square d1 of no type holds none. *)
Lemma updatePieces_colour_sets_counterexample :
  pieceSquares (board (updatePieces (showing inconsistent)))
  ≠ occupancy (getColorBitboard inconsistent WHITE)
    ∪ occupancy (getColorBitboard inconsistent BLACK).
Proof. by_evaluation. Qed.

End PieceExamples.

(** ** Highlighting *)

Section Highlighting.
Context `{ChessEngine}.
Implicit Types (p : Position) (b : Board) (ui : UI) (td : Td) (d : Div).
Implicit Types (c s : string) (cs : gset string) (mvs : list Move).

Lemma elem_of_addClasses c l cs :
  c ∈ addClasses l cs ↔ c ∈ cs ∨ ∃ x, x ∈ l ∧ c ∈ classNames x.
Proof.
  unfold addClasses. revert cs. induction l as [|x l IH]; intros cs; simpl.
  - set_solver.
  - rewrite IH, elem_of_addClass. set_solver.
Qed.

Lemma addClasses_app l1 l2 cs :
  addClasses (l1 ++ l2) cs = addClasses l2 (addClasses l1 cs).
Proof. unfold addClasses. apply foldl_app. Qed.

Lemma td_mapClassAll_ext f g td :
  (∀ cs, f cs = g cs) → td_mapClassAll f td = td_mapClassAll g td.
Proof.
  intros Hfg. destruct td as [cs title children droppable].
  unfold td_mapClassAll, td_mapChildren, td_mapClass. simpl. f_equal; [done |].
  apply list_fmap_ext. intros _ [] _. unfold div_mapClass. simpl. by rewrite Hfg.
Qed.

Lemma td_mapClassAll_id td : td_mapClassAll (λ cs, cs) td = td.
Proof.
  destruct td as [cs title children droppable].
  unfold td_mapClassAll, td_mapChildren, td_mapClass. simpl. f_equal.
  rewrite <- (list_fmap_id children) at 2. apply list_fmap_ext. by intros _ [] _.
Qed.

Lemma td_mapClassAll_compose f g td :
  td_mapClassAll f (td_mapClassAll g td) = td_mapClassAll (f ∘ g) td.
Proof.
  destruct td as [cs title children droppable].
  unfold td_mapClassAll, td_mapChildren, td_mapClass. simpl. f_equal.
  rewrite <- list_fmap_compose. apply list_fmap_ext. by intros _ [] _.
Qed.

(** A highlighting loop changes the cell [s] by adding [tagsFor ... s]. *)
Lemma foldl_tagStep_lookup key tags guard mvs b s :
  foldl (tagStep key tags guard) b mvs !! s
  = td_mapClassAll (addClasses (tagsFor key tags guard mvs s)) <$> b !! s.
Proof.
  revert b. induction mvs as [|move mvs IH]; intros b; simpl.
  - destruct (b !! s) as [td|]; [|done]. simpl. f_equal.
    symmetry. apply td_mapClassAll_id.
  - rewrite IH. unfold tagStep, tagsFor. simpl.
    destruct (guard move); simpl.
    + rewrite lookup_alter. destruct (decide (key move = s)) as [Heq|Hne].
      * rewrite bool_decide_eq_true_2 by done. simpl. subst s.
        destruct (b !! key move) as [td|]; [|done]. simpl. f_equal.
        rewrite td_mapClassAll_compose. apply td_mapClassAll_ext.
        intros cs. simpl. by rewrite addClasses_app.
      * by rewrite bool_decide_eq_false_2 by done.
    + done.
Qed.

Lemma elem_of_tagsFor key tags guard mvs s x :
  x ∈ tagsFor key tags guard mvs s ↔
  ∃ move, move ∈ mvs ∧ guard move = true ∧ key move = s ∧ x ∈ tags move.
Proof.
  unfold tagsFor. rewrite list_elem_of_In, in_flat_map.
  setoid_rewrite filter_In. setoid_rewrite andb_true_iff.
  setoid_rewrite bool_decide_eq_true. setoid_rewrite list_elem_of_In.
  naive_solver.
Qed.

(** The classes of a cell after a highlighting loop. *)
Lemma elem_of_tagged_class key tags guard mvs s td c :
  c ∈ td_class (td_mapClassAll (addClasses (tagsFor key tags guard mvs s)) td) ↔
  c ∈ td_class td ∨
  ∃ move x, move ∈ mvs ∧ guard move = true ∧ key move = s ∧
            x ∈ tags move ∧ c ∈ classNames x.
Proof.
  simpl. rewrite elem_of_addClasses. setoid_rewrite elem_of_tagsFor. naive_solver.
Qed.

Lemma canMoveBoard_lookup mvs b s :
  canMoveBoard mvs b !! s
  = td_mapClassAll (addClasses
      (tagsFor (λ move, squareId (getFrom move)) (λ _, ["can-move"]) (λ _, true) mvs s))
    <$> (td_mapClassAll (removeClass "can-move") <$> b !! s).
Proof.
  unfold canMoveBoard.
  change markCanMove
    with (tagStep (λ move, squareId (getFrom move)) (λ _, ["can-move"]) (λ _, true)).
  by rewrite foldl_tagStep_lookup, lookup_fmap.
Qed.

Lemma elem_of_taggedSquares c b index :
  index ∈ taggedSquares c b ↔ index < RANKS * FILES ∧ cellTagged c b index = true.
Proof.
  unfold taggedSquares. rewrite elem_of_list_to_set, list_elem_of_In, filter_In.
  rewrite <- list_elem_of_In, elem_of_seq. intuition lia.
Qed.

Lemma elem_of_origins mvs index :
  index ∈ origins mvs ↔ ∃ move, move ∈ mvs ∧ getFrom move = index.
Proof.
  unfold origins. rewrite elem_of_list_to_set, list_elem_of_fmap. naive_solver.
Qed.

(** The cell of [index] is tagged [can-move] by [updateMoves] exactly when a
    legal move resolves to that cell as its origin. *)
Lemma updateMoves_cellTagged ui index td :
  board ui !! squareId index = Some td →
  cellTagged "can-move" (board (updateMoves ui)) index = true ↔
  ∃ move, move ∈ getMoves (chessPosition ui) ∧
          squareId (getFrom move) = squareId index.
Proof.
  intros Htd. unfold cellTagged. simpl.
  rewrite lookup_fmap, canMoveBoard_lookup, Htd. simpl.
  rewrite hasClass_true, elem_of_addClasses. setoid_rewrite elem_of_tagsFor.
  rewrite elem_of_removeClass. change (classNames "can-move") with ["can-move"].
  split.
  - intros [[_ Hnot] | (x & (move & Hin & _ & Hkey & _) & _)]; [set_solver | eauto].
  - intros (move & Hin & Hkey). right. exists "can-move".
    split; [exists move |]; set_solver.
Qed.

(** C2: after the global highlighting phase of [updateMoves], the squares
    carrying [can-move] are exactly the distinct origins of the moves that
    the position's [getMoves] returns; tags of an earlier pass are removed
    first. (Origins are indices of the board, as the move model has them.) *)
Theorem updateMoves_can_move_squares ui :
  coordinatesAgree → boardBuilt (board ui) →
  Forall (λ move, getFrom move < RANKS * FILES) (getMoves (chessPosition ui)) →
  taggedSquares "can-move" (board (updateMoves ui))
  = origins (getMoves (chessPosition ui)).
Proof.
  intros Hc Hb Hrange. apply set_eq. intros index.
  rewrite elem_of_taggedSquares, elem_of_origins. rewrite Forall_forall in Hrange.
  split.
  - intros [Hi Htag]. destruct (Hb index Hi) as [td Htd].
    apply (updateMoves_cellTagged ui index td Htd) in Htag as (move & Hin & Hkey).
    exists move. split; [done |].
    apply squareId_inj; [done | by apply Hrange | done | done].
  - intros (move & Hin & <-). pose proof (Hrange move Hin) as Hi.
    split; [done |]. destruct (Hb _ Hi) as [td Htd].
    apply (updateMoves_cellTagged ui _ td Htd). eauto.
Qed.


(** *** The hover phase *)

Lemma addsTag_iff c hit hit' td td' :
  (hit ↔ hit') → addsTag c hit td td' → addsTag c hit' td td'.
Proof.
  intros Hiff [Hcell Hnodes]. split; [by rewrite <- Hiff |].
  eapply Forall2_impl; [exact Hnodes |]. intros d d' Hd. by rewrite <- Hiff.
Qed.

Lemma addsTag_trans c hit1 hit2 td1 td2 td3 :
  addsTag c hit1 td1 td2 → addsTag c hit2 td2 td3 →
  addsTag c (hit1 ∨ hit2) td1 td3.
Proof.
  intros [Hcell1 Hnodes1] [Hcell2 Hnodes2]. split.
  - rewrite Hcell2, Hcell1. tauto.
  - eapply Forall2_trans; [| exact Hnodes1 | exact Hnodes2].
    intros d1 d2 d3 H12 H23. simpl in *. rewrite H23, H12. tauto.
Qed.

(** A step that leaves every class attribute alone. *)
Lemma addsTag_same c td td' :
  td_class td' = td_class td →
  div_class <$> td_children td' = div_class <$> td_children td →
  addsTag c False td td'.
Proof.
  intros Hcell Hnodes. split; [rewrite Hcell; tauto |].
  apply Forall2_same_length_lookup_2.
  - by rewrite <- (length_fmap div_class), <- Hnodes, length_fmap.
  - intros i d d' Hd Hd'.
    assert ((div_class <$> td_children td') !! i = (div_class <$> td_children td) !! i)
      as Hi by (by rewrite Hnodes).
    rewrite !list_lookup_fmap, Hd, Hd' in Hi. injection Hi as ->. tauto.
Qed.

Lemma addsTag_refl c td : addsTag c False td td.
Proof. by apply addsTag_same. Qed.

Lemma addsTag_mapClassChild c k f td :
  (∀ cs, c ∈ f cs ↔ c ∈ cs) →
  addsTag c False td (td_mapClassChild k f td).
Proof.
  intros Hf. split; simpl; [rewrite Hf; tauto |].
  apply Forall2_alter_r.
  - apply Forall_Forall2_diag, Forall_forall. tauto.
  - intros d d' _ _ Hd. simpl. rewrite Hf, Hd. tauto.
Qed.

Lemma addsTag_addClasses c l td :
  addsTag c (∃ x, x ∈ l ∧ c ∈ classNames x) td (td_mapClassAll (addClasses l) td).
Proof.
  split; simpl; [apply elem_of_addClasses |].
  apply Forall2_fmap_r, Forall_Forall2_diag, Forall_forall.
  intros d _. simpl. apply elem_of_addClasses.
Qed.

Lemma addsTag_clearDragging c td :
  addsTag c False td (destroyDroppable (td_mapChildren destroyDraggable td)).
Proof.
  apply addsTag_same; simpl; [done |].
  rewrite <- list_fmap_compose. by apply list_fmap_ext.
Qed.

Lemma addsTag_makeDroppable c from td : addsTag c False td (makeDroppable from td).
Proof. unfold makeDroppable. destruct (hasClass "to" _); by apply addsTag_same. Qed.

Lemma addsTag_makeDraggable c k td :
  addsTag c False td (td_alterChild k makeDraggable td).
Proof.
  split; simpl; [tauto |]. apply Forall2_alter_r.
  - apply Forall_Forall2_diag, Forall_forall. tauto.
  - intros d d' _ _ Hd. simpl. exact Hd.
Qed.

(** The nine [addClass] calls of the source add exactly the tags of
    [destinationTags] whose facet the move has. *)
Lemma destinationClasses_tags move c applies :
  (c, applies) ∈ destinationTags →
  (∃ x, x ∈ destinationClasses move ∧ c ∈ classNames x) ↔ applies move = true.
Proof.
  intros Hin. unfold destinationTags in Hin.
  repeat (apply elem_of_cons in Hin as [Heq | Hin]; [injection Heq as -> -> |]);
    [.. | by apply elem_of_nil in Hin].
  all: split;
    [ intros (x & Hx & Hc); unfold destinationClasses in Hx;
      repeat (apply elem_of_cons in Hx as [-> | Hx]);
        [.. | by apply elem_of_nil in Hx];
      first [ done
            | revert Hc; case_decide; intros Hc;
              first [ by apply bool_decide_eq_true_2 | impossible_class Hc ]
            | revert Hc; case_match; intros Hc;
              first [ done | impossible_class Hc ]
            | impossible_class Hc ]
    | intros Happlies; try apply bool_decide_eq_true in Happlies ].
  - exists "to". split; [set_solver | by_evaluation].
  - eexists. split; [apply list_elem_of_lookup; by exists 1 |].
    rewrite decide_True by done. by_evaluation.
  - eexists. split; [apply list_elem_of_lookup; by exists 2 |].
    rewrite Happlies. by_evaluation.
  - eexists. split; [apply list_elem_of_lookup; by exists 3 |].
    rewrite decide_True by done. by_evaluation.
  - eexists. split; [apply list_elem_of_lookup; by exists 4 |].
    rewrite decide_True by done. by_evaluation.
  - eexists. split; [apply list_elem_of_lookup; by exists 5 |].
    rewrite Happlies. by_evaluation.
  - eexists. split; [apply list_elem_of_lookup; by exists 6 |].
    rewrite Happlies. by_evaluation.
  - eexists. split; [apply list_elem_of_lookup; by exists 7 |].
    rewrite decide_True by done. by_evaluation.
  - eexists. split; [apply list_elem_of_lookup; by exists 8 |].
    rewrite decide_True by done. by_evaluation.
Qed.


Lemma existsb_getFrom mvs from :
  existsb (λ move, (getFrom move =? from)%nat) mvs = true ↔
  ∃ move, move ∈ mvs ∧ getFrom move = from.
Proof.
  rewrite existsb_exists. setoid_rewrite Nat.eqb_eq.
  by setoid_rewrite list_elem_of_In.
Qed.

(** What the hover handler does to the class [c] of any cell [s], for every
    class but [from]. *)
Lemma mouseenterHandler_cell ui sq k s td c :
  dragging ui = false → c ≠ "from" →
  is_Some (board ui !! sq) →
  board ui !! s = Some td →
  ∃ td', board (mouseenterHandler sq k ui) !! s = Some td' ∧
    addsTag c
      (∃ move x, move ∈ moves ui ∧ getFrom move = getIndexFromAlgebraic sq ∧
                 squareId (getTo move) = s ∧
                 x ∈ destinationClasses move ∧ c ∈ classNames x)
      td td'.
Proof.
  intros Hdrag Hc [tdsq Hsq] Htd. unfold mouseenterHandler. rewrite Hdrag.
  set (from := getIndexFromAlgebraic sq).
  set (isFrom := existsb (λ move, (getFrom move =? from)%nat) (moves ui)).
  assert (∀ cs, c ∈ toggleClass "from" isFrom cs ↔ c ∈ cs) as Htoggle.
  { intros cs. rewrite elem_of_toggleClass. change (classNames "from") with ["from"].
    set_solver. }
  assert (from_option (selectionHasClass "from" k) false
            (alter (td_mapClassChild k (toggleClass "from" isFrom)) sq (board ui) !! sq)
          = isFrom) as Hcond.
  { rewrite lookup_alter_eq, Hsq. simpl. unfold selectionHasClass. simpl.
    rewrite hasClass_toggle_same by done. destruct isFrom; [done |]. simpl.
    rewrite list_lookup_alter_eq. destruct (td_children tdsq !! k) as [d|]; [|done].
    simpl. exact (hasClass_toggle_same "from" false _ eq_refl). }
  cbn zeta. simpl board at 1. rewrite Hcond. destruct isFrom eqn:HisFrom.
  - simpl.
    change (markDestination from)
      with (tagStep (λ move, squareId (getTo move)) destinationClasses
              (λ move, (getFrom move =? from)%nat)).
    unfold clearDraggingBoard.
    destruct (decide (sq = s)) as [<- |Hne].
    + rewrite lookup_alter_eq, !lookup_fmap, foldl_tagStep_lookup, lookup_alter_eq, Htd.
      simpl. eexists. split; [reflexivity |].
      eapply addsTag_iff;
        [| eapply addsTag_trans; [apply (addsTag_mapClassChild c k _ td Htoggle) |];
           eapply addsTag_trans; [apply addsTag_addClasses |];
           eapply addsTag_trans; [apply addsTag_clearDragging |];
           eapply addsTag_trans; [apply addsTag_makeDroppable |];
           apply addsTag_makeDraggable ].
      setoid_rewrite elem_of_tagsFor. setoid_rewrite Nat.eqb_eq. naive_solver.
    + rewrite lookup_alter_ne by done.
      rewrite !lookup_fmap, foldl_tagStep_lookup, lookup_alter_ne, Htd by done.
      simpl. eexists. split; [reflexivity |].
      eapply addsTag_iff;
        [| eapply addsTag_trans; [apply addsTag_addClasses |];
           eapply addsTag_trans; [apply addsTag_clearDragging |];
           apply addsTag_makeDroppable ].
      setoid_rewrite elem_of_tagsFor. setoid_rewrite Nat.eqb_eq. naive_solver.
  - simpl.
    assert (¬ ∃ move, move ∈ moves ui ∧ getFrom move = from) as Hnone.
    { rewrite <- existsb_getFrom. fold isFrom. by rewrite HisFrom. }
    destruct (decide (sq = s)) as [<- |Hne].
    + rewrite lookup_alter_eq, Htd. simpl. eexists. split; [reflexivity |].
      eapply addsTag_iff; [| apply (addsTag_mapClassChild c k _ td Htoggle)].
      naive_solver.
    + rewrite lookup_alter_ne, Htd by done. eexists. split; [reflexivity |].
      eapply addsTag_iff; [| apply addsTag_refl]. naive_solver.
Qed.

(** What [addsTag] says of a cell and of piece nodes that did not carry the
    class before. *)
Lemma addsTag_exact c hit td td' :
  addsTag c hit td td' →
  (c ∉ td_class td → c ∈ td_class td' ↔ hit) ∧
  (Forall (λ d, c ∉ div_class d) (td_children td) →
   Forall (λ d', c ∈ div_class d' ↔ hit) (td_children td')).
Proof.
  intros [Hcell Hnodes]. split; [intros Hnot; rewrite Hcell; tauto |].
  intros Hall. apply Forall_lookup. intros j d' Hj.
  destruct (Forall2_lookup_r _ _ _ _ _ Hnodes Hj) as (d & Hd & Hiff).
  pose proof (Forall_lookup_1 _ _ _ _ Hall Hd) as Hnot. simpl in Hnot.
  rewrite Hiff. tauto.
Qed.

(** C8 (amended): when the piece node of a [can-move] origin is hovered and
    no drag is under way, then for every destination tag ([to] and the eight
    subtype tags) and every square of the board, the handler adds the tag to
    the cell and to its piece nodes exactly if some legal move from the
    hovered origin to that square has the facet the tag stands for ([to]: any
    such move; [positional], [double-push], [en-passant], [king-castle],
    [queen-castle]: its kind; [capture], [promotion], [castle]: the facet of
    that name). The tags of the moves to one destination add up, and the
    handler removes none: a tag that was on the square before stays. On a
    cell, and on piece nodes, that did not carry the tag before the hover,
    the tag is there afterwards exactly if such a move exists. *)
Theorem mouseenter_tags_destinations ui sq k d c applies index td :
  coordinatesAgree →
  dragging ui = false →
  board ui !! sq ≫= (λ t, td_children t !! k) = Some d →
  div_hover d = true →
  Forall (λ move, getTo move < RANKS * FILES) (moves ui) →
  (c, applies) ∈ destinationTags →
  index < RANKS * FILES →
  board ui !! squareId index = Some td →
  ∃ td', board (mouseenter sq k ui) !! squareId index = Some td' ∧
    addsTag c (facetMove (moves ui) (getIndexFromAlgebraic sq) index applies) td td' ∧
    (c ∉ td_class td →
     c ∈ td_class td' ↔
     facetMove (moves ui) (getIndexFromAlgebraic sq) index applies) ∧
    (Forall (λ d0, c ∉ div_class d0) (td_children td) →
     Forall (λ d', c ∈ div_class d' ↔
                   facetMove (moves ui) (getIndexFromAlgebraic sq) index applies)
       (td_children td')).
Proof.
  intros Hc Hdrag Hd Hhover Hrange Hin Hi Htd.
  unfold mouseenter. rewrite Hd, Hhover.
  assert (is_Some (board ui !! sq)) as Hsq.
  { destruct (board ui !! sq); [by eexists | done]. }
  assert (c ≠ "from") as Hne.
  { intros ->. unfold destinationTags in Hin.
    repeat (apply elem_of_cons in Hin as [Heq | Hin]; [by injection Heq |]).
    by apply elem_of_nil in Hin. }
  destruct (mouseenterHandler_cell ui sq k (squareId index) td c Hdrag Hne Hsq Htd)
    as (td' & Hlook & Hadds).
  assert (addsTag c (facetMove (moves ui) (getIndexFromAlgebraic sq) index applies) td td')
    as Hfacet.
  { eapply addsTag_iff; [| exact Hadds].
    rewrite Forall_forall in Hrange. unfold facetMove. split.
    - intros (move & x & Hmove & Hfrom & Hto & Hx & Hcx).
      exists move. do 2 (split; [done |]). split.
      + apply squareId_inj; [done | by apply Hrange | done | done].
      + apply (destinationClasses_tags move c applies Hin). eauto.
    - intros (move & Hmove & Hfrom & <- & Happlies).
      apply (destinationClasses_tags move c applies Hin) in Happlies as (x & Hx & Hcx).
      exists move, x. eauto 10. }
  exists td'. split; [done |]. split; [done |]. by apply addsTag_exact.
Qed.

End Highlighting.

(** ** Dropping a piece and the end of the game *)

Section Lifecycle.
Context `{ChessEngine}.
Implicit Types (p : Position) (b : Board) (ui : UI) (td : Td) (d : Div).
Implicit Types (replies : list bool) (l tail : list Call).

Lemma calls_resynchronize ui : calls (resynchronize ui) = calls ui ++ resyncCalls.
Proof. simpl. by rewrite <- !app_assoc. Qed.

Lemma calls_record c ui : calls (record c ui) = calls ui ++ [c].
Proof. done. Qed.

Lemma board_record c ui : board (record c ui) = board ui.
Proof. done. Qed.

Lemma calls_resetPosition ui : calls (resetPosition ui) = calls ui ++ [CallReset].
Proof. done. Qed.

Lemma chessPosition_resynchronize ui :
  chessPosition (resynchronize ui) = chessPosition ui.
Proof. done. Qed.

Lemma updateChessPosition_unfold replies ui :
  updateChessPosition replies ui =
    let ui1 := resynchronize ui in
    let status := getStatus (chessPosition ui1) in
    let ask message :=
      match replies with
      | [] => Confirming message ui1
      | reply :: rest =>
          let ui2 := record (CallConfirm message reply) ui1 in
          if reply then updateChessPosition rest (resetPosition ui2) else Done ui2
      end in
    if decide (status = CHECKMATE) then ask (checkmateMessage (chessPosition ui1))
    else if decide (status ≠ NORMAL) then ask drawMessage
    else Done ui1.
Proof. by destruct replies. Qed.

(** [updateChessPosition], one activation at a time. *)
Lemma updateChessPosition_eq replies ui :
  updateChessPosition replies ui =
    match prompt (chessPosition ui) with
    | None => Done (resynchronize ui)
    | Some message =>
        match replies with
        | [] => Confirming message (resynchronize ui)
        | reply :: rest =>
            let asked := record (CallConfirm message reply) (resynchronize ui) in
            if reply then reset rest asked else Done asked
        end
    end.
Proof.
  rewrite updateChessPosition_unfold. cbv zeta.
  rewrite !chessPosition_resynchronize. unfold prompt, reset.
  destruct (decide (getStatus (chessPosition ui) = CHECKMATE));
    [| destruct (decide (getStatus (chessPosition ui) ≠ NORMAL))];
    reflexivity.
Qed.

Lemma makeMoveCalls_app l1 l2 :
  makeMoveCalls (l1 ++ l2) = makeMoveCalls l1 ++ makeMoveCalls l2.
Proof. apply omap_app. Qed.

Lemma resynchronizations_app l1 l2 :
  resynchronizations (l1 ++ l2) = resynchronizations l1 + resynchronizations l2.
Proof. unfold resynchronizations. by rewrite List.filter_app, length_app. Qed.

Lemma restarts_app l1 l2 : restarts (l1 ++ l2) = restarts l1 + restarts l2.
Proof. unfold restarts. by rewrite List.filter_app, length_app. Qed.

(** The calls of [updateChessPosition]: one resynchronization, then what
    the replies of the user lead to. No move is submitted; every restart
    brings one more resynchronization, and there is a restart only if the
    position is final and the first reply accepts. *)
Lemma updateChessPosition_calls replies ui :
  ∃ tail,
    calls (finalUI (updateChessPosition replies ui)) = calls ui ++ resyncCalls ++ tail ∧
    makeMoveCalls tail = [] ∧
    resynchronizations tail = restarts tail ∧
    (prompt (chessPosition ui) = None ∨ head replies ≠ Some true → restarts tail = 0) ∧
    (prompt (chessPosition ui) ≠ None → head replies = Some true → 1 ≤ restarts tail).
Proof.
  revert ui. induction replies as [|reply rest IH]; intros ui;
    rewrite updateChessPosition_eq;
    destruct (prompt (chessPosition ui)) as [message|] eqn:Hprompt.
  - exists []. simpl finalUI. rewrite calls_resynchronize, app_nil_r.
    repeat split; try done.
  - exists []. simpl finalUI. rewrite calls_resynchronize, app_nil_r.
    repeat split; try done.
  - destruct reply; cbn zeta iota.
    + destruct (IH (resetPosition (record (CallConfirm message true) (resynchronize ui))))
        as (tail & Hcalls & Hmoves & Hcount & _).
      exists (CallConfirm message true :: CallReset :: resyncCalls ++ tail).
      unfold reset. rewrite Hcalls.
      rewrite calls_resetPosition, calls_record, calls_resynchronize.
      split; [by rewrite <- !app_assoc |].
      unfold resyncCalls, makeMoveCalls, resynchronizations, restarts in *. simpl.
      repeat split; try done; try lia. intros [|]; done.
    + exists [CallConfirm message false]. simpl finalUI.
      rewrite calls_record, calls_resynchronize, <- app_assoc.
      repeat split; try done.
  - exists []. simpl finalUI. rewrite calls_resynchronize, app_nil_r.
    repeat split; try done.
Qed.

Lemma filter_first {A} (f : A → bool) (l : list A) x rest :
  List.filter f l = x :: rest →
  ∃ earlier later, l = earlier ++ x :: later ∧
                   Forall (λ y, f y = false) earlier ∧ f x = true.
Proof.
  induction l as [|y l IH]; simpl; [done |].
  destruct (f y) eqn:Hy.
  - intros [= -> Hrest]. by exists [], l.
  - intros (earlier & later & -> & Hearlier & Hx)%IH.
    exists (y :: earlier), later. split; [done |]. split; [by constructor | done].
Qed.

Lemma dropEvent_match ui replies sq from move others :
  board ui !! sq ≫= td_droppable = Some from →
  List.filter (matching from (getIndexFromAlgebraic sq)) (moves ui) = move :: others →
  dropEvent replies sq ui = updateChessPosition replies (submitted move ui).
Proof.
  intros Hdrop Hfilter. unfold dropEvent, dropHandler. by rewrite Hdrop, Hfilter.
Qed.


Lemma calls_submitted move ui :
  calls (submitted move ui) = calls ui ++ [CallMakeMove move].
Proof. done. Qed.

Lemma resynchronizations_submit move tail :
  resynchronizations (CallMakeMove move :: resyncCalls ++ tail)
  = 1 + resynchronizations tail.
Proof. done. Qed.

Lemma makeMoveCalls_submit move tail :
  makeMoveCalls (CallMakeMove move :: resyncCalls ++ tail) = move :: makeMoveCalls tail.
Proof. done. Qed.

(** C1 (amended): a drop on a droppable square for which exactly one legal
    move has the armed origin and that destination submits that move to the
    position's [makeMove], once, and then runs [updateChessPosition] on the
    new position: a full resynchronization (clear highlights and bindings,
    rebuild piece nodes, rebuild can-move highlights). That resynchronization
    is the only one when the new position is normal or the user does not
    accept the restart prompt; every accepted restart replaces the position
    and resynchronizes once more. *)
Theorem dropEvent_unique_match ui replies sq from move :
  board ui !! sq ≫= td_droppable = Some from →
  List.filter (matching from (getIndexFromAlgebraic sq)) (moves ui) = [move] →
  dropEvent replies sq ui = updateChessPosition replies (submitted move ui) ∧
  chessPosition (submitted move ui) = makeMove (chessPosition ui) move ∧
  ∃ tail,
    calls (finalUI (dropEvent replies sq ui))
      = calls ui ++ CallMakeMove move :: resyncCalls ++ tail ∧
    makeMoveCalls (CallMakeMove move :: resyncCalls ++ tail) = [move] ∧
    resynchronizations (CallMakeMove move :: resyncCalls ++ tail) = 1 + restarts tail ∧
    (getStatus (makeMove (chessPosition ui) move) = NORMAL ∨ head replies ≠ Some true →
       resynchronizations (CallMakeMove move :: resyncCalls ++ tail) = 1) ∧
    (getStatus (makeMove (chessPosition ui) move) ≠ NORMAL → head replies = Some true →
       2 ≤ resynchronizations (CallMakeMove move :: resyncCalls ++ tail)).
Proof.
  intros Hdrop Hfilter.
  rewrite (dropEvent_match ui replies sq from move [] Hdrop Hfilter).
  do 2 (split; [done |]).
  destruct (updateChessPosition_calls replies (submitted move ui))
    as (tail & Hcalls & Hmoves & Hcount & Hnone & Hsome).
  exists tail. rewrite Hcalls, calls_submitted.
  assert (resynchronizations (CallMakeMove move :: resyncCalls ++ tail) = 1 + restarts tail)
    as Hresync.
  { by rewrite resynchronizations_submit, Hcount. }
  split; [by rewrite <- app_assoc |].
  split; [by rewrite makeMoveCalls_submit, Hmoves |].
  split; [done |]. rewrite Hresync. simpl chessPosition in Hnone, Hsome. split.
  - intros [Hnormal | Hhead]; rewrite Hnone; [done | left | done | by right].
    unfold prompt. rewrite Hnormal. by repeat case_decide.
  - intros Hfinal Hhead. apply le_n_S, Hsome; [|done].
    unfold prompt. by repeat case_decide.
Qed.

(** C7: a drop for which more than one legal move has the armed origin and
    the destination of the square submits the first of them in the order of
    the legal-move list; the submission is the next thing the controller
    does, no question is put to the user before it, and no other move is
    submitted. *)
Theorem dropEvent_several_matches ui replies sq from move others :
  board ui !! sq ≫= td_droppable = Some from →
  List.filter (matching from (getIndexFromAlgebraic sq)) (moves ui) = move :: others →
  others ≠ [] →
  dropEvent replies sq ui = updateChessPosition replies (submitted move ui) ∧
  chessPosition (submitted move ui) = makeMove (chessPosition ui) move ∧
  (∃ earlier later,
     moves ui = earlier ++ move :: later ∧
     Forall (λ other, matching from (getIndexFromAlgebraic sq) other = false) earlier ∧
     matching from (getIndexFromAlgebraic sq) move = true) ∧
  ∃ tail,
    calls (finalUI (dropEvent replies sq ui))
      = calls ui ++ CallMakeMove move :: resyncCalls ++ tail ∧
    makeMoveCalls (CallMakeMove move :: resyncCalls ++ tail) = [move].
Proof.
  intros Hdrop Hfilter _.
  rewrite (dropEvent_match ui replies sq from move others Hdrop Hfilter).
  do 2 (split; [done |]). split; [by eapply filter_first |].
  destruct (updateChessPosition_calls replies (submitted move ui))
    as (tail & Hcalls & Hmoves & _).
  exists tail. rewrite Hcalls, calls_submitted. split; [by rewrite <- app_assoc |].
  by rewrite makeMoveCalls_submit, Hmoves.
Qed.

Lemma clearMoving_clearDragging_lookup ui s :
  board (clearDragging (clearMoving ui)) !! s
  = (λ td, destroyDroppable (td_mapChildren destroyDraggable
             (td_mapClassAll (removeClass MOVING_CLASSES) td))) <$> board ui !! s.
Proof.
  simpl. unfold clearDraggingBoard, clearMovingBoard. rewrite !lookup_fmap.
  by destruct (board ui !! s).
Qed.


Lemma mentions_winner color :
  mentions (colorName (opponent color))
    (colorName (opponent color) +:+ " wins. Checkmate! Do you want to restart the game?")
  = true ∧
  mentions (colorName color)
    (colorName (opponent color) +:+ " wins. Checkmate! Do you want to restart the game?")
  = false.
Proof. by destruct color. Qed.

(** C5 (amended): whenever a resynchronization finds the status checkmate,
    the controller puts a blocking confirmation that names the winning side,
    the opponent of the side to move (and does not name the side to move); on
    acceptance it runs [reset], which replaces the position with a new
    initial position and resynchronizes; on decline it returns with the final
    board rendered and the position as it was. *)
Theorem updateChessPosition_checkmate ui message :
  getStatus (chessPosition ui) = CHECKMATE →
  message = colorName (opponent (getTurnColor (chessPosition ui)))
              +:+ " wins. Checkmate! Do you want to restart the game?" →
  updateChessPosition [] ui = Confirming message (resynchronize ui) ∧
  mentions (colorName (opponent (getTurnColor (chessPosition ui)))) message = true ∧
  mentions (colorName (getTurnColor (chessPosition ui))) message = false ∧
  (∀ rest,
     updateChessPosition (true :: rest) ui
       = reset rest (record (CallConfirm message true) (resynchronize ui)) ∧
     reset rest (record (CallConfirm message true) (resynchronize ui))
       = updateChessPosition rest
           (resetPosition (record (CallConfirm message true) (resynchronize ui))) ∧
     chessPosition (resetPosition (record (CallConfirm message true) (resynchronize ui)))
       = newPosition) ∧
  (∀ rest,
     updateChessPosition (false :: rest) ui
       = Done (record (CallConfirm message false) (resynchronize ui)) ∧
     chessPosition (record (CallConfirm message false) (resynchronize ui))
       = chessPosition ui ∧
     board (record (CallConfirm message false) (resynchronize ui))
       = board (resynchronize ui)).
Proof.
  intros Hmate ->.
  assert (prompt (chessPosition ui)
          = Some (colorName (opponent (getTurnColor (chessPosition ui)))
                    +:+ " wins. Checkmate! Do you want to restart the game?")) as Hprompt.
  { unfold prompt, checkmateMessage. rewrite decide_True by done.
    by destruct (getTurnColor (chessPosition ui)). }
  destruct (mentions_winner (getTurnColor (chessPosition ui))) as [Hwinner Hloser].
  split; [rewrite updateChessPosition_eq, Hprompt; reflexivity |].
  split; [exact Hwinner |]. split; [exact Hloser |].
  split; intros rest; rewrite updateChessPosition_eq, Hprompt;
    (split; [reflexivity | split; [reflexivity |]]);
    [reflexivity | apply board_record].
Qed.

End Lifecycle.

(** ** What holds whenever the controller waits for an event *)

Section Reachable.
Context `{ChessEngine}.
Implicit Types (p : Position) (b : Board) (ui : UI) (td : Td) (d : Div).

Lemma dom_foldl_alter {A} (step : Board → A → Board) (l : list A) b :
  (∀ b' x, dom (step b' x) = dom b') → dom (foldl step b l) = dom b.
Proof.
  intros Hstep. revert b. induction l as [|x l IH]; intros b; simpl; [done |].
  by rewrite IH, Hstep.
Qed.

Lemma dom_clearMovingBoard b : dom (clearMovingBoard b) = dom b.
Proof. apply dom_fmap_L. Qed.

Lemma dom_clearDraggingBoard b : dom (clearDraggingBoard b) = dom b.
Proof. apply dom_fmap_L. Qed.

Lemma dom_updatePiecesBoard p b : dom (updatePiecesBoard p b) = dom b.
Proof.
  unfold updatePiecesBoard, markLastMove.
  assert (dom (foldl (updateSquare p) (removePieces <$> b) (seq 0 (RANKS * FILES)))
          = dom b) as Hfold.
  { rewrite dom_foldl_alter; [apply dom_fmap_L |].
    intros b' index. rewrite updateSquare_alter. apply dom_alter_L. }
  destruct (getLastMove p); [by rewrite !dom_alter_L |done].
Qed.

Lemma dom_canMoveBoard mvs b : dom (canMoveBoard mvs b) = dom b.
Proof.
  unfold canMoveBoard. rewrite dom_foldl_alter; [apply dom_fmap_L |].
  intros b' move. apply dom_alter_L.
Qed.

Lemma dom_resynchronize ui : dom (board (resynchronize ui)) = dom (board ui).
Proof.
  simpl. by rewrite dom_fmap_L, dom_canMoveBoard, dom_updatePiecesBoard,
    dom_clearDraggingBoard, dom_clearMovingBoard.
Qed.

Lemma synchronized_resynchronize ui :
  dom (board ui) = dom makeBoard → synchronized (resynchronize ui).
Proof. intros Hdom. split; [done | by rewrite dom_resynchronize]. Qed.

(** A handler that changes neither the position nor the captured moves nor
    the set of cells keeps the page synchronized. *)
Lemma synchronized_same ui ui' :
  chessPosition ui' = chessPosition ui → moves ui' = moves ui →
  dom (board ui') = dom (board ui) →
  synchronized ui → synchronized ui'.
Proof. intros Hp Hm Hd [Hmoves Hdom]. split; congruence. Qed.

Lemma synchronized_mouseenterHandler sq k ui :
  synchronized ui → synchronized (mouseenterHandler sq k ui).
Proof.
  apply synchronized_same; unfold mouseenterHandler;
    destruct (dragging ui); try done; cbn zeta;
    destruct (from_option _ false _); try done; simpl.
  - rewrite !dom_alter_L, dom_fmap_L, dom_clearDraggingBoard.
    rewrite dom_foldl_alter; [apply dom_alter_L |].
    intros b' move. unfold markDestination. destruct (_ =? _)%nat; [|done].
    apply dom_alter_L.
  - apply dom_alter_L.
Qed.

Lemma synchronized_mouseleaveHandler ui :
  synchronized ui → synchronized (mouseleaveHandler ui).
Proof.
  apply synchronized_same; unfold mouseleaveHandler; destruct (dragging ui);
    try done. apply dom_clearMovingBoard.
Qed.

Lemma synchronized_record c ui : synchronized ui → synchronized (record c ui).
Proof. by apply synchronized_same. Qed.

Lemma dom_board_resetPosition ui : dom (board (resetPosition ui)) = dom (board ui).
Proof. done. Qed.

Lemma synchronized_updateChessPosition replies ui ui' :
  dom (board ui) = dom makeBoard →
  updateChessPosition replies ui = Done ui' → synchronized ui'.
Proof.
  revert ui. induction replies as [|reply rest IH]; intros ui Hdom;
    rewrite updateChessPosition_eq; destruct (prompt (chessPosition ui)); try done.
  - intros [= <-]. by apply synchronized_resynchronize.
  - cbn zeta. destruct reply.
    + apply IH. by rewrite dom_board_resetPosition, board_record, dom_resynchronize.
    + intros [= <-]. by apply synchronized_record, synchronized_resynchronize.
  - intros [= <-]. by apply synchronized_resynchronize.
Qed.

Lemma synchronized_handle e ui ui' :
  synchronized ui → handle e ui = Done ui' → synchronized ui'.
Proof.
  intros Hsync. destruct e as [sq k | sq k | sq k | | sq replies]; simpl.
  - intros [= <-]. unfold mouseenter.
    destruct (_ ≫= _) as [d|]; [|done]. destruct (div_hover d); [|done].
    by apply synchronized_mouseenterHandler.
  - intros [= <-]. unfold mouseleave.
    destruct (_ ≫= _) as [d|]; [|done]. destruct (div_hover d); [|done].
    by apply synchronized_mouseleaveHandler.
  - intros [= <-]. unfold dragstart.
    destruct (_ ≫= _) as [d|]; [|done]. by destruct (div_draggable d).
  - by intros [= <-].
  - unfold dropEvent. destruct (_ ≫= _) as [from|]; [|by intros [= <-]].
    unfold dropHandler. destruct (List.filter _ _) as [|move others].
    + intros [= <-]. revert Hsync. apply synchronized_same; try done. simpl.
      by rewrite dom_clearDraggingBoard, dom_clearMovingBoard.
    + apply synchronized_updateChessPosition. by destruct Hsync.
Qed.

(** In every state in which the controller waits for an event, the moves
    its handlers filter are the legal moves of the current position, and the
    page has the cells of [makeBoard]. *)
Lemma reachable_synchronized ui : reachable ui → synchronized ui.
Proof.
  induction 1 as [replies ui Hstart | e ui ui' _ IH Hstep].
  - by apply (synchronized_updateChessPosition replies (newUI makeBoard)).
  - by apply (synchronized_handle e ui).
Qed.

Lemma reachable_boardBuilt ui :
  boardBuilt makeBoard → reachable ui → boardBuilt (board ui).
Proof.
  intros Hbuilt [_ Hdom]%reachable_synchronized index Hindex.
  apply elem_of_dom. rewrite Hdom. apply elem_of_dom. by apply Hbuilt.
Qed.


Lemma reachable_run events ui ui' :
  reachable ui → run events ui = Some ui' → reachable ui'.
Proof.
  revert ui. induction events as [|e events IH]; intros ui Hreach; simpl.
  - by intros [= <-].
  - destruct (handle e ui) as [ui1|] eqn:Hstep; [|done].
    apply IH. by apply (reachable_step e ui).
Qed.

End Reachable.

(** ** The board that [makeBoard] builds *)

Section MakeBoard.
Context `{ChessEngine}.
Implicit Types (b : Board) (td : Td) (s : string).

Lemma foldl_insert_lookup_inv {A} (key : A → string) (val : A → Td) (l : list A) b s td :
  foldl (λ acc x, <[key x := val x]> acc) b l !! s = Some td →
  b !! s = Some td ∨ ∃ x, x ∈ l ∧ key x = s ∧ td = val x.
Proof.
  revert b. induction l as [|x l IH]; intros b; simpl; [by left |].
  intros [Hb | (y & Hy & Hkey & ->)]%IH.
  - destruct (decide (key x = s)) as [<- |Hne].
    + rewrite lookup_insert_eq in Hb. injection Hb as <-. right. exists x. set_solver.
    + rewrite lookup_insert_ne in Hb by done. by left.
  - right. exists y. set_solver.
Qed.

Lemma foldl_insert_lookup_ne {A} (key : A → string) (val : A → Td) (l : list A) b s :
  s ∉ key <$> l → foldl (λ acc x, <[key x := val x]> acc) b l !! s = b !! s.
Proof.
  revert b. induction l as [|x l IH]; intros b Hs; simpl; [done |].
  rewrite fmap_cons, not_elem_of_cons in Hs. destruct Hs as [Hne Hs].
  rewrite IH by done. by apply lookup_insert_ne.
Qed.

Lemma foldl_insert_lookup {A} (key : A → string) (val : A → Td) (l : list A) b x :
  NoDup (key <$> l) → x ∈ l →
  foldl (λ acc x, <[key x := val x]> acc) b l !! key x = Some (val x).
Proof.
  revert b. induction l as [|y l IH]; intros b Hnd Hx; simpl;
    [by apply elem_of_nil in Hx |].
  rewrite fmap_cons in Hnd. apply NoDup_cons in Hnd as [Hy Hnd].
  apply elem_of_cons in Hx as [-> | Hx]; [|by apply IH].
  rewrite foldl_insert_lookup_ne by done. apply lookup_insert_eq.
Qed.

Lemma foldl_insert_is_Some {A} (key : A → string) (val : A → Td) (l : list A) b s :
  is_Some (b !! s) ∨ s ∈ key <$> l →
  is_Some (foldl (λ acc x, <[key x := val x]> acc) b l !! s).
Proof.
  revert b. induction l as [|x l IH]; intros b; simpl.
  - intros [Hb | Hs]; [done | by apply elem_of_nil in Hs].
  - intros Hcases. apply IH. destruct Hcases as [Hb | [-> | Hs]%elem_of_cons].
    + left. rewrite lookup_insert. case_decide; eauto.
    + left. rewrite lookup_insert_eq. eauto.
    + by right.
Qed.

Lemma dom_foldl_insert {A} (key : A → string) (val : A → Td) (l : list A) b :
  dom (foldl (λ acc x, <[key x := val x]> acc) b l) = dom b ∪ list_to_set (key <$> l).
Proof.
  revert b. induction l as [|x l IH]; intros b; simpl; [set_solver |].
  rewrite IH, dom_insert_L. set_solver.
Qed.

(** The two nested loops of [makeBoard] are one loop over the coordinates. *)
Lemma makeBoard_flat :
  makeBoard
  = foldl (λ acc rf, <[getAlgebraic rf.1 rf.2 := makeCell rf.1 rf.2]> acc) ∅
      boardCoordinates.
Proof.
  unfold makeBoard, boardCoordinates. generalize (∅ : Board) as b.
  induction (seq 0 RANKS) as [|row rows IH]; intros b; [done |].
  change (foldl makeRow b (row :: rows)) with (foldl makeRow (makeRow b row) rows).
  by rewrite IH, bind_cons, foldl_app, foldl_fmap.
Qed.

Lemma elem_of_boardCoordinates rank file :
  (rank, file) ∈ boardCoordinates ↔ rank < RANKS ∧ file < FILES.
Proof.
  unfold boardCoordinates. rewrite list_elem_of_bind.
  setoid_rewrite list_elem_of_fmap. setoid_rewrite elem_of_seq.
  unfold RANKS, FILES, LAST_RANK. split.
  - intros (row & (f & [= -> ->] & Hf) & Hrow). lia.
  - intros [Hrank Hfile]. exists (7 - rank). split; [|lia].
    exists file. split; [f_equal; lia | lia].
Qed.

Lemma length_boardCoordinates : length boardCoordinates = RANKS * FILES.
Proof. done. Qed.

Lemma makeCell_class rank file :
  td_class (makeCell rank file) = {[ if isLight rank file then "light" else "dark" ]}.
Proof.
  unfold makeCell. simpl. unfold addClass. by destruct (isLight rank file); set_solver.
Qed.

(** X1: when the ids of the 64 coordinates are pairwise distinct, the board
    of [makeBoard] has exactly one cell for every rank and file below 8, under
    the algebraic id of that rank and file; the cell is classed [light] or
    [dark] as [isLight] says, holds no piece node and has no drop binding.
    There are no other cells. *)
Theorem makeBoard_cells :
  NoDup cellIds →
  (∀ rank file, rank < RANKS → file < FILES →
     ∃ td, makeBoard !! getAlgebraic rank file = Some td ∧
       td_class td = {[ if isLight rank file then "light" else "dark" ]} ∧
       td_children td = [] ∧ td_droppable td = None) ∧
  (∀ s td, makeBoard !! s = Some td →
     ∃ rank file, rank < RANKS ∧ file < FILES ∧
       s = getAlgebraic rank file ∧ td = makeCell rank file) ∧
  size makeBoard = RANKS * FILES.
Proof.
  intros Hnd. rewrite makeBoard_flat. split; [|split].
  - intros rank file Hrank Hfile. exists (makeCell rank file).
    split; [|by rewrite makeCell_class].
    apply (foldl_insert_lookup (λ rf, getAlgebraic rf.1 rf.2) (λ rf, makeCell rf.1 rf.2)
             boardCoordinates ∅ (rank, file)); [done |].
    by apply elem_of_boardCoordinates.
  - intros s td [Hempty | ([rank file] & Hin & <- & ->)]%foldl_insert_lookup_inv;
      [by rewrite lookup_empty in Hempty |].
    apply elem_of_boardCoordinates in Hin as [Hrank Hfile]. by exists rank, file.
  - rewrite <- size_dom.
    rewrite (dom_foldl_insert (λ rf, getAlgebraic rf.1 rf.2) (λ rf, makeCell rf.1 rf.2)).
    rewrite dom_empty_L, (left_id_L ∅ (∪)), size_list_to_set by done.
    unfold cellIds. by rewrite length_fmap.
Qed.

(** X2: when the engine names every index below 64 with the id of one of the
    64 coordinates, every index has its cell on the board of [makeBoard], so
    that all later lookups by index select an element. *)
Theorem makeBoard_built : idsCoverIndices → boardBuilt makeBoard.
Proof.
  intros Hcover index Hindex. rewrite makeBoard_flat.
  apply foldl_insert_is_Some. right.
  unfold idsCoverIndices in Hcover. rewrite Forall_forall in Hcover.
  apply Hcover, elem_of_seq. lia.
Qed.

End MakeBoard.

(** ** More on [updatePieces]: the cell itself *)

Section PieceSyncCells.
Context `{ChessEngine}.
Implicit Types (p : Position) (b : Board) (ui : UI) (td : Td) (d : Div).
Implicit Types (c s : string) (cs : gset string).

Lemma split_app_space cur s1 s2 :
  Css.split cur (s1 +:+ String " " s2) = Css.split cur s1 ++ Css.split EmptyString s2.
Proof.
  revert cur. induction s1 as [|a s1 IH]; intros cur.
  - done.
  - change (String a s1 +:+ String " " s2) with (String a (s1 +:+ String " " s2)).
    simpl. destruct (Css.isWhite a); [by rewrite IH, app_assoc | apply IH].
Qed.

Lemma classNames_app_space s1 s2 :
  classNames (s1 +:+ String " " s2) = classNames s1 ++ classNames s2.
Proof. apply split_app_space. Qed.

Lemma classNames_concat names :
  classNames (String.concat " " names) = flat_map classNames names.
Proof.
  induction names as [|name names IH]; [done |].
  destruct names as [|name' names].
  - simpl. by rewrite app_nil_r.
  - change (String.concat " " (name :: name' :: names))
      with (name +:+ String " " (String.concat " " (name' :: names))).
    by rewrite classNames_app_space, IH.
Qed.

Lemma elem_of_PIECE_CLASSES c :
  c ∈ classNames PIECE_CLASSES ↔
  c ∈ ["white"; "black"; "turn"; "last-move"] ∨
  ∃ name, name ∈ PIECE_NAMES ∧ c ∈ classNames name.
Proof.
  change PIECE_CLASSES
    with ("white black turn last-move" +:+ String " " (String.concat " " PIECE_NAMES)).
  rewrite classNames_app_space, classNames_concat, elem_of_app.
  assert (c ∈ flat_map classNames PIECE_NAMES ↔
          ∃ name, name ∈ PIECE_NAMES ∧ c ∈ classNames name) as ->; [|done].
  rewrite list_elem_of_In, in_flat_map. by setoid_rewrite <- list_elem_of_In.
Qed.

Lemma pieceName_elem_of piece name : pieceName piece = Some name → name ∈ PIECE_NAMES.
Proof. unfold pieceName. apply list_elem_of_lookup_2. Qed.

(** What marking the last move does to the cell [s]. *)
Lemma markLastMove_lookup_exact p b s :
  ∃ g, markLastMove p b !! s = g <$> b !! s ∧
    ∀ td, td_title (g td) = td_title td ∧
          td_children (g td) = td_children td ∧
          td_droppable (g td) = td_droppable td ∧
          ∀ c, c ∈ td_class (g td) ↔
               c ∈ td_class td ∨ (c = "last-move" ∧ lastMoveAt p s).
Proof.
  assert (∀ cs c, c ∈ addClass "last-move" cs ↔ c ∈ cs ∨ c = "last-move") as Hadd.
  { intros cs c. rewrite elem_of_addClass. change (classNames "last-move") with ["last-move"].
    set_solver. }
  unfold markLastMove, lastMoveAt. destruct (getLastMove p) as [m|].
  - rewrite !lookup_alter.
    destruct (decide (squareId (getTo m) = s)) as [<- |Hto];
      destruct (decide (squareId (getFrom m) = _)) as [Hfrom|Hfrom].
    + exists (td_mapClass (addClass "last-move") ∘ td_mapClass (addClass "last-move")).
      split; [rewrite Hfrom; by destruct (b !! _) |].
      intros td. do 3 (split; [done |]). intros c. simpl. rewrite !Hadd. naive_solver.
    + exists (td_mapClass (addClass "last-move")). split; [done |].
      intros td. do 3 (split; [done |]). intros c. simpl. rewrite Hadd. naive_solver.
    + exists (td_mapClass (addClass "last-move")). split; [by rewrite Hfrom |].
      intros td. do 3 (split; [done |]). intros c. simpl. rewrite Hadd. naive_solver.
    + exists id. split; [by destruct (b !! s) |].
      intros td. do 3 (split; [done |]). intros c. simpl. naive_solver.
  - exists id. split; [by destruct (b !! s) |].
    intros td. do 3 (split; [done |]). intros c. simpl. naive_solver.
Qed.

(** Any cell after [updatePieces]: [loopCell], and then possibly [last-move]. *)
Lemma updatePiecesBoard_lookup_exact p b s td' :
  coordinatesAgree →
  updatePiecesBoard p b !! s = Some td' →
  ∃ td, b !! s = Some td ∧
    td_title td' = td_title (loopCell p s td) ∧
    td_children td' = td_children (loopCell p s td) ∧
    td_droppable td' = td_droppable (loopCell p s td) ∧
    ∀ c, c ∈ td_class td' ↔
         c ∈ td_class (loopCell p s td) ∨ (c = "last-move" ∧ lastMoveAt p s).
Proof.
  intros Hc. unfold updatePiecesBoard.
  destruct (markLastMove_lookup_exact p
    (foldl (updateSquare p) (removePieces <$> b) (seq 0 (RANKS * FILES))) s)
    as (g & -> & Hg).
  rewrite foldl_updateSquare_lookup, lookup_fmap.
  - destruct (b !! s) as [td|] eqn:Htd; [|by destruct (List.find _ _)].
    intros Hlook. exists td. split; [done |].
    assert (td' = g (loopCell p s td)) as ->.
    { unfold loopCell. destruct (List.find _ _); simpl in Hlook; congruence. }
    destruct (Hg (loopCell p s td)) as (? & ? & ? & ?). done.
  - apply NoDup_seq.
  - intros i j Hi%elem_of_seq Hj%elem_of_seq. apply squareId_inj; [done | lia | lia].
Qed.

Lemma loopCell_title p s td : td_title (loopCell p s td) = td_title td.
Proof.
  unfold loopCell, squareStep.
  destruct (List.find _ (seq _ _)); [|done]. by destruct (List.find _ pieceScan).
Qed.

Lemma loopCell_droppable p s td : td_droppable (loopCell p s td) = td_droppable td.
Proof.
  unfold loopCell, squareStep.
  destruct (List.find _ (seq _ _)); [|done]. by destruct (List.find _ pieceScan).
Qed.

Lemma loopCell_at p index td :
  coordinatesAgree → index < RANKS * FILES →
  loopCell p (squareId index) td = squareStep p index (removePieces td).
Proof. intros Hc Hi. unfold loopCell. by rewrite find_squareId. Qed.

Lemma pieceClasses_other p index piece cs c :
  c ∉ classNames PIECE_CLASSES → c ∈ pieceClasses p index piece cs ↔ c ∈ cs.
Proof.
  intros Hc. rewrite elem_of_PIECE_CLASSES in Hc. unfold pieceClasses.
  rewrite !elem_of_toggleClass.
  change (classNames "turn") with ["turn"].
  change (classNames "black") with ["black"].
  change (classNames "white") with ["white"].
  assert (c ∈ addClassOpt (pieceName piece) cs ↔ c ∈ cs) as ->.
  { unfold addClassOpt. destruct (pieceName piece) as [name|] eqn:Hname; [|done].
    simpl. rewrite elem_of_addClass. apply pieceName_elem_of in Hname. naive_solver. }
  set_solver.
Qed.

(** The classes outside the vocabulary of [updatePieces] pass through the
    loops. *)
Lemma loopCell_other p s td c :
  c ∉ classNames PIECE_CLASSES → c ∈ td_class (loopCell p s td) ↔ c ∈ td_class td.
Proof.
  intros Hc.
  assert (c ∈ removeClass PIECE_CLASSES (td_class td) ↔ c ∈ td_class td) as Hremove.
  { rewrite elem_of_removeClass. tauto. }
  unfold loopCell, squareStep. destruct (List.find _ (seq _ _)); [|done].
  destruct (List.find _ pieceScan); [|done].
  simpl. by rewrite pieceClasses_other.
Qed.


Lemma td_class_rendered p index piece td :
  td_class (renderPiece p index piece (removePieces td))
  = pieceClasses p index piece (removeClass PIECE_CLASSES (td_class td)).
Proof. done. Qed.

Lemma td_class_removePieces td :
  td_class (removePieces td) = removeClass PIECE_CLASSES (td_class td).
Proof. done. Qed.

Lemma updatePieces_lookup_is_Some ui s td :
  board ui !! s = Some td → is_Some (board (updatePieces ui) !! s).
Proof.
  intros Htd. apply elem_of_dom. simpl. rewrite dom_updatePiecesBoard.
  apply elem_of_dom. by eexists.
Qed.

Lemma hasClass_ext c cs cs' : (c ∈ cs ↔ c ∈ cs') → hasClass c cs = hasClass c cs'.
Proof. intros Hiff. unfold hasClass. by apply bool_decide_ext. Qed.

Lemma occupied_find p index :
  occupied p index
  = bool_decide (is_Some
      (List.find (λ piece, isSet (getPieceBitboard p piece) index) pieceScan)).
Proof.
  unfold occupied. destruct (List.find _ pieceScan) as [piece|] eqn:Hfind.
  - rewrite bool_decide_eq_true_2 by by eexists.
    apply existsb_exists. exists piece. by apply find_some in Hfind.
  - rewrite bool_decide_eq_false_2 by by intros [? ?].
    apply not_true_is_false. intros (piece & Hin & Hset)%existsb_exists.
    by rewrite (find_none _ _ Hfind piece Hin) in Hset.
Qed.

(** X3: after [updatePieces], the cell of an index carries [last-move]
    exactly if the position reports a last move that starts or ends on that
    index; a [last-move] left by an earlier pass is removed first. (Piece
    names are not [last-move]; the last move lies on the board.) *)
Theorem updatePieces_marks_last_move ui index td :
  coordinatesAgree → index < RANKS * FILES →
  board ui !! squareId index = Some td →
  (∀ name, name ∈ PIECE_NAMES → "last-move" ∉ classNames name) →
  (∀ lastMove, getLastMove (chessPosition ui) = Some lastMove →
     getFrom lastMove < RANKS * FILES ∧ getTo lastMove < RANKS * FILES) →
  cellTagged "last-move" (board (updatePieces ui)) index = true ↔
  ∃ lastMove, getLastMove (chessPosition ui) = Some lastMove ∧
    (getFrom lastMove = index ∨ getTo lastMove = index).
Proof.
  intros Hc Hi Htd Hnames Hrange.
  destruct (updatePieces_lookup_is_Some ui _ td Htd) as [td' Hlook].
  unfold cellTagged. rewrite Hlook. simpl. rewrite hasClass_true.
  simpl in Hlook.
  apply updatePiecesBoard_lookup_exact in Hlook as (td0 & Htd0 & _ & _ & _ & Hclass);
    [|done].
  assert (td0 = td) as -> by congruence.
  assert ("last-move" ∉ td_class (loopCell (chessPosition ui) (squareId index) td))
    as Hloop.
  { assert ("last-move" ∉ removeClass PIECE_CLASSES (td_class td)) as Hremoved.
    { rewrite elem_of_removeClass, elem_of_PIECE_CLASSES. set_solver. }
    rewrite loopCell_at by done. unfold squareStep.
    destruct (List.find _ pieceScan) as [piece|]; [|done]. simpl.
    unfold pieceClasses. rewrite !elem_of_toggleClass.
    change (classNames "turn") with ["turn"].
    change (classNames "black") with ["black"].
    change (classNames "white") with ["white"].
    assert ("last-move" ∉ addClassOpt (pieceName piece)
              (removeClass PIECE_CLASSES (td_class td))) as Hadd.
    { unfold addClassOpt. destruct (pieceName piece) as [name|] eqn:Hname; [|done].
      simpl. rewrite elem_of_addClass. apply pieceName_elem_of in Hname.
      specialize (Hnames name Hname). tauto. }
    set_solver. }
  rewrite Hclass. unfold lastMoveAt. split.
  - intros [Hin | [_ (m & Hm & Hat)]]; [done |]. exists m. split; [done |].
    destruct (Hrange m Hm) as [Hfrom Hto].
    destruct Hat as [Heq | Heq]; [left | right]; by apply squareId_inj.
  - intros (m & Hm & [<- | <-]); right; (split; [done |]); exists m; eauto.
Qed.

(** X4: after [updatePieces], the cell itself carries [white], [black] and
    [turn] exactly as its piece node does, and none of them when no piece
    type contains its index, whatever classes it had before; and of the piece
    names it carries exactly that of the first piece type of the scan that
    contains its index. Tags are recomputed, never accumulated. *)
Theorem updatePieces_cell_tags ui index td :
  coordinatesAgree → index < RANKS * FILES →
  board ui !! squareId index = Some td →
  cellTagged "white" (board (updatePieces ui)) index
    = occupied (chessPosition ui) index
      && isSet (getColorBitboard (chessPosition ui) WHITE) index ∧
  cellTagged "black" (board (updatePieces ui)) index
    = occupied (chessPosition ui) index
      && isSet (getColorBitboard (chessPosition ui) BLACK) index ∧
  cellTagged "turn" (board (updatePieces ui)) index
    = occupied (chessPosition ui) index
      && isSet (getColorBitboard (chessPosition ui)
                  (getTurnColor (chessPosition ui))) index ∧
  (Forall pieceClassName PIECE_NAMES →
   ∀ name, name ∈ PIECE_NAMES →
     cellTagged name (board (updatePieces ui)) index = true ↔
     ∃ piece, firstPieceAt (chessPosition ui) index piece ∧
              pieceName piece = Some name).
Proof.
  intros Hc Hi Htd.
  destruct (updatePieces_lookup_is_Some ui _ td Htd) as [td' Hlook].
  unfold cellTagged. rewrite Hlook. simpl. simpl in Hlook.
  apply updatePiecesBoard_lookup_exact in Hlook as (td0 & Htd0 & _ & _ & _ & Hclass);
    [|done].
  assert (td0 = td) as -> by congruence.
  rewrite loopCell_at in Hclass by done.
  assert (∀ c, c ≠ "last-move" →
            hasClass c (td_class td')
            = hasClass c (td_class (squareStep (chessPosition ui) index (removePieces td))))
    as Hview.
  { intros c Hne. apply hasClass_ext. rewrite Hclass. naive_solver. }
  assert (∀ c, c ∈ ["white"; "black"; "turn"] →
            hasClass c (removeClass PIECE_CLASSES (td_class td)) = false) as Hremoved.
  { intros c Hin. apply hasClass_false. rewrite elem_of_removeClass, elem_of_PIECE_CLASSES.
    set_solver. }
  rewrite !Hview by done. rewrite occupied_find. unfold squareStep.
  destruct (List.find _ pieceScan) as [piece|] eqn:Hfind.
  - rewrite bool_decide_eq_true_2 by by eexists. simpl.
    rewrite pieceClasses_white, pieceClasses_black, pieceClasses_turn.
    do 3 (split; [done |]).
    intros Hproper name Hname. rewrite Forall_forall in Hproper.
    destruct (Hproper name Hname) as [[Htoken Hcolour] Hlast].
    rewrite Hview by done. unfold squareStep. rewrite Hfind.
    rewrite td_class_rendered, hasClass_true.
    unfold pieceClasses. rewrite !elem_of_toggleClass.
    change (classNames "turn") with ["turn"].
    change (classNames "black") with ["black"].
    change (classNames "white") with ["white"].
    assert (name ∈ addClassOpt (pieceName piece) (removeClass PIECE_CLASSES (td_class td))
            ↔ pieceName piece = Some name) as Hadd.
    { unfold addClassOpt. destruct (pieceName piece) as [name'|] eqn:Hname'; simpl.
      - rewrite elem_of_addClass, elem_of_removeClass, elem_of_PIECE_CLASSES.
        apply pieceName_elem_of in Hname'.
        destruct (Hproper name' Hname') as [[Htoken' _] _]. rewrite Htoken'.
        split; [|intros [= ->]; set_solver].
        intros [[_ Hnot] | ->%list_elem_of_singleton]; [|done].
        exfalso. apply Hnot. right. exists name. rewrite Htoken. set_solver.
      - rewrite elem_of_removeClass, elem_of_PIECE_CLASSES. split; [|done].
        intros [_ Hnot]. exfalso. apply Hnot. right. exists name.
        rewrite Htoken. set_solver. }
    apply find_firstPieceAt in Hfind. split.
    + intros Hin. exists piece. split; [done |]. apply Hadd. set_solver.
    + intros (piece' & Hfirst' & Hname').
      assert (piece' = piece) as ->.
      { apply find_firstPieceAt in Hfind, Hfirst'. congruence. }
      apply Hadd in Hname'. set_solver.
  - rewrite bool_decide_eq_false_2 by by intros [? ?]. simpl.
    rewrite !Hremoved by set_solver. do 3 (split; [done |]).
    intros Hproper name Hname. rewrite Forall_forall in Hproper.
    destruct (Hproper name Hname) as [[Htoken Hcolour] Hlast].
    rewrite Hview by done. unfold squareStep. rewrite Hfind.
    rewrite td_class_removePieces, hasClass_true.
    rewrite elem_of_removeClass, elem_of_PIECE_CLASSES. split.
    + intros [_ Hnot]. exfalso. apply Hnot. right. exists name.
      rewrite Htoken. set_solver.
    + intros (piece & Hfirst%find_firstPieceAt & _). congruence.
Qed.

(** X5: [updatePieces] touches nothing but the piece nodes and its own
    classes: the position, the captured moves and the drag flag stay, the
    board keeps its cells, and every cell keeps its title, its drop binding
    and every class that is not [white], [black], [turn], [last-move] or part
    of a piece name (so [light], [dark], [can-move] and the hover tags pass
    through). *)
Theorem updatePieces_frame ui :
  coordinatesAgree →
  chessPosition (updatePieces ui) = chessPosition ui ∧
  moves (updatePieces ui) = moves ui ∧
  dragging (updatePieces ui) = dragging ui ∧
  dom (board (updatePieces ui)) = dom (board ui) ∧
  ∀ s td', board (updatePieces ui) !! s = Some td' →
    ∃ td, board ui !! s = Some td ∧
      td_title td' = td_title td ∧
      td_droppable td' = td_droppable td ∧
      ∀ c, c ∉ classNames PIECE_CLASSES → c ∈ td_class td' ↔ c ∈ td_class td.
Proof.
  intros Hc. do 3 (split; [done |]). split; [apply dom_updatePiecesBoard |].
  intros s td' Hlook. simpl in Hlook.
  apply updatePiecesBoard_lookup_exact in Hlook
    as (td & Htd & Htitle & _ & Hdrop & Hclass); [|done].
  exists td. split; [done |].
  rewrite loopCell_title in Htitle. rewrite loopCell_droppable in Hdrop.
  do 2 (split; [done |]). intros c Hother. rewrite Hclass, loopCell_other by done.
  rewrite elem_of_PIECE_CLASSES in Hother. set_solver.
Qed.

End PieceSyncCells.

(** ** More on the hover handlers *)

Section HoverMore.
Context `{ChessEngine}.
Implicit Types (p : Position) (b : Board) (ui : UI) (td : Td) (d : Div).
Implicit Types (c s sq : string) (cs : gset string).

(** The hover handler, cell by cell. *)
Lemma mouseenterHandler_lookup ui sq k s :
  dragging ui = false → is_Some (board ui !! sq) →
  board (mouseenterHandler sq k ui) !! s = hoverCell (moves ui) sq k s <$> board ui !! s.
Proof.
  intros Hdrag [tdsq Hsq]. unfold mouseenterHandler, hoverCell. rewrite Hdrag.
  set (from := getIndexFromAlgebraic sq).
  set (isFrom := existsb (λ move, (getFrom move =? from)%nat) (moves ui)).
  assert (from_option (selectionHasClass "from" k) false
            (alter (td_mapClassChild k (toggleClass "from" isFrom)) sq (board ui) !! sq)
          = isFrom) as Hcond.
  { rewrite lookup_alter_eq, Hsq. simpl. unfold selectionHasClass. simpl.
    rewrite hasClass_toggle_same by done. destruct isFrom; [done |]. simpl.
    rewrite list_lookup_alter_eq. destruct (td_children tdsq !! k) as [d|]; [|done].
    simpl. exact (hasClass_toggle_same "from" false _ eq_refl). }
  cbn zeta. simpl board at 1. rewrite Hcond. destruct isFrom eqn:HisFrom.
  - simpl.
    change (markDestination from)
      with (tagStep (λ move, squareId (getTo move)) destinationClasses
              (λ move, (getFrom move =? from)%nat)).
    unfold clearDraggingBoard.
    destruct (decide (sq = s)) as [<- |Hne].
    + rewrite lookup_alter_eq, !lookup_fmap, foldl_tagStep_lookup, lookup_alter_eq.
      by destruct (board ui !! sq).
    + rewrite lookup_alter_ne by done.
      rewrite !lookup_fmap, foldl_tagStep_lookup, lookup_alter_ne by done.
      by destruct (board ui !! s).
  - simpl. destruct (decide (sq = s)) as [<- |Hne].
    + by rewrite lookup_alter_eq.
    + rewrite lookup_alter_ne by done. by destruct (board ui !! s).
Qed.

Lemma mouseenterHandler_fields ui sq k :
  chessPosition (mouseenterHandler sq k ui) = chessPosition ui ∧
  moves (mouseenterHandler sq k ui) = moves ui ∧
  dragging (mouseenterHandler sq k ui) = dragging ui.
Proof.
  unfold mouseenterHandler. destruct (dragging ui) eqn:Hdrag; [done |].
  cbn zeta. by destruct (from_option _ false _).
Qed.

Lemma mouseenter_handler ui sq k d :
  board ui !! sq ≫= (λ t, td_children t !! k) = Some d → div_hover d = true →
  mouseenter sq k ui = mouseenterHandler sq k ui ∧ is_Some (board ui !! sq).
Proof.
  intros Hd Hhover. unfold mouseenter. rewrite Hd, Hhover. split; [done |].
  destruct (board ui !! sq); [by eexists | done].
Qed.

Lemma td_class_alterChild k f td : td_class (td_alterChild k f td) = td_class td.
Proof. done. Qed.
Lemma td_children_alterChild k f td :
  td_children (td_alterChild k f td) = alter f k (td_children td).
Proof. done. Qed.
Lemma td_droppable_alterChild k f td :
  td_droppable (td_alterChild k f td) = td_droppable td.
Proof. done. Qed.
Lemma td_class_makeDroppable from td : td_class (makeDroppable from td) = td_class td.
Proof. unfold makeDroppable. by destruct (hasClass "to" _). Qed.
Lemma td_children_makeDroppable from td :
  td_children (makeDroppable from td) = td_children td.
Proof. unfold makeDroppable. by destruct (hasClass "to" _). Qed.
Lemma td_droppable_makeDroppable from td :
  td_droppable (makeDroppable from td)
  = if hasClass "to" (td_class td) then Some from else td_droppable td.
Proof. unfold makeDroppable. by destruct (hasClass "to" _). Qed.
Lemma td_class_destroyed td :
  td_class (destroyDroppable (td_mapChildren destroyDraggable td)) = td_class td.
Proof. done. Qed.
Lemma td_children_destroyed td :
  td_children (destroyDroppable (td_mapChildren destroyDraggable td))
  = destroyDraggable <$> td_children td.
Proof. done. Qed.
Lemma td_droppable_destroyed td :
  td_droppable (destroyDroppable (td_mapChildren destroyDraggable td)) = None.
Proof. done. Qed.
Lemma td_class_mapClassAll f td : td_class (td_mapClassAll f td) = f (td_class td).
Proof. done. Qed.
Lemma td_children_mapClassAll f td :
  td_children (td_mapClassAll f td) = div_mapClass f <$> td_children td.
Proof. done. Qed.
Lemma td_droppable_mapClassAll f td :
  td_droppable (td_mapClassAll f td) = td_droppable td.
Proof. done. Qed.
Lemma td_class_mapClassChild k f td : td_class (td_mapClassChild k f td) = f (td_class td).
Proof. done. Qed.
Lemma td_children_mapClassChild k f td :
  td_children (td_mapClassChild k f td) = alter (div_mapClass f) k (td_children td).
Proof. done. Qed.
Lemma td_droppable_mapClassChild k f td :
  td_droppable (td_mapClassChild k f td) = td_droppable td.
Proof. done. Qed.

Ltac cells :=
  rewrite ?td_class_alterChild, ?td_children_alterChild, ?td_droppable_alterChild,
    ?td_class_makeDroppable, ?td_children_makeDroppable, ?td_droppable_makeDroppable,
    ?td_class_destroyed, ?td_children_destroyed, ?td_droppable_destroyed,
    ?td_class_mapClassAll, ?td_children_mapClassAll, ?td_droppable_mapClassAll,
    ?td_class_mapClassChild, ?td_children_mapClassChild, ?td_droppable_mapClassChild.

(** A piece node after the hover handler: its hover binding is as before,
    and it is draggable only if it is the hovered node (or, when no move
    starts on the hovered square, if it was draggable before). *)
Lemma hoverCell_node (mvs : list Move) sq k s td j d' :
  td_children (hoverCell mvs sq k s td) !! j = Some d' →
  ∃ d, td_children td !! j = Some d ∧ div_hover d' = div_hover d ∧
    (div_draggable d' = true → div_draggable d = true ∨ (s = sq ∧ j = k)).
Proof.
  unfold hoverCell. cbn zeta.
  destruct (existsb _ mvs); destruct (decide (sq = s)) as [<- |Hne]; unfold id; cells;
    try (destruct (decide (k = j)) as [<- |Hkj];
         rewrite ?list_lookup_alter_eq, ?list_lookup_alter_ne by done);
    rewrite ?list_lookup_fmap;
    rewrite ?list_lookup_alter_eq, ?list_lookup_alter_ne by done;
    destruct (td_children td !! _) as [d|]; simpl; try done;
    intros [= <-]; exists d; (split; [done |]); (split; [done |]); simpl;
    auto; discriminate.
Qed.

(** X6: hovering a bound piece node from whose square a legal move starts,
    with no drag under way, arms that square: its cell is tagged [from], the
    hovered node is the only draggable piece node of the board, and a cell
    has a drop binding exactly if it carries [to], with the hovered origin
    captured; bindings of an earlier hover are gone. Position, captured
    moves and drag flag are untouched. *)
Theorem mouseenter_arms ui sq k d :
  dragging ui = false →
  board ui !! sq ≫= (λ t, td_children t !! k) = Some d →
  div_hover d = true →
  (∃ move, move ∈ moves ui ∧ getFrom move = getIndexFromAlgebraic sq) →
  chessPosition (mouseenter sq k ui) = chessPosition ui ∧
  moves (mouseenter sq k ui) = moves ui ∧
  dragging (mouseenter sq k ui) = false ∧
  ∀ s td', board (mouseenter sq k ui) !! s = Some td' →
    td_droppable td'
      = (if hasClass "to" (td_class td')
         then Some (getIndexFromAlgebraic sq) else None) ∧
    (∀ j d', td_children td' !! j = Some d' →
       div_draggable d' = bool_decide (s = sq ∧ j = k)) ∧
    (s = sq → hasClass "from" (td_class td') = true).
Proof.
  intros Hdrag Hd Hhover Hmove.
  destruct (mouseenter_handler ui sq k d Hd Hhover) as [-> Hsq].
  destruct (mouseenterHandler_fields ui sq k) as (Hp & Hm & Hdr).
  split; [done |]. split; [done |]. split; [congruence |].
  intros s td'. rewrite mouseenterHandler_lookup by done.
  destruct (board ui !! s) as [td|]; [|done]. intros [= <-].
  unfold hoverCell. apply existsb_getFrom in Hmove. rewrite Hmove. cbn zeta.
  destruct (decide (sq = s)) as [<- |Hne]; unfold id; cells.
  - split; [done |]. split.
    + intros j d'. destruct (decide (k = j)) as [<- |Hkj].
      * rewrite list_lookup_alter_eq, !list_lookup_fmap, list_lookup_alter_eq.
        rewrite bool_decide_eq_true_2 by done.
        destruct (td_children td !! k); simpl; [by intros [= <-] | done].
      * rewrite list_lookup_alter_ne, !list_lookup_fmap, list_lookup_alter_ne by done.
        rewrite bool_decide_eq_false_2 by (intros [_ ->]; done).
        destruct (td_children td !! j); simpl; [by intros [= <-] | done].
    + intros _. apply hasClass_true, elem_of_addClasses. left.
      apply elem_of_toggleClass. right. split; [done |]. right. by_evaluation.
  - split; [done |]. split; [|by intros ->].
    intros j d'. rewrite !list_lookup_fmap.
    rewrite bool_decide_eq_false_2 by (intros [-> _]; done).
    destruct (td_children td !! j); simpl; [by intros [= <-] | done].
Qed.

(** While a drag is under way the two hover handlers return at once. *)
Lemma hover_handle_dragging e ui :
  dragging ui = true → isHover e = true → handle e ui = Done ui.
Proof.
  intros Hdrag Hhover. destruct e as [sq k | sq k | | |]; try done; simpl.
  - unfold mouseenter. destruct (_ ≫= _) as [d|]; [|done].
    destruct (div_hover d); [|done]. unfold mouseenterHandler. by rewrite Hdrag.
  - unfold mouseleave. destruct (_ ≫= _) as [d|]; [|done].
    destruct (div_hover d); [|done]. unfold mouseleaveHandler. by rewrite Hdrag.
Qed.

(** X8: between the start and the stop of a drag, the pointer entering and
    leaving pieces changes nothing, however often it happens: the highlight
    and the bindings of the armed square survive the whole gesture. *)
Theorem hover_ignored_while_dragging events ui :
  dragging ui = true → forallb isHover events = true → run events ui = Some ui.
Proof.
  intros Hdrag. induction events as [|e events IH]; simpl; [done |].
  intros [He Hevents]%andb_true_iff.
  rewrite (hover_handle_dragging e ui Hdrag He). by apply IH.
Qed.

End HoverMore.

(** ** The page over a whole session *)

Section Session.
Context `{ChessEngine}.
Implicit Types (p : Position) (b : Board) (ui : UI) (td : Td) (d : Div).
Implicit Types (c s sq : string) (cs : gset string) (replies : list bool).

(** *** Properties of every cell *)

Lemma cells_alter (Q : Td → Prop) f s b :
  (∀ td, Q td → Q (f td)) →
  map_Forall (λ _, Q) b → map_Forall (λ _, Q) (alter f s b).
Proof.
  intros Hf Hb s' td. rewrite lookup_alter. case_decide; [subst s' | apply Hb].
  destruct (b !! s) as [td0|] eqn:Hlook; simpl; [|done].
  intros [= <-]. by eapply Hf, Hb.
Qed.

Lemma cells_foldl {A} (Q : Td → Prop) (step : Board → A → Board) (l : list A) b :
  (∀ b' x, map_Forall (λ _, Q) b' → map_Forall (λ _, Q) (step b' x)) →
  map_Forall (λ _, Q) b → map_Forall (λ _, Q) (foldl step b l).
Proof. intros Hstep. revert b. induction l; simpl; eauto. Qed.

Lemma cells_fmap (P Q : Td → Prop) (f : Td → Td) b :
  (∀ td, P td → Q (f td)) →
  map_Forall (λ _, P) b → map_Forall (λ _, Q) (f <$> b).
Proof.
  intros Hf Hb s td. rewrite lookup_fmap.
  destruct (b !! s) as [td0|] eqn:Hlook; simpl; [|done].
  intros [= <-]. by eapply Hf, Hb.
Qed.

(** What holds of every cell after [updatePieces], from what the emptied
    cell, the rendering of a piece and the last-move mark preserve. *)
Lemma updatePiecesBoard_cells (P Q : Td → Prop) p b :
  (∀ td, P td → Q (removePieces td)) →
  (∀ index piece td, Q td → Q (renderPiece p index piece td)) →
  (∀ td, Q td → Q (td_mapClass (addClass "last-move") td)) →
  map_Forall (λ _, P) b → map_Forall (λ _, Q) (updatePiecesBoard p b).
Proof.
  intros Hremove Hrender Hlast Hb. unfold updatePiecesBoard.
  assert (map_Forall (λ _, Q)
            (foldl (updateSquare p) (removePieces <$> b) (seq 0 (RANKS * FILES))))
    as Hloop.
  { apply cells_foldl; [| by apply (cells_fmap P)].
    intros b' index Hb'. rewrite updateSquare_alter. apply cells_alter; [|done].
    intros td Htd. unfold squareStep. destruct (List.find _ pieceScan); eauto. }
  unfold markLastMove. destruct (getLastMove p); [|done].
  by do 2 (apply cells_alter; [done |]).
Qed.

Lemma board_resynchronize ui :
  board (resynchronize ui)
  = td_mapChildren bindHover <$>
      canMoveBoard (getMoves (chessPosition ui))
        (updatePiecesBoard (chessPosition ui)
           (clearDraggingBoard (clearMovingBoard (board ui)))).
Proof. reflexivity. Qed.

(** A cell after a resynchronization: the cell [updatePieces] made, with
    the [can-move] marks renewed and the hover handlers bound. *)
Lemma resynchronize_lookup ui s td :
  board (resynchronize ui) !! s = Some td →
  ∃ td0,
    updatePiecesBoard (chessPosition ui)
      (clearDraggingBoard (clearMovingBoard (board ui))) !! s = Some td0 ∧
    td = td_mapChildren bindHover
           (td_mapClassAll
              (addClasses
                 (tagsFor (λ move, squareId (getFrom move)) (λ _, ["can-move"])
                    (λ _, true) (getMoves (chessPosition ui)) s))
              (td_mapClassAll (removeClass "can-move") td0)).
Proof.
  rewrite board_resynchronize, lookup_fmap, canMoveBoard_lookup.
  destruct (updatePiecesBoard _ _ !! s) as [td0|]; simpl; [|done].
  intros [= <-]. by exists td0.
Qed.

Lemma elem_of_canMove_class (mvs : list Move) s cs c :
  c ∈ addClasses
        (tagsFor (λ move, squareId (getFrom move)) (λ _, ["can-move"]) (λ _, true) mvs s)
        (removeClass "can-move" cs) ↔
  (c ∈ cs ∧ c ≠ "can-move") ∨
  (c = "can-move" ∧ ∃ move, move ∈ mvs ∧ squareId (getFrom move) = s).
Proof.
  rewrite elem_of_addClasses. setoid_rewrite elem_of_tagsFor.
  rewrite elem_of_removeClass. change (classNames "can-move") with ["can-move"].
  split.
  - intros [[Hin Hnot] | (x & (move & Hin & _ & Hkey & Hx) & Hc)].
    + left. set_solver.
    + right. apply list_elem_of_singleton in Hx as ->.
      change (classNames "can-move") with ["can-move"] in Hc.
      apply list_elem_of_singleton in Hc as ->. eauto.
  - intros [[Hin Hne] | [-> (move & Hin & Hkey)]].
    + left. set_solver.
    + right. exists "can-move". split; [exists move |]; set_solver.
Qed.

Lemma resynchronize_cell ui s td :
  board (resynchronize ui) !! s = Some td →
  td_droppable td = None ∧
  (hasClass "can-move" (td_class td) = true ↔ originAt (chessPosition ui) s) ∧
  ∀ d, d ∈ td_children td →
    div_draggable d = false ∧ (div_hover d = true ↔ originAt (chessPosition ui) s).
Proof.
  intros (td0 & Htd0 & ->)%resynchronize_lookup.
  assert (unbound td0) as [Hdrop Hnodes].
  { revert s td0 Htd0.
    apply (updatePiecesBoard_cells (λ td, td_droppable td = None) unbound).
    - intros td Htd. split; [done | constructor].
    - intros index piece td [Hd Hn]. split; [done |]. simpl.
      apply Forall_app. split; [done |]. by apply Forall_singleton.
    - by intros td [Hd Hn].
    - unfold clearDraggingBoard. apply (cells_fmap (λ _, True)); [done |].
      by intros s td _. }
  split; [done |]. split.
  { simpl. rewrite hasClass_true, elem_of_canMove_class. unfold originAt.
    naive_solver. }
  intros d Hd. simpl in Hd.
  apply list_elem_of_fmap in Hd as (d1 & -> & Hd).
  apply list_elem_of_fmap in Hd as (d2 & -> & Hd).
  apply list_elem_of_fmap in Hd as (d0 & -> & Hd).
  rewrite Forall_forall in Hnodes. destruct (Hnodes d0 Hd) as [Hhover Hdrag].
  split; [done |]. simpl. rewrite Hhover. simpl.
  rewrite hasClass_true, elem_of_canMove_class. unfold originAt. naive_solver.
Qed.

(** What holds of the page whenever [updateChessPosition] returns or blocks
    in a confirmation: it holds after every resynchronization, and a
    confirmation does not touch it. *)
Lemma updateChessPosition_final (J P : UI → Prop) :
  (∀ ui0, J ui0 → P (resynchronize ui0)) →
  (∀ call ui0, P ui0 → P (record call ui0)) →
  (∀ call ui0, J ui0 → J (resetPosition (record call (resynchronize ui0)))) →
  ∀ replies ui, J ui → P (finalUI (updateChessPosition replies ui)).
Proof.
  intros Hsync Hrecord Hreset replies.
  induction replies as [|reply rest IH]; intros ui HJ;
    rewrite updateChessPosition_eq; destruct (prompt (chessPosition ui));
    cbn [finalUI]; eauto.
  cbn zeta. destruct reply; cbn [finalUI]; [|eauto].
  unfold reset. by apply IH, Hreset.
Qed.

(** X9: whenever [updateChessPosition] returns, or blocks in a confirmation,
    the page is idle: the [#dim] overlay is hidden, no drag is under way, the
    handlers filter the legal
    moves of the position then current, no cell accepts a drop, no piece
    node can be dragged, and a piece node reacts to the pointer exactly if a
    legal move starts on its cell. *)
Theorem updateChessPosition_idle replies ui :
  dimHidden (finalUI (updateChessPosition replies ui)) = true ∧
  dragging (finalUI (updateChessPosition replies ui)) = false ∧
  moves (finalUI (updateChessPosition replies ui))
    = getMoves (chessPosition (finalUI (updateChessPosition replies ui))) ∧
  ∀ s td, board (finalUI (updateChessPosition replies ui)) !! s = Some td →
    td_droppable td = None ∧
    ∀ d, d ∈ td_children td →
      div_draggable d = false ∧
      (div_hover d = true ↔
       ∃ move,
         move ∈ getMoves (chessPosition (finalUI (updateChessPosition replies ui))) ∧
         squareId (getFrom move) = s).
Proof.
  apply (updateChessPosition_final (λ _, True)
    (λ ui', dimHidden ui' = true ∧ dragging ui' = false ∧
       moves ui' = getMoves (chessPosition ui') ∧
       ∀ s td, board ui' !! s = Some td →
         td_droppable td = None ∧
         ∀ d, d ∈ td_children td →
           div_draggable d = false ∧
           (div_hover d = true ↔ originAt (chessPosition ui') s))); try done.
  intros ui0 _. do 3 (split; [done |]).
  intros s td Htd. rewrite chessPosition_resynchronize.
  destruct (resynchronize_cell ui0 s td Htd) as (Hdrop & _ & Hnodes). by split.
Qed.

(** *** What the pointer leaves alone *)

Lemma softNode_refl d : softNode d d.
Proof. by repeat split. Qed.

Lemma softNode_trans d1 d2 d3 : softNode d1 d2 → softNode d2 d3 → softNode d1 d3.
Proof.
  intros (Ht1 & Hx1 & Hh1 & Hc1) (Ht2 & Hx2 & Hh2 & Hc2).
  repeat split; try congruence; intros Hin; [apply Hc1, Hc2 | apply Hc2, Hc1]; done.
Qed.

Lemma soft_refl td : soft td td.
Proof.
  split; [done |]. split; [done |].
  apply Forall_Forall2_diag, Forall_forall. intros d _. apply softNode_refl.
Qed.

Lemma soft_trans td1 td2 td3 : soft td1 td2 → soft td2 td3 → soft td1 td3.
Proof.
  intros (Ht1 & Hc1 & Hn1) (Ht2 & Hc2 & Hn2). split; [congruence |]. split.
  - intros c Hc. by rewrite Hc2, Hc1.
  - eapply Forall2_trans; [| exact Hn1 | exact Hn2]. apply softNode_trans.
Qed.

Lemma softNode_mapClass f d : movingOnly f → softNode d (div_mapClass f d).
Proof. intros Hf. repeat split; simpl; by apply Hf. Qed.

Lemma soft_mapClassChild k f td : movingOnly f → soft td (td_mapClassChild k f td).
Proof.
  intros Hf. split; [done |]. split; [intros c Hc; by apply Hf |].
  simpl. apply Forall2_alter_r.
  - apply Forall_Forall2_diag, Forall_forall. intros d _. apply softNode_refl.
  - intros d d' _ _ Hd. eapply softNode_trans; [exact Hd |]. by apply softNode_mapClass.
Qed.

Lemma soft_mapClassAll f td : movingOnly f → soft td (td_mapClassAll f td).
Proof.
  intros Hf. split; [done |]. split; [intros c Hc; by apply Hf |].
  simpl. apply Forall2_fmap_r, Forall_Forall2_diag, Forall_forall.
  intros d _. by apply softNode_mapClass.
Qed.

Lemma soft_clearDragging td :
  soft td (destroyDroppable (td_mapChildren destroyDraggable td)).
Proof.
  split; [done |]. split; [done |].
  simpl. apply Forall2_fmap_r, Forall_Forall2_diag, Forall_forall.
  intros d _. by repeat split.
Qed.

Lemma soft_makeDroppable from td : soft td (makeDroppable from td).
Proof.
  unfold makeDroppable. destruct (hasClass "to" _); [|apply soft_refl].
  split; [done |]. split; [done |].
  simpl. apply Forall_Forall2_diag, Forall_forall. intros d _. apply softNode_refl.
Qed.

Lemma soft_makeDraggable k td : soft td (td_alterChild k makeDraggable td).
Proof.
  split; [done |]. split; [done |].
  simpl. apply Forall2_alter_r.
  - apply Forall_Forall2_diag, Forall_forall. intros d _. apply softNode_refl.
  - intros d d' _ _ Hd. eapply softNode_trans; [exact Hd |]. by repeat split.
Qed.

Lemma movingOnly_toggle_from state : movingOnly (toggleClass "from" state).
Proof.
  intros cs c Hc. rewrite elem_of_toggleClass.
  change (classNames "from") with ["from"].
  assert (c ≠ "from") as Hne by (intros ->; apply Hc; by_evaluation).
  clear Hc. rewrite list_elem_of_singleton. destruct state; intuition congruence.
Qed.

Lemma movingOnly_removeMoving : movingOnly (removeClass MOVING_CLASSES).
Proof. intros cs c Hc. rewrite elem_of_removeClass. tauto. Qed.

(** Every class the hover handler adds for a move is one that
    [clearMoving] removes. *)
Lemma destinationClasses_moving move x c :
  x ∈ destinationClasses move → c ∈ classNames x → c ∈ classNames MOVING_CLASSES.
Proof.
  unfold destinationClasses. intros Hx.
  repeat (apply elem_of_cons in Hx as [-> | Hx]); [.. | by apply elem_of_nil in Hx];
    repeat case_decide; repeat case_match;
    intros Hc; try (by apply elem_of_nil in Hc);
    apply list_elem_of_singleton in Hc as ->; by_evaluation.
Qed.

Lemma movingOnly_destinations (mvs : list Move) (guard : Move → bool) s :
  movingOnly
    (addClasses (tagsFor (λ move, squareId (getTo move)) destinationClasses guard mvs s)).
Proof.
  intros cs c Hc. rewrite elem_of_addClasses. split; [|by left].
  intros [Hin | (x & (move & _ & _ & _ & Hx)%elem_of_tagsFor & Hcx)]; [done |].
  destruct Hc. by eapply destinationClasses_moving.
Qed.

(** The hover handler changes a cell only in the classes [clearMoving]
    removes and in the widgets. *)
Lemma soft_hoverCell (mvs : list Move) sq k s td : soft td (hoverCell mvs sq k s td).
Proof.
  unfold hoverCell. cbn zeta.
  set (toggled :=
    (if decide (sq = s)
     then td_mapClassChild k (toggleClass "from" (existsb _ mvs)) else id) td).
  assert (soft td toggled) as Htoggled.
  { unfold toggled. destruct (decide (sq = s)); [|apply soft_refl].
    apply soft_mapClassChild, movingOnly_toggle_from. }
  destruct (existsb _ mvs); [|done].
  eapply soft_trans; [exact Htoggled |].
  eapply soft_trans; [apply soft_mapClassAll, movingOnly_destinations |].
  eapply soft_trans; [apply soft_clearDragging |].
  eapply soft_trans; [apply soft_makeDroppable |].
  destruct (decide (sq = s)); [apply soft_makeDraggable | apply soft_refl].
Qed.

Lemma soft_clearMoving td : soft td (td_mapClassAll (removeClass MOVING_CLASSES) td).
Proof. apply soft_mapClassAll, movingOnly_removeMoving. Qed.

Lemma movingFree_restore cs cs' :
  (∀ c, c ∉ classNames MOVING_CLASSES → c ∈ cs' ↔ c ∈ cs) →
  (∀ c, c ∈ classNames MOVING_CLASSES → c ∉ cs) →
  removeClass MOVING_CLASSES cs' = cs.
Proof.
  intros Hsoft Hfree. apply set_eq. intros c. rewrite elem_of_removeClass.
  destruct (decide (c ∈ classNames MOVING_CLASSES)) as [Hc|Hc].
  - split; [tauto |]. intros Hin. by destruct (Hfree c Hc).
  - rewrite (Hsoft c Hc). tauto.
Qed.

(** Removing the hover highlight from a cell that differs from a clean cell
    only in that highlight and in the widgets gives the look of the clean
    cell. *)
Lemma soft_restore td td' :
  soft td td' → movingFree td →
  appearance (td_mapClassAll (removeClass MOVING_CLASSES) td') = appearance td.
Proof.
  intros (Htitle & Hclass & Hnodes) [Hfree Hfrees]. unfold appearance. simpl.
  rewrite Htitle. f_equal; [f_equal; by apply movingFree_restore |].
  induction Hnodes as [|d d' l l' (Ht & Hx & Hh & Hc) _ IH]; [done |].
  apply Forall_cons in Hfrees as [Hd Hl]. simpl. f_equal; [|by apply IH].
  unfold nodeLook. simpl. rewrite Ht, Hx, Hh. do 3 f_equal.
  by apply movingFree_restore.
Qed.

Lemma mouseenter_lookup ui sq k d s :
  dragging ui = false →
  board ui !! sq ≫= (λ t, td_children t !! k) = Some d → div_hover d = true →
  board (mouseenter sq k ui) !! s = hoverCell (moves ui) sq k s <$> board ui !! s.
Proof.
  intros Hdrag Hd Hhover.
  destruct (mouseenter_handler ui sq k d Hd Hhover) as [-> Hsq].
  by apply mouseenterHandler_lookup.
Qed.

(** A node that reacts to the pointer still does after the hover handler. *)
Lemma mouseenter_still_bound ui sq k d :
  dragging ui = false →
  board ui !! sq ≫= (λ t, td_children t !! k) = Some d → div_hover d = true →
  ∃ d', board (mouseenter sq k ui) !! sq ≫= (λ t, td_children t !! k) = Some d' ∧
        div_hover d' = true.
Proof.
  intros Hdrag Hd Hhover.
  rewrite (mouseenter_lookup ui sq k d sq Hdrag Hd Hhover).
  destruct (board ui !! sq) as [td|]; [|done]. simpl in *.
  destruct (soft_hoverCell (moves ui) sq k sq td) as (_ & _ & Hnodes).
  destruct (Forall2_lookup_l _ _ _ _ _ Hnodes Hd) as (d' & Hd' & _ & _ & Hh & _).
  exists d'. split; [done | congruence].
Qed.

(** X7: on a page without hover highlight, the pointer entering a piece
    that reacts to it and leaving it again, with no drag under way, restores
    what the user sees of every cell and every piece node: classes, tooltips,
    texts and the nodes that react to the pointer. Only the drag and drop
    widgets that the hover attached stay attached. The position and the
    captured moves are untouched. *)
Theorem hover_leave_restores ui sq k d :
  dragging ui = false → noMovingClass (board ui) →
  board ui !! sq ≫= (λ t, td_children t !! k) = Some d → div_hover d = true →
  chessPosition (mouseleave sq k (mouseenter sq k ui)) = chessPosition ui ∧
  moves (mouseleave sq k (mouseenter sq k ui)) = moves ui ∧
  ∀ s, appearance <$> board (mouseleave sq k (mouseenter sq k ui)) !! s
       = appearance <$> board ui !! s.
Proof.
  intros Hdrag Hfree Hd Hhover.
  destruct (mouseenter_still_bound ui sq k d Hdrag Hd Hhover) as (d' & Hd' & Hhover').
  assert (mouseleave sq k (mouseenter sq k ui) = clearMoving (mouseenter sq k ui)) as ->.
  { unfold mouseleave. rewrite Hd', Hhover'. unfold mouseleaveHandler.
    destruct (mouseenter_handler ui sq k d Hd Hhover) as [-> _].
    destruct (mouseenterHandler_fields ui sq k) as (_ & _ & ->). by rewrite Hdrag. }
  destruct (mouseenter_handler ui sq k d Hd Hhover) as [Henter Hsq].
  destruct (mouseenterHandler_fields ui sq k) as (Hp & Hm & _).
  split; [by rewrite Henter |]. split; [by rewrite Henter |].
  intros s. change (board (clearMoving (mouseenter sq k ui)))
    with (clearMovingBoard (board (mouseenter sq k ui))).
  unfold clearMovingBoard.
  rewrite lookup_fmap, (mouseenter_lookup ui sq k d s Hdrag Hd Hhover).
  destruct (board ui !! s) as [td|] eqn:Htd; [|done]. simpl. f_equal.
  apply soft_restore; [apply soft_hoverCell | by apply (Hfree s)].
Qed.

(** *** After a resynchronization no highlight is left *)

Lemma pieceClasses_elem p index piece cs c :
  c ∈ pieceClasses p index piece cs →
  c ∈ cs ∨ c ∈ ["white"; "black"; "turn"] ∨
  ∃ name, name ∈ PIECE_NAMES ∧ c ∈ classNames name.
Proof.
  unfold pieceClasses. rewrite !elem_of_toggleClass.
  change (classNames "turn") with ["turn"].
  change (classNames "black") with ["black"].
  change (classNames "white") with ["white"].
  assert (c ∈ addClassOpt (pieceName piece) cs →
          c ∈ cs ∨ ∃ name, name ∈ PIECE_NAMES ∧ c ∈ classNames name) as Hname.
  { unfold addClassOpt. destruct (pieceName piece) as [name|] eqn:Hname; simpl; [|by left].
    rewrite elem_of_addClass. intros [Hin|Hin]; [by left | right].
    exists name. split; [by eapply pieceName_elem_of | done]. }
  rewrite !list_elem_of_singleton, !elem_of_cons.
  intros Hin.
  assert (c ∈ addClassOpt (pieceName piece) cs ∨ c = "white" ∨ c = "black" ∨ c = "turn")
    as [Hin' | Hcolour] by (clear Hname; tauto).
  - destruct (Hname Hin'); tauto.
  - tauto.
Qed.

Lemma not_moving_colour c :
  c ∈ classNames MOVING_CLASSES → c ∉ ["white"; "black"; "turn"].
Proof.
  intros Hc Hin.
  repeat (apply elem_of_cons in Hin as [-> | Hin]);
    [impossible_class Hc .. | by apply elem_of_nil in Hin].
Qed.

Lemma not_moving_can_move c : c ∈ classNames MOVING_CLASSES → c ≠ "can-move".
Proof. intros Hc ->. impossible_class Hc. Qed.

Lemma not_moving_last_move c : c ∈ classNames MOVING_CLASSES → c ≠ "last-move".
Proof. intros Hc ->. impossible_class Hc. Qed.

Lemma resynchronize_movingFree ui s td :
  (∀ name c, name ∈ PIECE_NAMES → c ∈ classNames name → c ∉ classNames MOVING_CLASSES) →
  board (resynchronize ui) !! s = Some td → movingFree td.
Proof.
  intros Hnames (td0 & Htd0 & ->)%resynchronize_lookup.
  assert (∀ index piece c cs,
            c ∈ classNames MOVING_CLASSES → c ∉ cs →
            c ∉ pieceClasses (chessPosition ui) index piece cs) as Hpiece.
  { intros index piece c cs Hc Hcs [Hin | [Hin | (name & Hname & Hin)]]%pieceClasses_elem.
    - done.
    - by apply (not_moving_colour c).
    - by apply (Hnames name c). }
  assert (movingFree td0) as [Hcls Hnodes].
  { revert s td0 Htd0.
    apply (updatePiecesBoard_cells
             (λ td, ∀ c, c ∈ classNames MOVING_CLASSES → c ∉ td_class td) movingFree).
    - intros td Htd. split; [|constructor].
      intros c Hc. simpl. rewrite elem_of_removeClass. intros [Hin _]. by apply (Htd c).
    - intros index piece td [Hcls Hnodes]. split.
      + intros c Hc. simpl. apply Hpiece; [done | by apply Hcls].
      + simpl. apply Forall_app. split; [done |]. apply Forall_singleton.
        intros c Hc. simpl. apply Hpiece; [done |]. apply not_elem_of_empty.
    - intros td [Hcls Hnodes]. split; [|done].
      intros c Hc. simpl. rewrite elem_of_addClass.
      change (classNames "last-move") with ["last-move"].
      rewrite list_elem_of_singleton. intros [Hin | Heq]; [by apply (Hcls c) |].
      by apply (not_moving_last_move c).
    - unfold clearDraggingBoard, clearMovingBoard.
      apply (cells_fmap (λ td, ∀ c, c ∈ classNames MOVING_CLASSES → c ∉ td_class td));
        [done |].
      apply (cells_fmap (λ _, True)); [|by intros s td _].
      intros td _ c Hc. simpl. rewrite elem_of_removeClass. tauto. }
  split.
  - intros c Hc. simpl. rewrite elem_of_canMove_class.
    intros [[Hin _] | [Heq _]]; [by apply (Hcls c) | by apply (not_moving_can_move c)].
  - simpl. rewrite !Forall_fmap. eapply Forall_impl; [exact Hnodes |].
    intros d Hd c Hc. simpl. rewrite elem_of_canMove_class.
    intros [[Hin _] | [Heq _]]; [by apply (Hd c) | by apply (not_moving_can_move c)].
Qed.

(** X10: whenever [updateChessPosition] returns, or blocks in a
    confirmation, no cell and no piece node carries [from], [to] or a subtype
    tag any more, whatever was highlighted before, provided no piece name is
    such a tag. *)
Theorem updateChessPosition_clears_highlight replies ui :
  (∀ name c, name ∈ PIECE_NAMES → c ∈ classNames name → c ∉ classNames MOVING_CLASSES) →
  noMovingClass (board (finalUI (updateChessPosition replies ui))).
Proof.
  intros Hnames.
  apply (updateChessPosition_final (λ _, True) (λ ui', noMovingClass (board ui')));
    try done.
  intros ui0 _ s td. by apply resynchronize_movingFree.
Qed.

(** *** The page follows the position *)

Lemma boardBuilt_dom b : boardBuilt makeBoard → dom b = dom makeBoard → boardBuilt b.
Proof.
  intros Hbuilt Hdom index Hindex.
  apply elem_of_dom. rewrite Hdom. apply elem_of_dom. by apply Hbuilt.
Qed.

Lemma pieceSquares_ext b b' :
  (∀ index, holdsPiece b' index = holdsPiece b index) → pieceSquares b' = pieceSquares b.
Proof.
  intros Hsame. unfold pieceSquares. f_equal. apply filter_ext. exact Hsame.
Qed.

Lemma soft_nonempty td td' :
  soft td td' → bool_decide (td_children td' ≠ []) = bool_decide (td_children td ≠ []).
Proof. intros (_ & _ & Hnodes). by destruct Hnodes. Qed.

Lemma soft_canMove td td' :
  soft td td' → hasClass "can-move" (td_class td') = hasClass "can-move" (td_class td).
Proof. intros (_ & Hclass & _). apply hasClass_ext, Hclass. by_evaluation. Qed.

Lemma soft_hover td td' d' :
  soft td td' → d' ∈ td_children td' →
  ∃ d, d ∈ td_children td ∧ div_hover d' = div_hover d.
Proof.
  intros (_ & _ & Hnodes) [j Hj]%list_elem_of_lookup.
  destruct (Forall2_lookup_r _ _ _ _ _ Hnodes Hj) as (d & Hd & _ & _ & Hh & _).
  exists d. split; [by eapply list_elem_of_lookup_2 | done].
Qed.

Lemma gentle_refl ui ui' :
  chessPosition ui' = chessPosition ui → moves ui' = moves ui → board ui' = board ui →
  gentle ui ui'.
Proof.
  intros Hp Hm Hb. split; [done |]. split; [done |]. intros s. rewrite Hb.
  destruct (board ui !! s); constructor. apply soft_refl.
Qed.

Lemma pageCurrent_gentle ui ui' : gentle ui ui' → pageCurrent ui → pageCurrent ui'.
Proof.
  intros (Hp & Hm & Hsoft) ((Hmoves & Hdom) & Hpieces & Hcells).
  split; [split |split].
  - by rewrite Hm, Hp.
  - rewrite <- Hdom. apply set_eq. intros s. rewrite !elem_of_dom.
    destruct (Hsoft s); [by split; intros _; eexists | done].
  - rewrite Hp, <- Hpieces. apply pieceSquares_ext. intros index. unfold holdsPiece.
    destruct (Hsoft (squareId index)) as [td td' Hs|]; simpl; [|done].
    by apply soft_nonempty.
  - intros s td' Htd'. rewrite Hp. pose proof (Hsoft s) as Hs. rewrite Htd' in Hs.
    inversion Hs as [td td'' Hsoft' Heq1 Heq2 |]; subst. symmetry in Heq1.
    destruct (Hcells s td Heq1) as [Hmark Hhover]. split.
    + by rewrite (soft_canMove td td').
    + intros d' Hd'. destruct (soft_hover td td' d' Hsoft' Hd') as (d & Hd & ->).
      by apply Hhover.
Qed.

Lemma pageCurrent_resynchronize ui :
  coordinatesAgree → boardBuilt makeBoard → dom (board ui) = dom makeBoard →
  pageCurrent (resynchronize ui).
Proof.
  intros Hc Hbuilt Hdom. split; [by apply synchronized_resynchronize |]. split.
  - rewrite chessPosition_resynchronize.
    set (cleared := clearDragging (clearMoving (record CallUpdateChessPosition ui))).
    transitivity (pieceSquares (board (updatePieces cleared))).
    + apply pieceSquares_ext. intros index. unfold holdsPiece.
      rewrite board_resynchronize, lookup_fmap, canMoveBoard_lookup.
      change (board (updatePieces cleared))
        with (updatePiecesBoard (chessPosition ui)
                (clearDraggingBoard (clearMovingBoard (board ui)))).
      destruct (updatePiecesBoard _ _ !! squareId index) as [td|]; simpl; [|done].
      by destruct (td_children td).
    + apply (updatePieces_pieceSquares cleared Hc). apply boardBuilt_dom; [done |].
      change (board cleared) with (clearDraggingBoard (clearMovingBoard (board ui))).
      by rewrite dom_clearDraggingBoard, dom_clearMovingBoard.
  - intros s td Htd. rewrite chessPosition_resynchronize.
    destruct (resynchronize_cell ui s td Htd) as (_ & Hmark & Hnodes).
    split; [done |]. intros d Hd. by apply Hnodes.
Qed.

(** What an event does: it leaves the position and changes the page only in
    hover highlight and widgets, or it submits a captured move that matches
    the drop and resynchronizes. *)
Lemma handle_cases e ui ui' :
  handle e ui = Done ui' →
  gentle ui ui' ∨
  ∃ replies move, move ∈ moves ui ∧
    updateChessPosition replies (submitted move ui) = Done ui'.
Proof.
  destruct e as [sq k | sq k | sq k | | sq replies]; simpl.
  - intros [= <-]. left. unfold mouseenter.
    destruct (board ui !! sq ≫= _) as [d|] eqn:Hd; [|by apply gentle_refl].
    destruct (div_hover d); [|by apply gentle_refl].
    destruct (dragging ui) eqn:Hdrag.
    { unfold mouseenterHandler. rewrite Hdrag. by apply gentle_refl. }
    destruct (mouseenterHandler_fields ui sq k) as (Hp & Hm & _).
    split; [done |]. split; [done |]. intros s.
    rewrite mouseenterHandler_lookup; [| done | by destruct (board ui !! sq)].
    destruct (board ui !! s); constructor. apply soft_hoverCell.
  - intros [= <-]. left. unfold mouseleave.
    destruct (board ui !! sq ≫= _) as [d|]; [|by apply gentle_refl].
    destruct (div_hover d); [|by apply gentle_refl].
    unfold mouseleaveHandler. destruct (dragging ui); [by apply gentle_refl |].
    split; [done |]. split; [done |]. intros s.
    change (board (clearMoving ui)) with (clearMovingBoard (board ui)).
    unfold clearMovingBoard. rewrite lookup_fmap.
    destruct (board ui !! s); constructor. apply soft_clearMoving.
  - intros [= <-]. left. unfold dragstart.
    destruct (board ui !! sq ≫= _) as [d|]; [|by apply gentle_refl].
    destruct (div_draggable d); by apply gentle_refl.
  - intros [= <-]. left. by apply gentle_refl.
  - unfold dropEvent.
    destruct (board ui !! sq ≫= td_droppable) as [from|];
      [|intros [= <-]; left; by apply gentle_refl].
    unfold dropHandler.
    destruct (List.filter _ (moves ui)) as [|move others] eqn:Hfilter.
    + intros [= <-]. left. split; [done |]. split; [done |]. intros s.
      rewrite clearMoving_clearDragging_lookup.
      destruct (board ui !! s); constructor.
      eapply soft_trans; [apply soft_clearMoving | apply soft_clearDragging].
    + intros Hdone. right. exists replies, move. split; [|exact Hdone].
      assert (In move (List.filter (matching from (getIndexFromAlgebraic sq)) (moves ui)))
        as [Hin _]%filter_In by (rewrite Hfilter; by left).
      by apply list_elem_of_In.
Qed.

Lemma pageCurrent_updateChessPosition replies ui ui' :
  coordinatesAgree → boardBuilt makeBoard → dom (board ui) = dom makeBoard →
  updateChessPosition replies ui = Done ui' → pageCurrent ui'.
Proof.
  intros Hc Hbuilt Hdom Hdone.
  pose proof (updateChessPosition_final
    (λ ui0, dom (board ui0) = dom makeBoard) pageCurrent) as Hfinal.
  specialize (Hfinal (λ ui0, pageCurrent_resynchronize ui0 Hc Hbuilt)).
  specialize (Hfinal (λ call ui0 Hpage, Hpage)).
  assert (∀ call ui0, dom (board ui0) = dom makeBoard →
            dom (board (resetPosition (record call (resynchronize ui0)))) = dom makeBoard)
    as Hreset.
  { intros call ui0 Hdom0.
    by rewrite dom_board_resetPosition, board_record, dom_resynchronize. }
  specialize (Hfinal Hreset replies ui Hdom). by rewrite Hdone in Hfinal.
Qed.

Lemma reachable_pageCurrent ui :
  coordinatesAgree → boardBuilt makeBoard → reachable ui → pageCurrent ui.
Proof.
  intros Hc Hbuilt. induction 1 as [replies ui Hstart | e ui ui' _ IH Hstep].
  - by apply (pageCurrent_updateChessPosition replies (newUI makeBoard)).
  - destruct (handle_cases e ui ui' Hstep) as [Hgentle | (replies & move & _ & Hdone)].
    + by apply (pageCurrent_gentle ui).
    + apply (pageCurrent_updateChessPosition replies (submitted move ui)); try done.
      by destruct IH as [[_ Hdom] _].
Qed.

(** X11: in every state in which the controller waits for an event,
    whatever the user did before, the handlers filter the legal moves of the
    current position and the squares with a piece node are those of its
    piece-type sets; with the origins of its legal moves on the board, the
    squares marked [can-move] are exactly these origins, and every piece
    node that reacts to the pointer stands on one of them, so that hovering
    it always finds a move to highlight. *)
Theorem reachable_page_current ui :
  coordinatesAgree → boardBuilt makeBoard → reachable ui →
  moves ui = getMoves (chessPosition ui) ∧
  pieceSquares (board ui) = typeOccupancy (chessPosition ui) ∧
  (Forall (λ move, getFrom move < RANKS * FILES) (getMoves (chessPosition ui)) →
   taggedSquares "can-move" (board ui) = origins (getMoves (chessPosition ui)) ∧
   ∀ index k d, index < RANKS * FILES →
     board ui !! squareId index ≫= (λ t, td_children t !! k) = Some d →
     div_hover d = true →
     ∃ move, move ∈ moves ui ∧ getFrom move = index).
Proof.
  intros Hc Hbuilt Hreach.
  destruct (reachable_pageCurrent ui Hc Hbuilt Hreach)
    as ((Hmoves & Hdom) & Hpieces & Hcells).
  split; [done |]. split; [done |]. intros Hrange. rewrite Forall_forall in Hrange.
  assert (∀ index, index < RANKS * FILES →
            originAt (chessPosition ui) (squareId index) ↔
            ∃ move, move ∈ getMoves (chessPosition ui) ∧ getFrom move = index) as Horigin.
  { intros index Hindex. split.
    - intros (move & Hin & Hkey). exists move. split; [done |].
      apply squareId_inj; [done | by apply Hrange | done | done].
    - intros (move & Hin & <-). by exists move. }
  split.
  - apply set_eq. intros index. rewrite elem_of_taggedSquares, elem_of_origins.
    split.
    + intros [Hindex Htag]. apply Horigin; [done |]. unfold cellTagged in Htag.
      destruct (board ui !! squareId index) as [td|] eqn:Htd; [|done].
      by apply (Hcells _ td Htd).
    + intros (move & Hin & <-). pose proof (Hrange move Hin) as Hindex.
      split; [done |]. unfold cellTagged.
      destruct (boardBuilt_dom (board ui) Hbuilt Hdom _ Hindex) as [td Htd].
      rewrite Htd. simpl. apply (Hcells _ td Htd). by exists move.
  - intros index k d Hindex Hd Hhover. rewrite Hmoves. apply Horigin; [done |].
    destruct (board ui !! squareId index) as [td|] eqn:Htd; [|done]. simpl in Hd.
    apply (Hcells _ td Htd) with d; [by eapply list_elem_of_lookup_2 | done].
Qed.

(** *** The position changes by legal moves only *)

Lemma prompt_None p : prompt p = None ↔ getStatus p = NORMAL.
Proof.
  unfold prompt. destruct (decide (getStatus p = CHECKMATE)) as [Hmate|Hmate].
  - split; [done |]. intros Hnormal. by rewrite Hnormal in Hmate.
  - destruct (decide (getStatus p ≠ NORMAL)) as [Hfinal|Hfinal]; [done |].
    split; [|done]. intros _.
    destruct (decide (getStatus p = NORMAL)); [done | by destruct Hfinal].
Qed.

(** Where [updateChessPosition] leaves the position: as it was, or, after
    an accepted restart of a finished game, at a new initial position. *)
Lemma updateChessPosition_position replies ui :
  chessPosition (finalUI (updateChessPosition replies ui)) = chessPosition ui ∨
  (getStatus (chessPosition ui) ≠ NORMAL ∧
   chessPosition (finalUI (updateChessPosition replies ui)) = newPosition).
Proof.
  revert ui. induction replies as [|reply rest IH]; intros ui;
    rewrite updateChessPosition_eq;
    destruct (prompt (chessPosition ui)) as [message|] eqn:Hprompt;
    cbn [finalUI]; try (by left).
  cbn zeta. destruct reply; cbn [finalUI]; [|by left].
  right. split.
  - intros Hnormal%prompt_None. by rewrite Hnormal in Hprompt.
  - unfold reset.
    destruct (IH (resetPosition (record (CallConfirm message true) (resynchronize ui))))
      as [-> | [_ ->]]; reflexivity.
Qed.

(** X12: from a state in which the controller waits for an event, an event
    leaves the position as it is, or replaces it by the result of one move
    that is legal in it, or, when that move ended the game and the user
    accepted the restart, by a new initial position. Moves that are not
    legal never reach the position. *)
Theorem handle_plays_legal_moves e ui ui' :
  reachable ui → handle e ui = Done ui' →
  chessPosition ui' = chessPosition ui ∨
  ∃ move, move ∈ getMoves (chessPosition ui) ∧
    (chessPosition ui' = makeMove (chessPosition ui) move ∨
     (getStatus (makeMove (chessPosition ui) move) ≠ NORMAL ∧
      chessPosition ui' = newPosition)).
Proof.
  intros [Hmoves _]%reachable_synchronized Hstep.
  destruct (handle_cases e ui ui' Hstep) as [[Hp _] | (replies & move & Hin & Hdone)];
    [by left |].
  right. exists move. split; [by rewrite <- Hmoves |].
  pose proof (updateChessPosition_position replies (submitted move ui)) as Hfinal.
  by rewrite Hdone in Hfinal.
Qed.

(** *** What can be dragged *)

Lemma draggableBound_resynchronize ui : draggableBound (board (resynchronize ui)).
Proof.
  intros s td d Htd Hd Hdrag.
  destruct (resynchronize_cell ui s td Htd) as (_ & _ & Hnodes).
  destruct (Hnodes d Hd) as [Hnot _]. congruence.
Qed.

Lemma draggableBound_handle e ui ui' :
  draggableBound (board ui) → handle e ui = Done ui' → draggableBound (board ui').
Proof.
  intros Hb. destruct e as [sq k | sq k | sq k | | sq replies]; simpl.
  - intros [= <-]. unfold mouseenter.
    destruct (board ui !! sq ≫= _) as [d|] eqn:Hd; [|done].
    destruct (div_hover d) eqn:Hhover; [|done].
    destruct (dragging ui) eqn:Hdrag.
    { unfold mouseenterHandler. by rewrite Hdrag. }
    intros s td' d' Hlook [j Hj]%list_elem_of_lookup Hdraggable.
    rewrite mouseenterHandler_lookup in Hlook; [| done | by destruct (board ui !! sq)].
    destruct (board ui !! s) as [td|] eqn:Htd; [|done]. injection Hlook as <-.
    destruct (hoverCell_node _ _ _ _ _ _ _ Hj) as (d0 & Hd0 & -> & Hcases).
    destruct (Hcases Hdraggable) as [Hold | [-> ->]].
    + apply (Hb s td d0); [done | by eapply list_elem_of_lookup_2 | done].
    + rewrite Htd in Hd. simpl in Hd. congruence.
  - intros [= <-]. unfold mouseleave.
    destruct (board ui !! sq ≫= _) as [d|]; [|done].
    destruct (div_hover d); [|done].
    unfold mouseleaveHandler. destruct (dragging ui); [done |].
    intros s td' d' Hlook Hd' Hdraggable.
    change (board (clearMoving ui)) with (clearMovingBoard (board ui)) in Hlook.
    unfold clearMovingBoard in Hlook. rewrite lookup_fmap in Hlook.
    destruct (board ui !! s) as [td|] eqn:Htd; [|done]. injection Hlook as <-.
    simpl in Hd'. apply list_elem_of_fmap in Hd' as (d0 & -> & Hd0).
    by apply (Hb s td d0).
  - intros [= <-]. unfold dragstart.
    destruct (board ui !! sq ≫= _) as [d|]; [|done]. by destruct (div_draggable d).
  - by intros [= <-].
  - unfold dropEvent.
    destruct (board ui !! sq ≫= td_droppable) as [from|]; [|by intros [= <-]].
    unfold dropHandler.
    destruct (List.filter _ (moves ui)) as [|move others].
    + intros [= <-] s td' d' Hlook Hd' Hdraggable.
      rewrite clearMoving_clearDragging_lookup in Hlook.
      destruct (board ui !! s) as [td|]; [|done]. injection Hlook as <-.
      simpl in Hd'. by apply list_elem_of_fmap in Hd' as (d0 & -> & _).
    + intros Hdone.
      pose proof (updateChessPosition_final (λ _, True)
                    (λ ui0, draggableBound (board ui0))) as Hfinal.
      specialize (Hfinal (λ ui0 _, draggableBound_resynchronize ui0)).
      specialize (Hfinal (λ call ui0 Hbound, Hbound) (λ _ _ _, I) replies
                    (withPosition (makeMove (chessPosition ui) move)
                       (record (CallMakeMove move) ui)) I).
      by rewrite Hdone in Hfinal.
Qed.

Lemma reachable_draggableBound ui : reachable ui → draggableBound (board ui).
Proof.
  induction 1 as [replies ui Hstart | e ui ui' _ IH Hstep].
  - pose proof (updateChessPosition_final (λ _, True)
                  (λ ui0, draggableBound (board ui0))) as Hfinal.
    specialize (Hfinal (λ ui0 _, draggableBound_resynchronize ui0)).
    specialize (Hfinal (λ call ui0 Hbound, Hbound) (λ _ _ _, I) replies
                  (newUI makeBoard) I).
    unfold makeChessGame in Hstart. by rewrite Hstart in Hfinal.
  - by apply (draggableBound_handle e ui).
Qed.

(** X15: in every state in which the controller waits for an event, a piece
    node that carries the draggable widget stands on the origin of a legal
    move of the current position: a piece without a legal move, one of the
    side not to move for instance, can never be dragged. *)
Theorem draggable_pieces_can_move ui index k d :
  coordinatesAgree → boardBuilt makeBoard → reachable ui →
  Forall (λ move, getFrom move < RANKS * FILES) (getMoves (chessPosition ui)) →
  index < RANKS * FILES →
  board ui !! squareId index ≫= (λ t, td_children t !! k) = Some d →
  div_draggable d = true →
  div_hover d = true ∧
  ∃ move, move ∈ getMoves (chessPosition ui) ∧ getFrom move = index.
Proof.
  intros Hc Hbuilt Hreach Hrange Hindex Hd Hdraggable.
  destruct (reachable_pageCurrent ui Hc Hbuilt Hreach) as (_ & _ & Hcells).
  pose proof (reachable_draggableBound ui Hreach) as Hbound.
  rewrite Forall_forall in Hrange.
  destruct (board ui !! squareId index) as [td|] eqn:Htd; [|done]. simpl in Hd.
  assert (d ∈ td_children td) as Hin by by eapply list_elem_of_lookup_2.
  pose proof (Hbound _ td d Htd Hin Hdraggable) as Hhover. split; [done |].
  destruct (Hcells _ td Htd) as [_ Hnodes].
  apply (Hnodes d Hin) in Hhover as (move & Hmove & Hkey).
  exists move. split; [done |].
  apply squareId_inj; [done | by apply Hrange | done | done].
Qed.

(** *** A game that ended without a mate *)

(** X16: when a resynchronization finds a status that is neither checkmate
    nor normal, the controller puts the blocking confirmation that the game
    is a draw, after the page was brought up to date; on decline it returns
    with position and page as they are, on acceptance it runs [reset]. The
    question is asked once per resynchronization. *)
Theorem updateChessPosition_draw ui :
  getStatus (chessPosition ui) ≠ CHECKMATE →
  getStatus (chessPosition ui) ≠ NORMAL →
  updateChessPosition [] ui
    = Confirming "The game is a draw. Do you want to restart the game?"
        (resynchronize ui) ∧
  (∀ rest, ∃ ui',
     updateChessPosition (false :: rest) ui = Done ui' ∧
     chessPosition ui' = chessPosition ui ∧
     board ui' = board (resynchronize ui) ∧
     calls ui' = calls ui ++ resyncCalls
       ++ [CallConfirm "The game is a draw. Do you want to restart the game?" false]) ∧
  (∀ rest,
     updateChessPosition (true :: rest) ui
       = reset rest
           (record (CallConfirm "The game is a draw. Do you want to restart the game?"
                      true) (resynchronize ui))).
Proof.
  intros Hmate Hnormal.
  assert (prompt (chessPosition ui)
          = Some "The game is a draw. Do you want to restart the game?") as Hprompt.
  { unfold prompt. by rewrite decide_False, decide_True by done. }
  split; [by rewrite updateChessPosition_eq, Hprompt |]. split.
  - intros rest. rewrite updateChessPosition_eq, Hprompt. cbn zeta iota.
    eexists. split; [reflexivity |]. split; [done |].
    split; [apply board_record |].
    by rewrite calls_record, calls_resynchronize, <- app_assoc.
  - intros rest. by rewrite updateChessPosition_eq, Hprompt.
Qed.

(** *** Starting and restarting *)

(** X13: when the initial position of the engine is not itself final,
    [reset] asks nothing, whatever replies are pending: it returns after one
    resynchronization with the page idle on a new initial position. *)
Theorem reset_returns replies ui :
  getStatus newPosition = NORMAL →
  ∃ ui', reset replies ui = Done ui' ∧
    chessPosition ui' = newPosition ∧
    moves ui' = getMoves newPosition ∧
    dragging ui' = false ∧
    calls ui' = calls ui ++ CallReset :: resyncCalls.
Proof.
  intros Hnormal. exists (resynchronize (resetPosition ui)).
  split; [|split; [done | split; [done | split; [done |]]]].
  - unfold reset. rewrite updateChessPosition_eq.
    change (chessPosition (resetPosition ui)) with newPosition.
    by rewrite (proj2 (prompt_None newPosition) Hnormal).
  - rewrite calls_resynchronize, calls_resetPosition. by rewrite <- app_assoc.
Qed.

(** X14: when the initial position of the engine is not final,
    [makeChessGame] returns without a question after making the board and
    one resynchronization; the page it leaves shows the initial position: the
    cells are those of [makeBoard], the squares with a piece node are those
    of the piece-type sets, and the handlers filter its legal moves. *)
Theorem makeChessGame_opens replies :
  getStatus newPosition = NORMAL → coordinatesAgree → boardBuilt makeBoard →
  ∃ ui, makeChessGame replies = Done ui ∧ reachable ui ∧
    chessPosition ui = newPosition ∧
    calls ui = resyncCalls ∧
    dom (board ui) = dom makeBoard ∧
    moves ui = getMoves newPosition ∧
    pieceSquares (board ui) = typeOccupancy newPosition.
Proof.
  intros Hnormal Hc Hbuilt.
  assert (makeChessGame replies = Done (resynchronize (newUI makeBoard))) as Hstart.
  { unfold makeChessGame. rewrite updateChessPosition_eq.
    change (chessPosition (newUI makeBoard)) with newPosition.
    by rewrite (proj2 (prompt_None newPosition) Hnormal). }
  exists (resynchronize (newUI makeBoard)).
  split; [done |]. split; [by apply (reachable_start replies) |].
  split; [done |]. split; [by rewrite calls_resynchronize |].
  destruct (pageCurrent_resynchronize (newUI makeBoard) Hc Hbuilt eq_refl)
    as ((Hmoves & Hdom) & Hpieces & _).
  by rewrite chessPosition_resynchronize in Hpieces.
Qed.

End Session.

(** ** The highlighting and drop theorems on the scripted engine *)

Module PlayExamples.
Import Scripted.

Lemma opened_reachable : reachable opened.
Proof.
  assert (confirmation (makeChessGame []) = None) as Hnone by reflexivity.
  unfold opened. destruct (makeChessGame []) as [ui | message ui] eqn:Hgame.
  - by apply (reachable_start []).
  - done.
Qed.

Lemma after_reachable events :
  is_Some (run events opened) → reachable (after events).
Proof.
  intros [ui Hrun]. apply (reachable_run events opened); [apply opened_reachable |].
  unfold after. by rewrite Hrun.
Qed.

(** The game 1.f3 e5 2.g4 can be played on the board, and the black queen
    hovered afterwards. *)
Lemma aboutToMate_reachable : reachable aboutToMate.
Proof. apply after_reachable. by_evaluation. Qed.

Lemma staleTarget_reachable : reachable staleTarget.
Proof. apply after_reachable. by_evaluation. Qed.

(** Hovering the pawn on e2 of the opened game arms it and marks e3 and e4. *)
Example hover_e2 :
  td_class (cellAt (after [Mouseenter "e2" 0]) "e2")
    = list_to_set ["light"; "pawn"; "white"; "turn"; "can-move"; "from"] ∧
  td_class (cellAt (after [Mouseenter "e2" 0]) "e3")
    = list_to_set ["dark"; "to"; "positional"] ∧
  td_class (cellAt (after [Mouseenter "e2" 0]) "e4")
    = list_to_set ["light"; "to"; "double-push"] ∧
  td_droppable (cellAt (after [Mouseenter "e2" 0]) "e4") = Some 12.
Proof. repeat split; by_evaluation. Qed.

(** Dropping it on e4 plays the double push: e4 holds the pawn, e2 is
    empty, both carry [last-move], and Black is to move. *)
Example drop_e4 :
  td_class (cellAt (after [Mouseenter "e2" 0; Dropped "e4" []]) "e4")
    = list_to_set ["light"; "pawn"; "white"; "last-move"] ∧
  div_text (pieceAt (after [Mouseenter "e2" 0; Dropped "e4" []]) "e4") = "P" ∧
  td_class (cellAt (after [Mouseenter "e2" 0; Dropped "e4" []]) "e2")
    = list_to_set ["light"; "last-move"] ∧
  td_children (cellAt (after [Mouseenter "e2" 0; Dropped "e4" []]) "e2") = [] ∧
  getTurnColor (chessPosition (after [Mouseenter "e2" 0; Dropped "e4" []])) = BLACK.
Proof. repeat split; try by_evaluation; reflexivity. Qed.

(** The initial arrangement: [can-move] sits on e2, f2 and g1, the origins
    of the four scripted moves. *)
Lemma updateMoves_can_move_squares_witness :
  taggedSquares "can-move" (board (updateMoves (showing start)))
  = origins (getMoves start).
Proof.
  apply (updateMoves_can_move_squares (showing start)).
  - exact PieceExamples.scripted_coordinates.
  - apply boardBuilt_checked. reflexivity.
  - by_evaluation.
Defined.

(** Hovering the pawn on e2 in the initial arrangement: e4 gets
    [double-push], because the double push e2-e4 is a legal move. *)
Lemma mouseenter_tags_destinations_witness :
  ∃ td', board (mouseenter "e2" 0 (showing start)) !! "e4" = Some td' ∧
    addsTag "double-push"
      (facetMove (moves (showing start)) (getIndexFromAlgebraic "e2") 28
         (λ move, bool_decide (getKind move = DOUBLE_PAWN_PUSH)))
      (cellAt (showing start) "e4") td' ∧
    ("double-push" ∈ td_class td' ↔
     facetMove (moves (showing start)) (getIndexFromAlgebraic "e2") 28
       (λ move, bool_decide (getKind move = DOUBLE_PAWN_PUSH))).
Proof.
  destruct (mouseenter_tags_destinations (showing start) "e2" 0
              (pieceAt (showing start) "e2") "double-push"
              (λ move, bool_decide (getKind move = DOUBLE_PAWN_PUSH)) 28
              (cellAt (showing start) "e4"))
    as (td' & Hlook & Hadds & Hexact & _).
  - exact PieceExamples.scripted_coordinates.
  - reflexivity.
  - reflexivity.
  - reflexivity.
  - by_evaluation.
  - apply list_elem_of_lookup. exists 3. reflexivity.
  - vm_compute. lia.
  - reflexivity.
  - exists td'. split; [exact Hlook |]. split; [exact Hadds |].
    apply Hexact. by_evaluation.
Defined.

(** C8 as stated fails after a drag that ended without a drop: the tags of
    the pawn's promotion are still on b8 when the rook on a8 is hovered, and
    b8 then carries [promotion] although the only move from a8, to b8, is
    no promotion. *)
Lemma mouseenter_tags_destinations_counterexample :
  confirmation (updateChessPosition [] (holding crowded)) = None ∧
  finalUI (updateChessPosition [] (holding crowded)) = showing crowded ∧
  is_Some (run [Mouseenter "b7" 0; Dragstart "b7" 0; Mouseleave "b7" 0; Dragstop]
             (showing crowded)) ∧
  dragging cancelledDrag = false ∧
  hasClass "can-move" (td_class (cellAt cancelledDrag "a8")) = true ∧
  div_hover (pieceAt cancelledDrag "a8") = true ∧
  List.filter (λ move, (getFrom move =? getIndexFromAlgebraic "a8")%nat)
    (moves cancelledDrag) = [rookB8] ∧
  getTo rookB8 = 57 ∧ isPromotion rookB8 = false ∧
  cellTagged "promotion" (board (mouseenter "a8" 0 cancelledDrag)) 57 = true ∧
  ¬ (cellTagged "promotion" (board (mouseenter "a8" 0 cancelledDrag)) 57 = true ↔
     ∃ move, move ∈ moves cancelledDrag ∧
       getFrom move = getIndexFromAlgebraic "a8" ∧ getTo move = 57 ∧
       isPromotion move = true).
Proof.
  assert (cellTagged "promotion" (board (mouseenter "a8" 0 cancelledDrag)) 57 = true)
    as Htagged by (vm_compute; reflexivity).
  assert (moves cancelledDrag = [promotePush 11; rookB8]) as Hmoves
    by (vm_compute; reflexivity).
  do 2 (split; [reflexivity |]). split; [by_evaluation |].
  do 3 (split; [vm_compute; reflexivity |]).
  split; [by rewrite Hmoves |]. do 2 (split; [reflexivity |]).
  split; [exact Htagged |].
  intros [Hiff _]. destruct (Hiff Htagged) as (move & Hin & Hfrom & Hto & Hpromotion).
  rewrite Hmoves in Hin.
  apply elem_of_cons in Hin as [-> | Hin]; [discriminate Hfrom |].
  apply list_elem_of_singleton in Hin as ->. discriminate Hpromotion.
Qed.

Lemma dropEvent_unique_match_witness :
  ∃ tail,
    calls (finalUI (dropEvent [false] "h4" aboutToMate))
      = calls aboutToMate ++ CallMakeMove queenH4 :: resyncCalls ++ tail ∧
    resynchronizations (CallMakeMove queenH4 :: resyncCalls ++ tail) = 1.
Proof.
  destruct (dropEvent_unique_match aboutToMate [false] "h4" 59 queenH4)
    as (_ & _ & tail & Hcalls & _ & _ & Hone & _).
  - reflexivity.
  - reflexivity.
  - exists tail. split; [exact Hcalls |]. apply Hone. right. discriminate.
Defined.

(** C1 as stated fails when the unique move mates and the user accepts the
    restart: the drop submits Qh4 once and then resynchronizes twice, the
    second time on the new initial position. *)
Lemma dropEvent_unique_match_counterexample :
  cellTagged "to" (board aboutToMate) 31 = true ∧
  board aboutToMate !! "h4" ≫= td_droppable = Some 59 ∧
  List.filter (matching 59 (getIndexFromAlgebraic "h4")) (moves aboutToMate) = [queenH4] ∧
  calls (finalUI (dropEvent [true] "h4" aboutToMate))
    = calls aboutToMate
      ++ CallMakeMove queenH4 :: resyncCalls
      ++ [CallConfirm "Black wins. Checkmate! Do you want to restart the game?" true;
          CallReset]
      ++ resyncCalls ∧
  resynchronizations
    (CallMakeMove queenH4 :: resyncCalls
     ++ [CallConfirm "Black wins. Checkmate! Do you want to restart the game?" true;
         CallReset]
     ++ resyncCalls) ≠ 1.
Proof.
  split; [reflexivity |]. split; [reflexivity |]. split; [reflexivity |].
  split; [reflexivity |]. vm_compute. discriminate.
Qed.

Lemma dropEvent_several_matches_witness :
  dropEvent [] "a8" aboutToPromote
    = updateChessPosition [] (submitted (promoteCapture 15) aboutToPromote) ∧
  ∃ earlier later,
    moves aboutToPromote = earlier ++ promoteCapture 15 :: later ∧
    Forall (λ other, matching 49 (getIndexFromAlgebraic "a8") other = false) earlier ∧
    matching 49 (getIndexFromAlgebraic "a8") (promoteCapture 15) = true.
Proof.
  destruct (dropEvent_several_matches aboutToPromote [] "a8" 49 (promoteCapture 15)
              [promoteCapture 14; promoteCapture 13; promoteCapture 12])
    as (Hdrop & _ & Hfirst & _).
  - reflexivity.
  - reflexivity.
  - discriminate.
  - split; [exact Hdrop | exact Hfirst].
Defined.




Lemma updateChessPosition_checkmate_witness :
  updateChessPosition [] (holding mated)
  = Confirming "Black wins. Checkmate! Do you want to restart the game?"
      (resynchronize (holding mated)).
Proof.
  destruct (updateChessPosition_checkmate (holding mated)
              "Black wins. Checkmate! Do you want to restart the game?")
    as (Hprompt & _).
  - reflexivity.
  - reflexivity.
  - exact Hprompt.
Defined.

(** C5 as stated fails after Qh4#: White is to move and is mated, and the
    confirmation names Black, not White. *)
Lemma updateChessPosition_checkmate_counterexample :
  getStatus mated = CHECKMATE ∧ getTurnColor mated = WHITE ∧
  confirmation (updateChessPosition [] (holding mated))
    = Some "Black wins. Checkmate! Do you want to restart the game?" ∧
  mentions (colorName (getTurnColor mated))
    "Black wins. Checkmate! Do you want to restart the game?" ≠ true.
Proof.
  split; [reflexivity |]. split; [reflexivity |]. split; [reflexivity |].
  vm_compute. discriminate.
Qed.

End PlayExamples.

(** ** The further theorems on the scripted engine *)

Module SessionExamples.
Import Scripted.

Lemma scripted_distinct_ids : NoDup (cellIds (H := engine)).
Proof. by_evaluation. Qed.

Lemma scripted_cover : idsCoverIndices (H := engine).
Proof. unfold idsCoverIndices. by_evaluation. Qed.

Lemma scripted_built : boardBuilt (H := engine) makeBoard.
Proof. apply boardBuilt_checked. reflexivity. Qed.

Lemma scripted_names_cases (P : string → Prop) :
  P "pawn" → P "knight" → P "bishop" → P "rook" → P "queen" → P "king" →
  ∀ name, name ∈ PIECE_NAMES (ChessEngine := engine) → P name.
Proof.
  intros ? ? ? ? ? ? name Hname. simpl in Hname.
  repeat (apply elem_of_cons in Hname as [-> | Hname]); try done.
  by apply elem_of_nil in Hname.
Qed.

Lemma scripted_names_not_moving name c :
  name ∈ PIECE_NAMES (ChessEngine := engine) → c ∈ classNames name →
  c ∉ classNames (MOVING_CLASSES).
Proof.
  intros Hname. revert c. revert name Hname.
  apply (scripted_names_cases
           (λ name, ∀ c, c ∈ classNames name → c ∉ classNames MOVING_CLASSES));
    intros c Hc; apply list_elem_of_singleton in Hc as ->; by_evaluation.
Qed.

Lemma scripted_names_not_last_move name :
  name ∈ PIECE_NAMES (ChessEngine := engine) → "last-move" ∉ classNames name.
Proof.
  revert name.
  apply (scripted_names_cases (λ name, "last-move" ∉ classNames name)); by_evaluation.
Qed.

Lemma scripted_piece_class_names : Forall pieceClassName (PIECE_NAMES (ChessEngine := engine)).
Proof.
  apply Forall_forall. apply (scripted_names_cases pieceClassName);
    (split; [split |]); by_evaluation.
Qed.

(** The board of the scripted engine has 64 cells, and e2 is a light one. *)
Lemma makeBoard_cells_witness :
  (∃ td, makeBoard !! "e2" = Some td ∧ td_class td = {[ "light" ]} ∧
     td_children td = [] ∧ td_droppable td = None) ∧
  size (makeBoard (H := engine)) = 64.
Proof.
  destruct (makeBoard_cells scripted_distinct_ids) as (Hcells & _ & Hsize).
  split; [|exact Hsize]. apply (Hcells 1 4); vm_compute; lia.
Defined.

Lemma makeBoard_built_witness : boardBuilt (H := engine) makeBoard.
Proof. apply makeBoard_built. exact scripted_cover. Defined.

(** After 1.f3 the cell f3, on which the last move ended, is marked. *)
Lemma updatePieces_marks_last_move_witness :
  cellTagged "last-move" (board (updatePieces (showing afterF3))) 21 = true ↔
  ∃ lastMove, getLastMove afterF3 = Some lastMove ∧
    (getFrom lastMove = 21 ∨ getTo lastMove = 21).
Proof.
  apply (updatePieces_marks_last_move (showing afterF3) 21 (cellAt (showing afterF3) "f3")).
  - exact PieceExamples.scripted_coordinates.
  - vm_compute. lia.
  - reflexivity.
  - exact scripted_names_not_last_move.
  - intros lastMove Hlast. change (Some pawnF3 = Some lastMove) in Hlast.
    injection Hlast as <-. split; vm_compute; lia.
Defined.

(** The initial arrangement: the cell e2 is [white], and of the piece names
    it carries that of the pawn. *)
Lemma updatePieces_cell_tags_witness :
  cellTagged "white" (board (updatePieces (showing start))) 12
    = occupied start 12 && isSet (getColorBitboard start WHITE) 12 ∧
  ∀ name, name ∈ PIECE_NAMES →
    cellTagged name (board (updatePieces (showing start))) 12 = true ↔
    ∃ piece, firstPieceAt start 12 piece ∧ pieceName piece = Some name.
Proof.
  destruct (updatePieces_cell_tags (showing start) 12 (cellAt (showing start) "e2"))
    as (Hwhite & _ & _ & Hnames).
  - exact PieceExamples.scripted_coordinates.
  - vm_compute. lia.
  - reflexivity.
  - split; [exact Hwhite | exact (Hnames scripted_piece_class_names)].
Defined.

(** After the pawn on e2 was hovered, [updatePieces] keeps the cells and
    lets the hover tags of e4 through. *)
Lemma updatePieces_frame_witness :
  dom (board (updatePieces (after [Mouseenter "e2" 0])))
    = dom (board (after [Mouseenter "e2" 0])) ∧
  ∀ s td', board (updatePieces (after [Mouseenter "e2" 0])) !! s = Some td' →
    ∃ td, board (after [Mouseenter "e2" 0]) !! s = Some td ∧
      td_title td' = td_title td ∧
      td_droppable td' = td_droppable td ∧
      ∀ c, c ∉ classNames PIECE_CLASSES → c ∈ td_class td' ↔ c ∈ td_class td.
Proof.
  destruct (updatePieces_frame (after [Mouseenter "e2" 0])
              PieceExamples.scripted_coordinates) as (_ & _ & _ & Hdom & Hcells).
  split; [exact Hdom | exact Hcells].
Defined.

(** Hovering the pawn on e2 of the initial arrangement arms e2. *)
Lemma mouseenter_arms_witness :
  dragging (mouseenter "e2" 0 (showing start)) = false ∧
  ∀ s td', board (mouseenter "e2" 0 (showing start)) !! s = Some td' →
    td_droppable td'
      = (if hasClass "to" (td_class td')
         then Some (getIndexFromAlgebraic "e2") else None) ∧
    (∀ j d', td_children td' !! j = Some d' →
       div_draggable d' = bool_decide (s = "e2" ∧ j = 0)) ∧
    (s = "e2" → hasClass "from" (td_class td') = true).
Proof.
  destruct (mouseenter_arms (showing start) "e2" 0 (pieceAt (showing start) "e2"))
    as (_ & _ & Hdrag & Hcells).
  - reflexivity.
  - reflexivity.
  - reflexivity.
  - exists pawnE3. split; [|reflexivity].
    apply list_elem_of_lookup. exists 0. reflexivity.
  - split; [exact Hdrag | exact Hcells].
Defined.

Lemma showing_clean p : noMovingClass (board (showing p)).
Proof.
  intros s td Htd.
  exact (resynchronize_movingFree (holding p) s td scripted_names_not_moving Htd).
Qed.

(** Entering and leaving the pawn on e2 of the initial arrangement. *)
Lemma hover_leave_restores_witness :
  chessPosition (mouseleave "e2" 0 (mouseenter "e2" 0 (showing start))) = start ∧
  ∀ s, appearance <$> board (mouseleave "e2" 0 (mouseenter "e2" 0 (showing start))) !! s
       = appearance <$> board (showing start) !! s.
Proof.
  destruct (hover_leave_restores (showing start) "e2" 0 (pieceAt (showing start) "e2"))
    as (Hposition & _ & Hcells).
  - reflexivity.
  - apply showing_clean.
  - reflexivity.
  - reflexivity.
  - split; [exact Hposition | exact Hcells].
Defined.

(** The pawn on e2 is dragged over the knight on g1 and back. *)
Lemma hover_ignored_while_dragging_witness :
  run [Mouseleave "e2" 0; Mouseenter "g1" 0; Mouseleave "g1" 0; Mouseenter "e2" 0]
    (dragStart (mouseenter "e2" 0 (showing start)))
  = Some (dragStart (mouseenter "e2" 0 (showing start))).
Proof.
  apply hover_ignored_while_dragging.
  - reflexivity.
  - reflexivity.
Defined.

(** A resynchronization of the page on which e2 is armed. *)
Lemma updateChessPosition_clears_highlight_witness :
  noMovingClass
    (board (finalUI (updateChessPosition [] (mouseenter "e2" 0 (showing start))))).
Proof.
  apply updateChessPosition_clears_highlight.
  exact scripted_names_not_moving.
Defined.

(** The page after 1.f3 e5 2.g4 was played on it and the queen hovered. *)
Lemma reachable_page_current_witness :
  moves aboutToMate = getMoves (chessPosition aboutToMate) ∧
  pieceSquares (board aboutToMate) = typeOccupancy (chessPosition aboutToMate) ∧
  taggedSquares "can-move" (board aboutToMate)
    = origins (getMoves (chessPosition aboutToMate)).
Proof.
  destruct (reachable_page_current aboutToMate) as (Hmoves & Hpieces & Hmarks).
  - exact PieceExamples.scripted_coordinates.
  - exact scripted_built.
  - exact PlayExamples.aboutToMate_reachable.
  - split; [exact Hmoves |]. split; [exact Hpieces |].
    apply Hmarks. by_evaluation.
Defined.

(** The queen is dropped on h4 and the restart declined: the position is
    the result of a legal move. *)
Lemma handle_plays_legal_moves_witness :
  chessPosition (finalUI (handle (Dropped "h4" [false]) aboutToMate))
    = chessPosition aboutToMate ∨
  ∃ move, move ∈ getMoves (chessPosition aboutToMate) ∧
    (chessPosition (finalUI (handle (Dropped "h4" [false]) aboutToMate))
       = makeMove (chessPosition aboutToMate) move ∨
     (getStatus (makeMove (chessPosition aboutToMate) move) ≠ NORMAL ∧
      chessPosition (finalUI (handle (Dropped "h4" [false]) aboutToMate)) = newPosition)).
Proof.
  assert (confirmation (handle (Dropped "h4" [false]) aboutToMate) = None) as Hnone
    by reflexivity.
  destruct (handle (Dropped "h4" [false]) aboutToMate) as [ui' | message ui'] eqn:Hstep.
  - apply (handle_plays_legal_moves (Dropped "h4" [false]) aboutToMate ui').
    + exact PlayExamples.aboutToMate_reachable.
    + exact Hstep.
  - discriminate Hnone.
Defined.

(** The pawn on e2 was hovered: it is draggable, and e2-e3 is legal. *)
Lemma draggable_pieces_can_move_witness :
  div_hover (pieceAt (after [Mouseenter "e2" 0]) "e2") = true ∧
  ∃ move, move ∈ getMoves (chessPosition (after [Mouseenter "e2" 0])) ∧
          getFrom move = 12.
Proof.
  apply (draggable_pieces_can_move (after [Mouseenter "e2" 0]) 12 0
           (pieceAt (after [Mouseenter "e2" 0]) "e2")).
  - exact PieceExamples.scripted_coordinates.
  - exact scripted_built.
  - apply PlayExamples.after_reachable. by_evaluation.
  - by_evaluation.
  - vm_compute. lia.
  - vm_compute. reflexivity.
  - vm_compute. reflexivity.
Defined.

(** The two kings alone. *)
Lemma updateChessPosition_draw_witness :
  updateChessPosition [] (holding drawn)
  = Confirming "The game is a draw. Do you want to restart the game?"
      (resynchronize (holding drawn)).
Proof.
  destruct (updateChessPosition_draw (holding drawn)) as (Hasked & _).
  - discriminate.
  - discriminate.
  - exact Hasked.
Defined.

(** A restart from the mate. *)
Lemma reset_returns_witness :
  ∃ ui', reset [true; true] (showing mated) = Done ui' ∧
    chessPosition ui' = newPosition ∧
    moves ui' = getMoves newPosition ∧
    dragging ui' = false ∧
    calls ui' = calls (showing mated) ++ CallReset :: resyncCalls.
Proof. apply reset_returns. reflexivity. Defined.

Lemma makeChessGame_opens_witness :
  ∃ ui, makeChessGame [] = Done ui ∧ reachable ui ∧
    chessPosition ui = newPosition ∧
    calls ui = resyncCalls ∧
    dom (board ui) = dom makeBoard ∧
    moves ui = getMoves newPosition ∧
    pieceSquares (board ui) = typeOccupancy newPosition.
Proof.
  apply makeChessGame_opens.
  - reflexivity.
  - exact PieceExamples.scripted_coordinates.
  - exact scripted_built.
Defined.

End SessionExamples.
